(** * UNO-MCP: the text analyzer and the enhancement pipeline

    A shallow embedding of [src/analyzer.ts], [src/enhancer.ts] and of the
    request handler of [src/index.js], with the properties of the
    specification that can be stated about them.  The text functions of
    [src/index.js] and the request handler of index.ts follow, with
    properties of the code beside those of the specification.

    Conventions of the embedding.

    - A JavaScript string is the sequence of its UTF-16 code units
      ([jsstring], a list of [N]).  Literals are written [js "..."], which
      decodes the UTF-8 bytes of the Rocq literal.
    - Character classes of regular expressions ([\s], [\w], [\b], [.]) are
      the ECMAScript ones for a pattern without the [u] flag.
    - Case mapping ([toLowerCase], [toUpperCase], and the canonicalisation
      of the [i] flag) is written out for Basic Latin and Latin-1 and for
      the few code units above them that map into these blocks; other
      code units are left unchanged, so that the embedding speaks of the
      texts whose cased letters are in these blocks.
    - Quotients of numbers that the source computes in binary64 are
      computed with the primitive floats of Rocq, which are binary64.
      The product by 0.6 of the repetition stage is taken exactly, and
      compared with the binary64 product for counts up to 4000.
    - A pattern that the source builds at run time from a word of the
      text is compiled here when it is a literal word; any other pattern
      is handed to [Js.otherPattern], the regular expressions of the
      language, of which nothing is assumed: the definitions take it as
      a parameter and the properties hold whatever it is.
    - [Math.random()] is a list of draws handed to the pipeline; a draw is
      a rational number, and its product by a length is taken exactly.
    - The expansion target is any binary64 number; a template literal
      writes it as Number::toString does ([Js.numberToString]).
    - An [async] method is the computation it awaits, a rejected promise
      is a raised exception. *)

From Stdlib Require Import String Ascii Floats DecimalString.
From Stdlib Require Import Bool Arith NArith ZArith QArith Qround Lia List Permutation.
From Stdlib Require Import Sorted.
Import ListNotations.

Open Scope string_scope.
Open Scope Q_scope.
Open Scope Z_scope.
Open Scope N_scope.
Open Scope nat_scope.
Open Scope list_scope.

(* ================================================================= *)
(** ** Built-ins of the language *)

Module Js.

(** A string is a list of UTF-16 code units. *)
Definition jsstring : Type := list N.

(** Code units of one Unicode code point. *)
Definition unitsOfCodePoint (cp : N) : jsstring :=
  if (cp <? 65536)%N then [cp]
  else [(55296 + (cp - 65536) / 1024)%N; (56320 + (cp - 65536) mod 1024)%N].

(** UTF-8 decoding of a literal: [need] continuation bytes are still
    expected for the code point accumulated in [acc]. *)
Fixpoint utf8 (s : string) (need : nat) (acc : N) : jsstring :=
  match s with
  | EmptyString => []
  | String a s' =>
      let b := N_of_ascii a in
      match need with
      | O =>
          if (b <? 128)%N then b :: utf8 s' 0 0%N
          else if (b <? 224)%N then utf8 s' 1 (b mod 32)%N
          else if (b <? 240)%N then utf8 s' 2 (b mod 16)%N
          else utf8 s' 3 (b mod 8)%N
      | S k =>
          let acc' := (acc * 64 + b mod 64)%N in
          match k with
          | O => unitsOfCodePoint acc' ++ utf8 s' 0 0%N
          | S _ => utf8 s' k acc'
          end
      end
  end.

Definition js (s : string) : jsstring := utf8 s 0 0%N.

Definition nl : N := 10%N.

(** [a === b] on strings. *)
Fixpoint eqb (a b : jsstring) : bool :=
  match a, b with
  | [], [] => true
  | x :: a', y :: b' => N.eqb x y && eqb a' b'
  | _, _ => false
  end.

(** *** Character classes *)

Definition inRange (lo hi c : N) : bool := (lo <=? c)%N && (c <=? hi)%N.

(** [\w] is [A-Za-z0-9_]. *)
Definition isWordChar (c : N) : bool :=
  inRange 48 57 c || inRange 65 90 c || N.eqb c 95 || inRange 97 122 c.

(** [\s]: WhiteSpace and LineTerminator. *)
Definition isSpace (c : N) : bool :=
  inRange 9 13 c || N.eqb c 32 || N.eqb c 160 || N.eqb c 5760
  || inRange 8192 8202 c || N.eqb c 8232 || N.eqb c 8233 || N.eqb c 8239
  || N.eqb c 8287 || N.eqb c 12288 || N.eqb c 65279.

(** [.] matches everything but a LineTerminator. *)
Definition isLineTerminator (c : N) : bool :=
  N.eqb c 10 || N.eqb c 13 || N.eqb c 8232 || N.eqb c 8233.

Definition isUpperAZ (c : N) : bool := inRange 65 90 c.
Definition isLowerAZ (c : N) : bool := inRange 97 122 c.

(** Latin-1 letters with a case partner 32 apart: U+00C0..U+00DE but
    U+00D7, and U+00E0..U+00FE but U+00F7. *)
Definition isUpperLatin1 (c : N) : bool := inRange 192 222 c && negb (N.eqb c 215).
Definition isLowerLatin1 (c : N) : bool := inRange 224 254 c && negb (N.eqb c 247).

(** *** Case mapping *)

Definition lowerUnit (c : N) : jsstring :=
  if isUpperAZ c || isUpperLatin1 c then [(c + 32)%N]
  else if N.eqb c 304 then [105%N; 775%N]      (* U+0130 *)
  else if N.eqb c 376 then [255%N]             (* U+0178 *)
  else if N.eqb c 7838 then [223%N]            (* U+1E9E *)
  else if N.eqb c 8490 then [107%N]            (* U+212A, Kelvin sign *)
  else if N.eqb c 8491 then [229%N]            (* U+212B, Angstrom sign *)
  else [c].

Definition toLowerCase (s : jsstring) : jsstring := flat_map lowerUnit s.

Definition upperUnit (c : N) : jsstring :=
  if isLowerAZ c || isLowerLatin1 c then [(c - 32)%N]
  else if N.eqb c 223 then [83%N; 83%N]        (* U+00DF gives SS *)
  else if N.eqb c 181 then [924%N]             (* U+00B5 *)
  else if N.eqb c 255 then [376%N]             (* U+00FF *)
  else if N.eqb c 305 then [73%N]              (* U+0131 *)
  else if N.eqb c 383 then [83%N]              (* U+017F *)
  else if N.eqb c 956 then [924%N]             (* U+03BC *)
  else [c].

Definition toUpperCase (s : jsstring) : jsstring := flat_map upperUnit s.

(** *** Searching and slicing *)

Fixpoint startsWith (p s : jsstring) : bool :=
  match p, s with
  | [], _ => true
  | _ :: _, [] => false
  | a :: p', b :: s' => N.eqb a b && startsWith p' s'
  end.

(** [s.includes(needle)] *)
Fixpoint includes (s needle : jsstring) : bool :=
  startsWith needle s
  || match s with
     | [] => false
     | _ :: s' => includes s' needle
     end.

(** Position of the first occurrence of [needle] in [s], counted from [i]. *)
Fixpoint search (needle s : jsstring) (i : nat) : option nat :=
  if startsWith needle s then Some i
  else match s with
       | [] => None
       | _ :: s' => search needle s' (S i)
       end.

(** [s.indexOf(needle, from)]; [None] stands for -1. *)
Definition indexOf (s needle : jsstring) (from : nat) : option nat :=
  if length s <? from then None else search needle (skipn from s) from.

(** [s.slice(a)] and [s.slice(a, b)] for indices that are not negative. *)
Definition sliceFrom (s : jsstring) (a : nat) : jsstring := skipn a s.
Definition slice (s : jsstring) (a b : nat) : jsstring := firstn (b - a) (skipn a s).

(** [s.trim().length > 0] *)
Definition hasNonSpace (s : jsstring) : bool := existsb (fun c => negb (isSpace c)) s.

(** [s.trim()] *)
Fixpoint trimStart (s : jsstring) : jsstring :=
  match s with
  | c :: s' => if isSpace c then trimStart s' else s
  | [] => []
  end.
Definition trim (s : jsstring) : jsstring := rev (trimStart (rev (trimStart s))).

(** *** Splitting and joining *)

(** [s.split(/[sep]+/)]: the pieces between the maximal runs of
    separator units; [cur] is the piece being read, in reverse, and
    [insep] tells that the last unit read was a separator. *)
Fixpoint splitRunsAux (sep : N -> bool) (s cur : jsstring) (insep : bool)
  : list jsstring :=
  match s with
  | [] => [rev cur]
  | c :: s' =>
      if sep c then
        if insep then splitRunsAux sep s' [] true
        else rev cur :: splitRunsAux sep s' [] true
      else splitRunsAux sep s' (c :: cur) false
  end.

Definition splitRuns (sep : N -> bool) (s : jsstring) : list jsstring :=
  splitRunsAux sep s [] false.

(** [s.split(sep)] for a string separator that is not empty: [skip] units
    of a separator found are still to be passed over. *)
Fixpoint splitOnAux (sep s cur : jsstring) (skip : nat) : list jsstring :=
  match s with
  | [] => [rev cur]
  | c :: s' =>
      match skip with
      | S k => splitOnAux sep s' cur k
      | O =>
          if startsWith sep s then rev cur :: splitOnAux sep s' [] (length sep - 1)
          else splitOnAux sep s' (c :: cur) 0
      end
  end.

Definition splitOn (sep s : jsstring) : list jsstring := splitOnAux sep s [] 0.

(** [l.join(sep)] *)
Fixpoint join (sep : jsstring) (l : list jsstring) : jsstring :=
  match l with
  | [] => []
  | [x] => x
  | x :: l' => x ++ sep ++ join sep l'
  end.

(** [l.splice(i, 0, x)] *)
Definition spliceIn {A : Type} (l : list A) (i : nat) (x : A) : list A :=
  firstn i l ++ x :: skipn i l.

(** [l[i] = f(l[i])] for an index of the array. *)
Fixpoint updateAt {A : Type} (l : list A) (i : nat) (f : A -> A) : list A :=
  match l, i with
  | [], _ => []
  | x :: l', O => f x :: l'
  | x :: l', S k => x :: updateAt l' k f
  end.

(** Insertion-ordered [Set] of strings and of numbers. *)
Fixpoint setAdd (x : jsstring) (l : list jsstring) : list jsstring :=
  match l with
  | [] => [x]
  | y :: l' => if eqb x y then l else y :: setAdd x l'
  end.

Fixpoint setAddZ (x : Z) (l : list Z) : list Z :=
  match l with
  | [] => [x]
  | y :: l' => if Z.eqb x y then l else y :: setAddZ x l'
  end.

(** [new Set(l).size] for numbers. *)
Definition distinctCount (l : list nat) : nat := length (nodup Nat.eq_dec l).

(** *** Numbers *)

(** A length or a count as a binary64 number. *)
Definition num (n : nat) : float := PrimFloat.of_uint63 (Uint63.of_Z (Z.of_nat n)).

(** Decimal digits of a count, as template literals print it. *)
Definition natToString (n : nat) : jsstring :=
  js (NilZero.string_of_uint (Nat.to_uint n)).

Definition intToString (z : Z) : jsstring :=
  js (NilZero.string_of_int (Z.to_int z)).

(** The exact value of a finite binary64 number, [m * 2^e]. *)
Definition exactValue (m : positive) (e : Z) : Q :=
  if (0 <=? e)%Z then inject_Z (Z.pos m * 2 ^ e) else Z.pos m # (Z.to_pos (2 ^ (- e))).

(** A number the source rounds to an integer: not-a-number, infinite,
    or the integer. *)
Inductive roundedNumber : Type :=
| RNaN
| RInfinity (negative : bool)
| RInteger (z : Z).

(** [Math.round(x)]: the integer nearest to [x], a tie going up. *)
Definition Math_round (x : float) : roundedNumber :=
  match Prim2SF x with
  | S754_nan => RNaN
  | S754_infinity s => RInfinity s
  | S754_zero _ => RInteger 0
  | S754_finite s m e =>
      let v := exactValue m e in
      RInteger (Qfloor (Qplus (if s then Qopp v else v) (1 # 2)))
  end.

(** [Math.ceil(x)] *)
Definition Math_ceil (x : float) : roundedNumber :=
  match Prim2SF x with
  | S754_nan => RNaN
  | S754_infinity s => RInfinity s
  | S754_zero _ => RInteger 0
  | S754_finite s m e =>
      let v := exactValue m e in
      RInteger (Qceiling (if s then Qopp v else v))
  end.

Definition roundedToString (r : roundedNumber) : jsstring :=
  match r with
  | RNaN => js "NaN"
  | RInfinity false => js "Infinity"
  | RInfinity true => js "-Infinity"
  | RInteger z => intToString z
  end.

(** [10^k] *)
Definition pow10 (k : Z) : Q :=
  if (0 <=? k)%Z then inject_Z (10 ^ k) else 1 # Z.to_pos (10 ^ (- k)).

(** [m * 2^e] *)
Definition dyadic (m e : Z) : Q :=
  if (0 <=? e)%Z then inject_Z (m * 2 ^ e) else Qmake m (Z.to_pos (2 ^ (- e))).

(** Whether the binary64 number nearest to [q], a tie going to the even
    significand, is [m * 2^e]: [q] lies between the middles of the
    number and its two neighbours. *)
Definition nearest (m : positive) (e : Z) (q : Q) : bool :=
  let v := dyadic (Z.pos m) e in
  let above := dyadic (Z.pos m + 1) e in
  let below :=
    if (m =? 2 ^ 52)%positive && (-1074 <? e)%Z
    then dyadic (2 * Z.pos m - 1) (e - 1)
    else dyadic (Z.pos m - 1) e in
  let lo := ((v + below) / 2)%Q in
  let hi := ((v + above) / 2)%Q in
  if Z.even (Z.pos m)
  then Qle_bool lo q && Qle_bool q hi
  else negb (Qle_bool q lo) && negb (Qle_bool hi q).

(** The number of decimal digits of a positive integer. *)
Definition digitCount (z : Z) : Z := Z.of_nat (length (intToString z)).

(** The [k] with [10^(k-1) <= v < 10^k], for [v > 0]: the number of
    digits of the integer part of [v], or for [v < 1] the zeros after
    the point, counted on [1 / v]. *)
Definition decimalExponent (v : Q) : Z :=
  if Qle_bool 1 v then digitCount (Qfloor v)
  else (1 - digitCount (Qceiling (/ v) - 1))%Z.

(** The digits [s], the exponent [k] and the number [n] of digits of
    Number::toString: the least [n] for which some [s * 10^(k-n)] of
    [n] digits has [m * 2^e] for its nearest number, and of those the
    [s] nearest to the value [v], the even one of two. *)
Fixpoint shortest (m : positive) (e : Z) (v : Q) (k : Z) (n : nat) (more : nat)
  : Z * Z * nat :=
  let unit := pow10 (k - Z.of_nat n) in
  let x := (v / unit)%Q in
  let a := Qfloor x in
  let b := Qceiling x in
  let fits s := nearest m e (inject_Z s * unit)%Q in
  let normal s := if (s =? 10 ^ Z.of_nat n)%Z then (1%Z, (k + 1)%Z, 1) else (s, k, n) in
  let da := (x - inject_Z a)%Q in
  let db := (inject_Z b - x)%Q in
  let nearer :=
    if Qle_bool da db && Qle_bool db da then (if Z.even a then a else b)
    else if Qle_bool da db then a else b in
  match more with
  | 0 => normal nearer
  | S more' =>
      if fits a && fits b then normal nearer
      else if fits a then normal a
      else if fits b then normal b
      else shortest m e v k (S n) more'
  end.

(** The [n] digits [s] with the exponent [k], as Number::toString
    writes them. *)
Definition writeDecimal (s k : Z) (n : nat) : jsstring :=
  let digits := intToString s in
  let exponent :=
    js (if (0 <=? k - 1)%Z then "+" else "-") ++ natToString (Z.abs_nat (k - 1)) in
  if (Z.of_nat n <=? k)%Z && (k <=? 21)%Z
  then digits ++ repeat 48%N (Z.to_nat k - n)
  else if (0 <? k)%Z && (k <=? 21)%Z
  then firstn (Z.to_nat k) digits ++ js "." ++ skipn (Z.to_nat k) digits
  else if (-6 <? k)%Z && (k <=? 0)%Z
  then js "0." ++ repeat 48%N (Z.to_nat (- k)) ++ digits
  else if n =? 1
  then digits ++ js "e" ++ exponent
  else firstn 1 digits ++ js "." ++ skipn 1 digits ++ js "e" ++ exponent.

(** Number::toString, as a template literal prints a number: at most
    seventeen digits tell a binary64 number from its neighbours. *)
Definition numberToString (x : float) : jsstring :=
  match Prim2SF x with
  | S754_nan => js "NaN"
  | S754_zero _ => js "0"
  | S754_infinity false => js "Infinity"
  | S754_infinity true => js "-Infinity"
  | S754_finite sign m e =>
      let v := dyadic (Z.pos m) e in
      let '(s, k, n) := shortest m e v (decimalExponent v) 1 16 in
      (if sign then js "-" else []) ++ writeDecimal s k n
  end.

(** *** Regular expressions of the source *)

(** [s.match(/a1|a2|.../g)]: the successive matches of an alternation of
    literals, the first alternative that fits being taken at each
    position; [skip] units of the last match are still to be passed. *)
Definition firstAlternative (alts : list jsstring) (s : jsstring) : option jsstring :=
  find (fun a => startsWith a s) alts.

Fixpoint matchAlternation (alts : list jsstring) (s : jsstring) (skip : nat)
  : list jsstring :=
  match s with
  | [] => []
  | _ :: s' =>
      match skip with
      | S k => matchAlternation alts s' k
      | O =>
          match firstAlternative alts s with
          | Some a => a :: matchAlternation alts s' (length a - 1)
          | None => matchAlternation alts s' 0
          end
      end
  end.

(** The two quotation marks, double and single, of the dialogue pattern. *)
Definition isQuote (c : N) : bool := N.eqb c 34 || N.eqb c 39.

(** Length of the shortest lazy run closed by a quotation mark at the
    head of [s]: units up to and with the first quotation mark, no line
    terminator before it. *)
Fixpoint lazyToQuote (s : jsstring) : option nat :=
  match s with
  | [] => None
  | c :: s' =>
      if isQuote c then Some 1
      else if isLineTerminator c then None
      else option_map S (lazyToQuote s')
  end.

(** The global match of the dialogue pattern (a quotation mark, a lazy
    run of [.], a quotation mark), each match given by its length. *)
Fixpoint matchQuoted (s : jsstring) (skip : nat) : list nat :=
  match s with
  | [] => []
  | c :: s' =>
      match skip with
      | S k => matchQuoted s' k
      | O =>
          if isQuote c then
            match lazyToQuote s' with
            | Some n => S n :: matchQuoted s' n
            | None => matchQuoted s' 0
            end
          else matchQuoted s' 0
      end
  end.

(** [s.match(/\b\w+\b/g)]: the maximal runs of word characters. *)
Fixpoint matchWordsAux (s cur : jsstring) : list jsstring :=
  match s with
  | [] => match cur with [] => [] | _ => [rev cur] end
  | c :: s' =>
      if isWordChar c then matchWordsAux s' (c :: cur)
      else match cur with
           | [] => matchWordsAux s' []
           | _ => rev cur :: matchWordsAux s' []
           end
  end.

Definition matchWords (s : jsstring) : list jsstring := matchWordsAux s [].

(** [w.replace(/[^\w]/, '')]: the first unit that is no word character
    is dropped. *)
Fixpoint dropFirstNonWord (w : jsstring) : jsstring :=
  match w with
  | [] => []
  | c :: w' => if isWordChar c then c :: dropFirstNonWord w' else w'
  end.

(** [w.replace(/[^\w]/g, '')] *)
Definition dropNonWord (w : jsstring) : jsstring := filter isWordChar w.

(** *** Regular expressions built at run time

    The source builds the pattern [\bWORD\b] from a word of the text and
    compiles it with the flag [i] (and [g]).  The fragment written out
    here is the one of a word without syntax characters, which matches
    itself between two word boundaries, case-insensitively.  A word whose
    only syntax characters are parentheses that do not balance is a
    pattern the constructor rejects.  For every other word the pattern
    is handed to the regular expressions of the language, [otherPattern]
    below. *)

Definition isSyntaxChar (c : N) : bool :=
  existsb (N.eqb c) [94; 36; 92; 46; 42; 43; 63; 40; 41; 91; 93; 123; 125; 124]%N.

Definition isParen (c : N) : bool := N.eqb c 40 || N.eqb c 41.

(** Parentheses balance: none closes at depth 0, none is left open. *)
Fixpoint parensBalanced (w : jsstring) (depth : nat) : bool :=
  match w with
  | [] => Nat.eqb depth 0
  | c :: w' =>
      if N.eqb c 40 then parensBalanced w' (S depth)
      else if N.eqb c 41 then
        match depth with
        | O => false
        | S d => parensBalanced w' d
        end
      else parensBalanced w' depth
  end.

(** Canonicalize of the flag [i] without the flag [u]. *)
Definition canonicalize (c : N) : N :=
  match upperUnit c with
  | [u] => if (128 <=? c)%N && (u <? 128)%N then c else u
  | _ => c
  end.

Fixpoint startsWithCI (p s : jsstring) : bool :=
  match p, s with
  | [], _ => true
  | _ :: _, [] => false
  | a :: p', b :: s' => N.eqb (canonicalize a) (canonicalize b) && startsWithCI p' s'
  end.

Definition wordAt (o : option N) : bool :=
  match o with
  | Some c => isWordChar c
  | None => false
  end.

(** [\b] between two neighbours, [None] being an end of the input. *)
Definition isBoundary (before after : option N) : bool :=
  xorb (wordAt before) (wordAt after).

(** The pattern of [body] matches at the head of [s], [prev] being the
    unit before it. *)
Definition matchHere (body : jsstring) (prev : option N) (s : jsstring) : bool :=
  isBoundary prev (hd_error s)
  && startsWithCI body s
  && isBoundary (nth_error s (length body - 1)) (nth_error s (length body)).

(** A match: its index and the text matched. *)
Definition regexMatch : Type := (nat * jsstring)%type.

(** The successive matches of the pattern of [body] in a text of which
    [s] is the part from index [i] on. *)
Fixpoint matchAllAux (body : jsstring) (prev : option N) (i skip : nat)
    (s : jsstring) : list regexMatch :=
  match s with
  | [] => []
  | c :: s' =>
      match skip with
      | S k => matchAllAux body (Some c) (S i) k s'
      | O =>
          if matchHere body prev s
          then (i, firstn (length body) s)
                 :: matchAllAux body (Some c) (S i) (length body - 1) s'
          else matchAllAux body (Some c) (S i) 0 s'
      end
  end.

(** [[...text.matchAll(regex)]] *)
Definition matchAll (body text : jsstring) : list regexMatch :=
  matchAllAux body None 0 0 text.

(** The regular expressions of the language outside the fragment.  For
    the word of a pattern [\bWORD\b] with the flag [i], [otherPattern]
    is [None] when the constructor throws a SyntaxError, and gives
    otherwise the successive matches of the pattern in a text, each with
    its index.  Nothing is assumed of it. *)
Class RegExp : Type :=
  otherPattern : jsstring -> option (jsstring -> list regexMatch).

(** The fragment alone: every pattern outside it is rejected. *)
Definition fragmentOnly : RegExp := fun _ => None.

Inductive compiled : Type :=
| WordPattern (body : jsstring)     (* the pattern of a literal word, flag i *)
| InvalidPattern                    (* the constructor throws a SyntaxError *)
| OtherPattern (exec : jsstring -> list regexMatch).  (* outside the fragment *)

(** [new RegExp(`\\b${word}\\b`, 'gi')], and the same with ['i']. *)
Definition RegExpWord {RE : RegExp} (word : jsstring) : compiled :=
  let other :=
    match otherPattern word with
    | Some exec => OtherPattern exec
    | None => InvalidPattern
    end in
  match word with
  | [] => other
  | _ =>
      if forallb (fun c => negb (isSyntaxChar c) && (c <? 256)%N) word
      then WordPattern word
      else if forallb (fun c => negb (isSyntaxChar c) || isParen c) word
              && negb (parensBalanced word 0)
      then InvalidPattern
      else other
  end.

(** [[...text.matchAll(regex)]], and [text.match(regex) || []] with the
    flag [g]; without it, [text.match(regex)] is the first of them. *)
Definition matchesIn (regex : compiled) (text : jsstring) : list regexMatch :=
  match regex with
  | WordPattern body => matchAll body text
  | InvalidPattern => []
  | OtherPattern exec => exec text
  end.

(** *** Objects used as counters

    [o[k] = (o[k] || 0) + 1] on an object literal.  A key that the object
    inherits from [Object.prototype] reads as a function, and the sum is
    a string; the key [__proto__] is never created. *)

Inductive tally : Type :=
| Count (n : nat)
| Junk.

Definition counter : Type := list (jsstring * tally).

Definition inheritedKeys : list jsstring :=
  map js ["constructor"; "hasOwnProperty"; "isPrototypeOf";
          "propertyIsEnumerable"; "toLocaleString"; "toString"; "valueOf";
          "__defineGetter__"; "__defineSetter__"; "__lookupGetter__";
          "__lookupSetter__"].

Definition bumpTally (t : tally) : tally :=
  match t with
  | Count n => Count (S n)
  | Junk => Junk
  end.

Fixpoint hasKey (k : jsstring) (o : counter) : bool :=
  match o with
  | [] => false
  | (k', _) :: o' => eqb k k' || hasKey k o'
  end.

Fixpoint bumpOwn (k : jsstring) (o : counter) : counter :=
  match o with
  | [] => []
  | (k', t) :: o' => if eqb k k' then (k', bumpTally t) :: o' else (k', t) :: bumpOwn k o'
  end.

Definition increment (o : counter) (k : jsstring) : counter :=
  if hasKey k o then bumpOwn k o
  else if eqb k (js "__proto__") then o
  else if existsb (eqb k) inheritedKeys then o ++ [(k, Junk)]
  else o ++ [(k, Count 1)].

(** The value of the own property [k] of [o], if there is one. *)
Fixpoint tallyOf (o : counter) (k : jsstring) : option tally :=
  match o with
  | [] => None
  | (k', t) :: o' => if eqb k k' then Some t else tallyOf o' k
  end.

(** How many elements of [l] are the string [w]. *)
Definition occurrencesIn (l : list jsstring) (w : jsstring) : nat :=
  length (filter (eqb w) l).

(** The property [k] of a counter that has been incremented at each key
    of [seen], in their order. *)
Definition tallyAfter (seen : list jsstring) (k : jsstring) : option tally :=
  if occurrencesIn seen k =? 0 then None
  else if eqb k (js "__proto__") then None
  else if existsb (eqb k) inheritedKeys then Some Junk
  else Some (Count (occurrencesIn seen k)).

(** Value of a string of decimal digits. *)
Fixpoint digitsValue (k : jsstring) (acc : N) : option N :=
  match k with
  | [] => Some acc
  | c :: k' => if inRange 48 57 c then digitsValue k' (acc * 10 + (c - 48))%N else None
  end.

(** An array index: a canonical numeric string below 2^32 - 1. *)
Definition arrayIndex (k : jsstring) : option N :=
  match k with
  | [] => None
  | [48%N] => Some 0%N
  | 48%N :: _ => None
  | _ =>
      match digitsValue k 0 with
      | Some v => if (v <? 4294967295)%N then Some v else None
      | None => None
      end
  end.

Fixpoint insertIndexed {A : Type} (x : N * A) (l : list (N * A)) : list (N * A) :=
  match l with
  | [] => [x]
  | y :: l' => if (fst x <? fst y)%N then x :: l else y :: insertIndexed x l'
  end.

Definition indexedEntries (o : counter) : list (N * (jsstring * tally)) :=
  fold_right
    (fun e acc => match arrayIndex (fst e) with
                  | Some i => insertIndexed (i, e) acc
                  | None => acc
                  end) [] o.

(** [Object.entries(o)]: array indices in ascending order, then the other
    keys in the order of their creation. *)
Definition entries (o : counter) : counter :=
  map snd (indexedEntries o)
  ++ filter (fun e => match arrayIndex (fst e) with Some _ => false | None => true end) o.

(** [.filter(([_, count]) => count > k).map(([w, count]) => ({w, count}))] *)
Fixpoint above (k : nat) (o : counter) : list (jsstring * nat) :=
  match o with
  | [] => []
  | (w, Count n) :: o' => if k <? n then (w, n) :: above k o' else above k o'
  | (_, Junk) :: o' => above k o'
  end.

(** [.sort((a, b) => b.count - a.count)], a stable sort. *)
Fixpoint insertByCount (x : jsstring * nat) (l : list (jsstring * nat))
  : list (jsstring * nat) :=
  match l with
  | [] => [x]
  | y :: l' => if snd x <? snd y then y :: insertByCount x l' else x :: l
  end.

Definition sortByCount (l : list (jsstring * nat)) : list (jsstring * nat) :=
  fold_right insertByCount [] l.

End Js.

(* ================================================================= *)
(** ** Outcomes of a call *)

Inductive exception : Type :=
| SyntaxError
| TypeError.

(** Where a computation stops short of an outcome of the code: the list
    of draws is used up. *)
Inductive limit : Type :=
| NoMoreDraws.

Inductive outcome (A : Type) : Type :=
| Return (a : A)
| Throw (e : exception)
| Stuck (l : limit).

Arguments Return {A} a.
Arguments Throw {A} e.
Arguments Stuck {A} l.

Definition bind {A B : Type} (c : outcome A) (k : A -> outcome B) : outcome B :=
  match c with
  | Return a => k a
  | Throw e => Throw e
  | Stuck l => Stuck l
  end.

Notation "x <- c ;; k" := (bind c (fun x => k))
  (at level 61, c at next level, right associativity).

(** [l.filter(p)] for a predicate that may throw. *)
Fixpoint filterM {A : Type} (p : A -> outcome bool) (l : list A) : outcome (list A) :=
  match l with
  | [] => Return []
  | x :: l' =>
      b <- p x ;;
      r <- filterM p l' ;;
      Return (if b then x :: r else r)
  end.

(* ================================================================= *)
(** ** [TextAnalyzer] (analyzer.ts) *)

Module TextAnalyzer.
Import Js.

Section WithRegExp.
Context {RE : RegExp}.

Inductive narrativePosition : Type :=
| MiddleDeveloping | BeginningIntroduction | ClimaxTurningPoint | ResolutionEnding.

Inductive pointOfView : Type :=
| FirstPerson | ThirdPerson | Unclear.

Inductive sceneKind : Type :=
| Mixed | Action | Dialogue | Exposition.

Inductive moodCategory : Type :=
| Neutral | Positive | Negative | Suspenseful.

Inductive needLevel : Type :=
| High | Medium | Low | NotApplicable.

Inductive severity : Type :=
| SevereHigh | SevereMedium | SevereLow.

(** The strings the source uses for these values. *)
Definition sceneKindName (k : sceneKind) : jsstring :=
  match k with
  | Mixed => js "mixed"
  | Action => js "action"
  | Dialogue => js "dialogue"
  | Exposition => js "exposition"
  end.

Definition pointOfViewName (p : pointOfView) : jsstring :=
  match p with
  | FirstPerson => js "first-person"
  | ThirdPerson => js "third-person"
  | Unclear => js "unclear"
  end.

Definition moodName (m : moodCategory) : jsstring :=
  match m with
  | Neutral => js "neutral"
  | Positive => js "positive"
  | Negative => js "negative"
  | Suspenseful => js "suspenseful"
  end.

Record NarrativePosition : Type := {
  position : narrativePosition;
  isIntroduction : bool;
  isClimax : bool;
  isResolution : bool
}.

Record PronounCounts : Type := {
  firstPerson : nat;
  secondPerson : nat;
  thirdPerson : nat
}.

Record CharacterFocus : Type := {
  potentialCharacters : list jsstring;
  pointOfViewOf : pointOfView;
  pronounDistribution : PronounCounts
}.

Record SceneType : Type := {
  dominantType : sceneKind;
  isAction : bool;
  isDialogue : bool;
  isExposition : bool;
  dialogueCount : nat;
  actionVerbCount : nat
}.

Record MoodAndTone : Type := {
  mood : moodCategory;
  hasPositiveElements : bool;
  hasNegativeElements : bool;
  hasSuspenseElements : bool
}.

Record ContextualAssessment : Type := {
  narrativePositionOf : NarrativePosition;
  characterFocus : CharacterFocus;
  sceneType : SceneType;
  moodAndTone : MoodAndTone
}.

Record GoldenShadowNeed : Type := {
  gsNeedLevel : needLevel;
  underdevelopedCharacters : list jsstring;
  hasUnderdevelopedPlotElements : bool
}.

Record EnvironmentalNeed : Type := {
  envNeedLevel : needLevel;
  sensoryRichness : nat;
  hasSufficientVisualDescriptions : bool;
  hasSufficientAuditoryDescriptions : bool;
  hasSufficientTactileDescriptions : bool;
  hasSufficientOlfactoryDescriptions : bool;
  hasSettingDescription : bool
}.

(** The three evidence fields exist only for an action scene. *)
Record ActionSceneNeed : Type := {
  actNeedLevel : needLevel;
  isActionScene : bool;
  hasTimeManipulation : bool;
  hasSensoryDetails : bool;
  hasEnvironmentalInteraction : bool
}.

Record ProseSmoothingNeed : Type := {
  proseNeedLevel : needLevel;
  averageSentenceLength : float;
  sentenceLengthVariety : float;
  hasTransitionWords : bool;
  hasVariedParagraphLength : bool
}.

Record RepetitionSeverity : Type := {
  severityOf : severity;
  repeatedWordCount : nat;
  topRepeatedWords : list (jsstring * nat)
}.

Record EnhancementEvaluation : Type := {
  needsGoldenShadow : GoldenShadowNeed;
  needsEnvironmentalExpansion : EnvironmentalNeed;
  needsActionSceneEnhancement : ActionSceneNeed;
  needsProseSmoothening : ProseSmoothingNeed;
  repetitionSeverity : RepetitionSeverity
}.

Record RepetitionPatterns : Type := {
  repeatedWords : list (jsstring * nat);
  repeatedPhrases : list (jsstring * nat);
  repeatedSentenceStructures : list (jsstring * nat)
}.

(** What [generateReport] prints. *)
Record Report : Type := {
  wordCount : nat;
  charCount : nat;
  contextualAssessment : ContextualAssessment;
  enhancementEvaluation : EnhancementEvaluation;
  repetitionPatterns : RepetitionPatterns
}.

(** [text.split(/\s+/).filter(word => word.length > 0).length] *)
Definition countWords (text : jsstring) : nat :=
  length (filter (fun word => 0 <? length word) (splitRuns isSpace text)).

Definition containsPatterns (text : jsstring) (patterns : list jsstring) : bool :=
  let lowerText := toLowerCase text in
  existsb (fun pattern => includes lowerText pattern) patterns.

Definition countOccurrences (text word : jsstring) : outcome nat :=
  match RegExpWord word with
  | InvalidPattern => Throw SyntaxError
  | regex => Return (length (matchesIn regex text))
  end.

Definition determineNarrativePosition (text : jsstring) : NarrativePosition :=
  let hasIntroductionMarkers := containsPatterns text
    (map js ["began"; "started"; "first time"; "introduction"; "met"; "once upon"]) in
  let hasClimaxMarkers := containsPatterns text
    (map js ["finally"; "suddenly"; "at last"; "climax"; "confrontation";
             "face to face"; "showdown"]) in
  let hasResolutionMarkers := containsPatterns text
    (map js ["ended"; "finished"; "resolved"; "conclusion"; "epilogue";
             "aftermath"; "settled"]) in
  let position := MiddleDeveloping in
  let position := if hasIntroductionMarkers then BeginningIntroduction else position in
  let position := if hasClimaxMarkers then ClimaxTurningPoint else position in
  let position := if hasResolutionMarkers then ResolutionEnding else position in
  {| position := position;
     isIntroduction := hasIntroductionMarkers;
     isClimax := hasClimaxMarkers;
     isResolution := hasResolutionMarkers |}.

(** The first unit of [word] is its own upper case and is in [A-Z]. *)
Definition startsUpperCase (word : jsstring) : bool :=
  match word with
  | [] => false
  | c :: _ => eqb [c] (toUpperCase [c]) && isUpperAZ c
  end.

Definition extractPotentialCharacterNames (text : jsstring) : list jsstring :=
  let words := splitRuns isSpace text in
  fold_left
    (fun potentialNames w =>
       let word := dropFirstNonWord w in
       if (0 <? length word) && startsUpperCase word
       then setAdd word potentialNames else potentialNames)
    (tl words) [].

Definition firstPersonPronouns : list jsstring :=
  map js ["I"; "me"; "my"; "mine"; "we"; "us"; "our"; "ours"].
Definition secondPersonPronouns : list jsstring :=
  map js ["you"; "your"; "yours"].
Definition thirdPersonPronouns : list jsstring :=
  map js ["he"; "him"; "his"; "she"; "her"; "hers"; "they"; "them"; "their"; "theirs"].

(** [pronouns.includes(word.replace(/[^\w]/g, ''))] *)
Definition isPronoun (pronouns : list jsstring) (word : jsstring) : bool :=
  existsb (eqb (dropNonWord word)) pronouns.

Definition countPronouns (text : jsstring) : PronounCounts :=
  let words := splitRuns isSpace (toLowerCase text) in
  {| firstPerson := length (filter (isPronoun firstPersonPronouns) words);
     secondPerson := length (filter (isPronoun secondPersonPronouns) words);
     thirdPerson := length (filter (isPronoun thirdPersonPronouns) words) |}.

Definition identifyCharacterFocus (text : jsstring) : CharacterFocus :=
  let potentialNames := extractPotentialCharacterNames text in
  let pronounCounts := countPronouns text in
  let firstPersonPOV := 0 <? firstPerson pronounCounts in
  let thirdPersonPOV := 0 <? thirdPerson pronounCounts in
  {| potentialCharacters := potentialNames;
     pointOfViewOf := if firstPersonPOV then FirstPerson
                      else if thirdPersonPOV then ThirdPerson else Unclear;
     pronounDistribution := pronounCounts |}.

Definition dialogueTagWords : list jsstring :=
  map js ["said"; "asked"; "replied"; "responded"; "shouted"; "whispered"].

Definition actionVerbWords : list jsstring :=
  map js ["ran"; "jumped"; "fought"; "grabbed"; "threw"; "dodged"; "attacked";
          "rushed"; "lunged"; "sprinted"; "dashed"].

Definition determineSceneType (text : jsstring) : SceneType :=
  let dialogueLines := length (matchQuoted text 0) in
  let dialogueTags := length (matchAlternation dialogueTagWords text 0) in
  let actionVerbs := length (matchAlternation actionVerbWords text 0) in
  let isActionScene := 5 <? actionVerbs in
  let isDialogueHeavy := (5 <? dialogueLines) || (5 <? dialogueTags) in
  let isExposition := negb isActionScene && negb isDialogueHeavy in
  let dominantType := Mixed in
  let dominantType := if isActionScene then Action else dominantType in
  let dominantType := if isDialogueHeavy then Dialogue else dominantType in
  let dominantType := if isExposition then Exposition else dominantType in
  {| dominantType := dominantType;
     isAction := isActionScene;
     isDialogue := isDialogueHeavy;
     isExposition := isExposition;
     dialogueCount := dialogueLines;
     actionVerbCount := actionVerbs |}.

Definition analyzeMoodAndTone (text : jsstring) : MoodAndTone :=
  let positiveWords := containsPatterns text
    (map js ["happy"; "joy"; "love"; "peace"; "hope"; "exciting"; "beautiful"; "pleased"]) in
  let negativeWords := containsPatterns text
    (map js ["sad"; "fear"; "anger"; "hate"; "despair"; "darkness"; "tragic"; "grim"]) in
  let suspenseWords := containsPatterns text
    (map js ["mysterious"; "suspense"; "tension"; "anxious"; "uncertain"; "danger"; "threat"]) in
  let moodCategory := Neutral in
  let moodCategory := if positiveWords then Positive else moodCategory in
  let moodCategory := if negativeWords then Negative else moodCategory in
  let moodCategory := if suspenseWords then Suspenseful else moodCategory in
  {| mood := moodCategory;
     hasPositiveElements := positiveWords;
     hasNegativeElements := negativeWords;
     hasSuspenseElements := suspenseWords |}.

(** The separators of [/[.!?]+/]. *)
Definition isSentenceEnd (c : N) : bool := N.eqb c 46 || N.eqb c 33 || N.eqb c 63.

(** [text.split(/[.!?]+/).filter(s => s.trim().length > 0)] *)
Definition sentencesOf (text : jsstring) : list jsstring :=
  filter hasNonSpace (splitRuns isSentenceEnd text).

Definition plotIndicators : list jsstring :=
  map js ["remembered"; "realized"; "discovered"; "decided"; "planned";
          "secret"; "mission"; "quest"; "journey"; "task"; "mystery"].

Definition extractPotentialPlotElements (text : jsstring) : list jsstring :=
  let sentences := sentencesOf text in
  let potentialElements :=
    filter (fun sentence =>
              existsb (fun indicator => includes (toLowerCase sentence) indicator)
                      plotIndicators) sentences in
  map trim potentialElements.

Definition evaluateGoldenShadowNeed (text : jsstring) : outcome GoldenShadowNeed :=
  let characterNames := extractPotentialCharacterNames text in
  underdevelopedCharacters <-
    filterM (fun name => n <- countOccurrences text name ;; Return (n <=? 2))
            characterNames ;;
  let plotElements := extractPotentialPlotElements text in
  let underdevelopedPlotElements := 0 <? length plotElements in
  let needLevel :=
    if (0 <? length underdevelopedCharacters) || underdevelopedPlotElements
    then High else Low in
  Return {| gsNeedLevel := needLevel;
            underdevelopedCharacters := underdevelopedCharacters;
            hasUnderdevelopedPlotElements := underdevelopedPlotElements |}.

Definition settingWords : list jsstring :=
  map js ["room"; "building"; "house"; "landscape"; "forest"; "city"; "street";
          "sky"; "mountain"].

Definition evaluateEnvironmentalExpansionNeed (text : jsstring) : EnvironmentalNeed :=
  let visualDescriptions := containsPatterns text
    (map js ["looked"; "saw"; "appeared"; "watched"; "color"; "bright"; "dark"; "shape"]) in
  let auditoryDescriptions := containsPatterns text
    (map js ["heard"; "sound"; "noise"; "listen"; "whisper"; "quiet"; "loud"; "silence"]) in
  let tactileDescriptions := containsPatterns text
    (map js ["felt"; "touch"; "rough"; "smooth"; "texture"; "warm"; "cold"; "soft"; "hard"]) in
  let olfactoryDescriptions := containsPatterns text
    (map js ["smell"; "scent"; "aroma"; "odor"; "fragrance"; "stench"]) in
  let sensoryRichness :=
    length (filter (fun b : bool => b)
              [visualDescriptions; auditoryDescriptions; tactileDescriptions;
               olfactoryDescriptions]) in
  let hasSettingDescription := containsPatterns text settingWords in
  let needLevel :=
    if (sensoryRichness <? 3) || negb hasSettingDescription then High else Low in
  {| envNeedLevel := needLevel;
     sensoryRichness := sensoryRichness;
     hasSufficientVisualDescriptions := visualDescriptions;
     hasSufficientAuditoryDescriptions := auditoryDescriptions;
     hasSufficientTactileDescriptions := tactileDescriptions;
     hasSufficientOlfactoryDescriptions := olfactoryDescriptions;
     hasSettingDescription := hasSettingDescription |}.

Definition evaluateActionSceneNeed (text : jsstring) : ActionSceneNeed :=
  let sceneType := determineSceneType text in
  if negb (isAction sceneType) then
    {| actNeedLevel := NotApplicable;
       isActionScene := false;
       hasTimeManipulation := false;
       hasSensoryDetails := false;
       hasEnvironmentalInteraction := false |}
  else
    let hasTimeManipulation := containsPatterns text
      (map js ["slow"; "quickly"; "moment"; "instant"; "suddenly"; "time seemed"; "freeze"]) in
    let hasSensoryDetails := containsPatterns text
      (map js ["felt"; "heard"; "saw"; "smell"; "taste"; "pain"; "heart pounding"]) in
    let hasEnvironmentalInteraction := containsPatterns text
      (map js ["against the"; "through the"; "over the"; "under the"; "from the"]) in
    let needLevel :=
      if negb hasTimeManipulation || negb hasSensoryDetails
         || negb hasEnvironmentalInteraction
      then High else Medium in
    {| actNeedLevel := needLevel;
       isActionScene := true;
       hasTimeManipulation := hasTimeManipulation;
       hasSensoryDetails := hasSensoryDetails;
       hasEnvironmentalInteraction := hasEnvironmentalInteraction |}.

Definition transitionWords : list jsstring :=
  map js ["however"; "therefore"; "furthermore"; "additionally"; "consequently";
          "meanwhile"].

Definition evaluateProseSmoothingNeed (text : jsstring) : ProseSmoothingNeed :=
  let sentences := sentencesOf text in
  let sentenceLengths := map (fun s => length (splitRuns isSpace s)) sentences in
  let averageLength :=
    PrimFloat.div (num (fold_left (fun sum len => sum + len) sentenceLengths 0))
                  (num (length sentenceLengths)) in
  let sentenceLengthVariety :=
    PrimFloat.div (num (distinctCount sentenceLengths))
                  (num (length sentenceLengths)) in
  let hasTransitionWords := containsPatterns text transitionWords in
  let paragraphs := filter hasNonSpace (splitRuns (N.eqb nl) text) in
  let hasVariedParagraphLength :=
    1 <? distinctCount (map (fun p => length p) paragraphs) in
  let needLevel :=
    if PrimFloat.ltb sentenceLengthVariety 0x1.3333333333333p-2%float
       || negb hasTransitionWords || negb hasVariedParagraphLength
    then High else Low in
  {| proseNeedLevel := needLevel;
     averageSentenceLength := averageLength;
     sentenceLengthVariety := sentenceLengthVariety;
     hasTransitionWords := hasTransitionWords;
     hasVariedParagraphLength := hasVariedParagraphLength |}.

(** The frequency table of the words longer than 3 letters. *)
Definition wordFrequencyOf (text : jsstring) : counter :=
  let words := matchWords (toLowerCase text) in
  fold_left
    (fun wordFrequency word =>
       if 3 <? length word then increment wordFrequency word else wordFrequency)
    words [].

Definition evaluateRepetitionSeverity (text : jsstring) : RepetitionSeverity :=
  let wordFrequency := wordFrequencyOf text in
  let repeatedWords := above 3 (entries wordFrequency) in
  let repetitionSeverity :=
    if 5 <? length repeatedWords then SevereHigh
    else if 2 <? length repeatedWords then SevereMedium else SevereLow in
  {| severityOf := repetitionSeverity;
     repeatedWordCount := length repeatedWords;
     topRepeatedWords := firstn 5 (sortByCount repeatedWords) |}.

(** How many times the word [w] occurs in [text], whatever its case. *)
Definition wordOccurrences (text w : jsstring) : nat :=
  occurrencesIn (matchWords (toLowerCase text)) w.

Definition findRepeatedWords (text : jsstring) : list (jsstring * nat) :=
  let wordFrequency := wordFrequencyOf text in
  firstn 10 (sortByCount (above 2 (entries wordFrequency))).

(** The windows [words.slice(i, i + 3)] for [i < words.length - 2]. *)
Fixpoint windows3 (words : list jsstring) : list (list jsstring) :=
  match words with
  | a :: words' =>
      match words' with
      | b :: c :: _ => [a; b; c] :: windows3 words'
      | _ => []
      end
  | [] => []
  end.

Definition findRepeatedPhrases (text : jsstring) : list (jsstring * nat) :=
  let words := splitRuns isSpace text in
  let phrases :=
    fold_left
      (fun phrases w => increment phrases (toLowerCase (join (js " ") w)))
      (windows3 words) [] in
  firstn 5 (sortByCount (above 1 (entries phrases))).

Definition findRepeatedSentenceStructures (text : jsstring) : list (jsstring * nat) :=
  let sentences := sentencesOf text in
  let patterns :=
    fold_left
      (fun patterns sentence =>
         let firstWord := toLowerCase (hd [] (splitRuns isSpace (trim sentence))) in
         let lengthCategory :=
           if length (splitRuns isSpace sentence) <? 8 then js "short"
           else if length (splitRuns isSpace sentence) <? 15 then js "medium"
           else js "long" in
         increment patterns (firstWord ++ js "-" ++ lengthCategory))
      sentences [] in
  firstn 3 (sortByCount (above 2 (entries patterns))).

Definition performContextualAssessment (text : jsstring) : ContextualAssessment :=
  {| narrativePositionOf := determineNarrativePosition text;
     characterFocus := identifyCharacterFocus text;
     sceneType := determineSceneType text;
     moodAndTone := analyzeMoodAndTone text |}.

Definition performEnhancementEvaluation (text : jsstring)
  : outcome EnhancementEvaluation :=
  needsGoldenShadow <- evaluateGoldenShadowNeed text ;;
  Return {| needsGoldenShadow := needsGoldenShadow;
            needsEnvironmentalExpansion := evaluateEnvironmentalExpansionNeed text;
            needsActionSceneEnhancement := evaluateActionSceneNeed text;
            needsProseSmoothening := evaluateProseSmoothingNeed text;
            repetitionSeverity := evaluateRepetitionSeverity text |}.

Definition identifyRepetitionPatterns (text : jsstring) : RepetitionPatterns :=
  {| repeatedWords := findRepeatedWords text;
     repeatedPhrases := findRepeatedPhrases text;
     repeatedSentenceStructures := findRepeatedSentenceStructures text |}.

(** [analyzeText] up to the rendering of the report: the value returned
    holds what [generateReport] interpolates into its template. *)
Definition analyzeText (text : jsstring) : outcome Report :=
  let wordCount := countWords text in
  let charCount := length text in
  let contextualAssessment := performContextualAssessment text in
  enhancementEvaluation <- performEnhancementEvaluation text ;;
  let repetitionPatterns := identifyRepetitionPatterns text in
  Return {| wordCount := wordCount;
            charCount := charCount;
            contextualAssessment := contextualAssessment;
            enhancementEvaluation := enhancementEvaluation;
            repetitionPatterns := repetitionPatterns |}.

End WithRegExp.

End TextAnalyzer.

(* ================================================================= *)
(** ** Computations that draw random numbers *)

(** A computation of the enhancer reads the draws of [Math.random()]
    from a list and hands back the draws it did not use. *)
Definition rand (A : Type) : Type := list Q -> outcome (A * list Q).

Definition ret {A : Type} (a : A) : rand A := fun draws => Return (a, draws).

Definition bindR {A B : Type} (c : rand A) (k : A -> rand B) : rand B :=
  fun draws =>
    match c draws with
    | Return (a, rest) => k a rest
    | Throw e => Throw e
    | Stuck l => Stuck l
    end.

Definition lift {A : Type} (c : outcome A) : rand A :=
  fun draws =>
    match c with
    | Return a => Return (a, draws)
    | Throw e => Throw e
    | Stuck l => Stuck l
    end.

Definition raise {A : Type} (e : exception) : rand A := fun _ => Throw e.

Definition Math_random : rand Q :=
  fun draws =>
    match draws with
    | [] => Stuck NoMoreDraws
    | r :: rest => Return (r, rest)
    end.

Notation "x <~ c ;; k" := (bindR c (fun x => k))
  (at level 61, c at next level, right associativity).

(** [for (const x of l) { acc = f(acc, x) }] *)
Fixpoint foldR {A B : Type} (f : B -> A -> rand B) (l : list A) (acc : B) : rand B :=
  match l with
  | [] => ret acc
  | x :: l' => acc' <~ f acc x ;; foldR f l' acc'
  end.

(** A draw of [Math.random()] is in the interval from 0 to 1, 1 left out. *)
Definition inUnit (r : Q) : Prop := (0 <= r)%Q /\ (r < 1)%Q.

(** A call that returns, or that waits for a draw more than the list
    holds: it does not raise. *)
Definition settles {A : Type} (o : outcome A) : Prop :=
  match o with
  | Return _ => True
  | Stuck NoMoreDraws => True
  | _ => False
  end.

(** [Math.random() > 0.5] *)
Definition aboveHalf (r : Q) : bool := negb (Qle_bool r (1 # 2)).

(** [Math.floor(Math.random() * n)] *)
Definition randomIndex (r : Q) (n : nat) : Z := Qfloor (r * inject_Z (Z.of_nat n)).

(** [l[i]] for a number [i]; [None] stands for [undefined]. *)
Definition element {A : Type} (l : list A) (i : Z) : option A :=
  if (i <? 0)%Z then None else nth_error l (Z.to_nat i).

(* ================================================================= *)
(** ** [EnhancementProcessor] (enhancer.ts) *)

Module EnhancementProcessor.
Import Js TextAnalyzer.

Section WithRegExp.
Context {RE : RegExp}.

Record EnhancementOptions : Type := {
  enableGoldenShadow : bool;
  enableEnvironmental : bool;
  enableActionScene : bool;
  enableProseSmoother : bool;
  enableRepetitionElimination : bool
}.

(** The paragraph separator of [split('\n\n')] and [join('\n\n')]. *)
Definition paragraphBreak : jsstring := [nl; nl].

Definition characterAddition (character : jsstring) : jsstring :=
  js " " ++ character ++ js "'s expression betrayed a hint of the complex emotions beneath the surface. There was history there, untold stories written in the subtle lines around the eyes and the particular way they held their shoulders.".

Definition plotAddition : jsstring :=
  js "The implications of recent events weighed heavily, connections forming between seemingly disparate threads. There was more at stake than initially apparent, layers of meaning and consequence that stretched beyond the immediate moment. What might have seemed a small decision now cast a longer shadow, its significance magnified by context and circumstance.".

(** One underdeveloped character of the loop of [applyGoldenShadowEnhancement]. *)
Definition developCharacter (enhancedText character : jsstring) : outcome jsstring :=
  match RegExpWord character with
  | InvalidPattern => Throw SyntaxError
  | regex =>
      match matchesIn regex enhancedText with
      | (index, _) :: _ =>
          let paragraphEnd := indexOf enhancedText [nl] index in
          let insertPosition :=
            match paragraphEnd with
            | Some p => p
            | None => length enhancedText
            end in
          Return (slice enhancedText 0 insertPosition
                  ++ characterAddition character
                  ++ sliceFrom enhancedText insertPosition)
      | [] => Return enhancedText
      end
  end.

Fixpoint developCharacters (enhancedText : jsstring) (characters : list jsstring)
  : outcome jsstring :=
  match characters with
  | [] => Return enhancedText
  | character :: rest =>
      enhancedText' <- developCharacter enhancedText character ;;
      developCharacters enhancedText' rest
  end.

Definition applyGoldenShadowEnhancement (text : jsstring)
    (expansionTarget : float) (currentWordCount : nat)
    (targetWordCount : roundedNumber)
  : outcome jsstring :=
  let assessment := performContextualAssessment text in
  enhancementEval <- performEnhancementEvaluation text ;;
  let underdevelopedCharacters :=
    underdevelopedCharacters (needsGoldenShadow enhancementEval) in
  let hasUnderdevelopedPlotElements :=
    hasUnderdevelopedPlotElements (needsGoldenShadow enhancementEval) in
  enhancedText <- developCharacters text underdevelopedCharacters ;;
  if hasUnderdevelopedPlotElements then
    let paragraphs := splitOn paragraphBreak enhancedText in
    let insertIndex := Nat.min 2 (length paragraphs) in
    Return (join paragraphBreak (spliceIn paragraphs insertIndex plotAddition))
  else Return enhancedText.

Definition settingKeywords : list jsstring :=
  map js ["room"; "building"; "house"; "landscape"; "forest"; "city"; "street";
          "sky"; "mountain"; "field"; "beach"; "ocean"; "river"; "lake"].

(** Index of the first element that satisfies [p], counted from [i]. *)
Fixpoint findIndexFrom {A : Type} (p : A -> bool) (l : list A) (i : nat) : option nat :=
  match l with
  | [] => None
  | x :: l' => if p x then Some i else findIndexFrom p l' (S i)
  end.

Definition visualAddition : jsstring :=
  js "The light filtered through in muted beams, casting long shadows across the space and highlighting dust motes that danced in perpetual, aimless motion. Colors shifted subtly with each passing cloud, from warm amber to cool silver.".

Definition auditoryAddition : jsstring :=
  js " The ambient sounds formed a textured backdrop—distant conversations merging with closer movements, occasional laughter punctuating the steady rhythm of existence. Somewhere, barely perceptible, a faint mechanical hum provided continuity.".

Definition tactileAddition : jsstring :=
  js " The air carried a distinct weight and temperature, cool against exposed skin but not uncomfortable. Surfaces presented a contrast of textures—smooth here, rough there, with unexpected variations that registered subtly against fingertips.".

Definition olfactoryAddition : jsstring :=
  js " Scents layered themselves in complex patterns: the sharp freshness of recently disturbed greenery, underlying notes of dampness from recent rain, and traces of something indefinable but distinctly organic.".

Definition objectParagraph : jsstring :=
  js "A single, unremarkable object stood witness to it all—an old timepiece resting on the nearest surface. Its brass casing had developed a patina that spoke of countless hands and years of existence. The once-precise mechanism now ticked with a slight arrhythmia, each sound a miniature testament to entropy's patient work. Small scratches mapped an unknown history across its face, while fingerprints both fresh and ancient layered its surface with human testimony.".

(** [split] never returns an empty array, so that the index chosen below
    is an index of [paragraphs]. *)
Definition applyEnvironmentalExpansion (text : jsstring)
    (expansionTarget : float) (currentWordCount : nat)
    (targetWordCount : roundedNumber)
  : outcome jsstring :=
  enhancementEval <- performEnhancementEvaluation text ;;
  let environmentalNeeds := needsEnvironmentalExpansion enhancementEval in
  let enhancedText := text in
  if negb (hasSettingDescription environmentalNeeds)
     || (sensoryRichness environmentalNeeds <? 3)
  then
    let paragraphs := splitOn paragraphBreak enhancedText in
    let settingParagraphIndex :=
      match findIndexFrom
              (fun p => existsb (fun keyword => includes (toLowerCase p) keyword)
                                settingKeywords) paragraphs 0 with
      | Some i => i
      | None => Nat.min 1 (length paragraphs - 1)
      end in
    let environmentalAddition := [] in
    let environmentalAddition :=
      if negb (hasSufficientVisualDescriptions environmentalNeeds)
      then environmentalAddition ++ visualAddition else environmentalAddition in
    let environmentalAddition :=
      if negb (hasSufficientAuditoryDescriptions environmentalNeeds)
      then environmentalAddition ++ auditoryAddition else environmentalAddition in
    let environmentalAddition :=
      if negb (hasSufficientTactileDescriptions environmentalNeeds)
      then environmentalAddition ++ tactileAddition else environmentalAddition in
    let environmentalAddition :=
      if negb (hasSufficientOlfactoryDescriptions environmentalNeeds)
      then environmentalAddition ++ olfactoryAddition else environmentalAddition in
    let paragraphs :=
      updateAt paragraphs settingParagraphIndex (fun p => p ++ environmentalAddition) in
    let paragraphs := spliceIn paragraphs (settingParagraphIndex + 1) objectParagraph in
    Return (join paragraphBreak paragraphs)
  else Return enhancedText.

Definition timeAddition : jsstring :=
  js " Time seemed to slow, each second stretching into an eternity of hyperclarity where every detail registered with impossible precision. The moment hung suspended in a bubble of heightened awareness.".

Definition sensesAddition : jsstring :=
  js " A surge of adrenaline sharpened every sense—the thundering heartbeat drowning out all but the most immediate sounds, the metallic taste of fear coating the tongue, muscles burning with the strain of movement pushed beyond normal limits.".

Definition interactionAddition : jsstring :=
  js " The environment itself became both obstacle and weapon, surfaces transforming into tactical elements to be used or avoided. Each interaction with the surroundings sent cascades of secondary effects rippling outward—dust clouds rising from impact, objects clattering aside, surfaces trembling under sudden force.".

Definition stillnessAddition : jsstring :=
  js " Then, briefly, a moment of perfect stillness—a single heartbeat of absolute clarity before motion erupted again with renewed intensity.".

Definition isActionParagraph (paragraph : jsstring) : bool :=
  existsb (fun verb => includes (toLowerCase paragraph) verb) actionVerbWords.

(** The body of the loop over the action paragraphs. *)
Definition intensify (actionSceneNeeds : ActionSceneNeed) (paragraph : jsstring)
  : rand jsstring :=
  let paragraph :=
    if negb (hasTimeManipulation actionSceneNeeds)
    then paragraph ++ timeAddition else paragraph in
  let paragraph :=
    if negb (hasSensoryDetails actionSceneNeeds)
    then paragraph ++ sensesAddition else paragraph in
  let paragraph :=
    if negb (hasEnvironmentalInteraction actionSceneNeeds)
    then paragraph ++ interactionAddition else paragraph in
  r <~ Math_random ;;
  ret (if aboveHalf r then paragraph ++ stillnessAddition else paragraph).

(** The loop over [actionParagraphIndices], which are in ascending order:
    the paragraphs are visited in order, the action paragraphs rewritten. *)
Fixpoint intensifyAll (actionSceneNeeds : ActionSceneNeed) (paragraphs : list jsstring)
  : rand (list jsstring) :=
  match paragraphs with
  | [] => ret []
  | paragraph :: rest =>
      paragraph' <~ (if isActionParagraph paragraph
                     then intensify actionSceneNeeds paragraph
                     else ret paragraph) ;;
      rest' <~ intensifyAll actionSceneNeeds rest ;;
      ret (paragraph' :: rest')
  end.

Definition applyActionSceneEnhancement (text : jsstring)
    (expansionTarget : float) (currentWordCount : nat)
    (targetWordCount : roundedNumber)
  : rand jsstring :=
  enhancementEval <~ lift (performEnhancementEvaluation text) ;;
  let actionSceneNeeds := needsActionSceneEnhancement enhancementEval in
  if negb (isActionScene actionSceneNeeds) then ret text
  else
    let enhancedText := text in
    let paragraphs := splitOn paragraphBreak enhancedText in
    if existsb isActionParagraph paragraphs then
      paragraphs' <~ intensifyAll actionSceneNeeds paragraphs ;;
      ret (join paragraphBreak paragraphs')
    else ret enhancedText.

Definition transitions : list jsstring :=
  map js ["Meanwhile, "; "Furthermore, "; "In contrast, "; "Additionally, ";
          "Nevertheless, "; "Consequently, "; "Despite this, "; "Indeed, ";
          "Even so, "; "Simultaneously, "].

(** A value interpolated or concatenated into a string. *)
Definition orUndefined (o : option jsstring) : jsstring :=
  match o with
  | Some s => s
  | None => js "undefined"
  end.

(** The loop over the paragraphs after the first: two draws for each. *)
Fixpoint smoothAll (paragraphs : list jsstring) : rand (list jsstring) :=
  match paragraphs with
  | [] => ret []
  | paragraph :: rest =>
      r1 <~ Math_random ;;
      let randomTransition :=
        orUndefined (element transitions (randomIndex r1 (length transitions))) in
      r2 <~ Math_random ;;
      let paragraph' :=
        if aboveHalf r2 then randomTransition ++ paragraph else paragraph in
      rest' <~ smoothAll rest ;;
      ret (paragraph' :: rest')
  end.

Definition applyProseSmoothening (text : jsstring) : rand jsstring :=
  enhancementEval <~ lift (performEnhancementEvaluation text) ;;
  let proseSmoothingNeeds := needsProseSmoothening enhancementEval in
  let enhancedText := text in
  if negb (hasTransitionWords proseSmoothingNeeds) then
    let paragraphs := splitOn paragraphBreak enhancedText in
    match paragraphs with
    | [] => ret (join paragraphBreak paragraphs)
    | first :: others =>
        others' <~ smoothAll others ;;
        ret (join paragraphBreak (first :: others'))
    end
  else ret enhancedText.

Definition wordReplacements : list (jsstring * list jsstring) :=
  [ (js "looked", map js ["gazed"; "glanced"; "observed"; "stared"; "watched"; "eyed"; "examined"]);
    (js "walked", map js ["strode"; "ambled"; "moved"; "stepped"; "paced"; "proceeded"; "advanced"]);
    (js "said", map js ["remarked"; "stated"; "explained"; "noted"; "commented"; "expressed"; "declared"]);
    (js "felt", map js ["experienced"; "sensed"; "perceived"; "noticed"; "recognized"; "registered"]);
    (js "saw", map js ["noticed"; "spotted"; "observed"; "caught sight of"; "glimpsed"; "discerned"]);
    (js "went", map js ["proceeded"; "moved"; "traveled"; "journeyed"; "progressed"; "headed"]);
    (js "thought", map js ["considered"; "reflected"; "contemplated"; "pondered"; "mused"; "supposed"]);
    (js "knew", map js ["understood"; "recognized"; "realized"; "comprehended"; "acknowledged"]);
    (js "heard", map js ["detected"; "caught"; "discerned"; "distinguished"; "perceived"]);
    (js "face", map js ["countenance"; "visage"; "features"; "expression"; "aspect"]) ].

(** [wordReplacements[word]] for a word that [findRepeatedWords] reports,
    which is never a key inherited from [Object.prototype]. *)
Definition lookupReplacements (word : jsstring) : option (list jsstring) :=
  option_map snd (find (fun e => eqb word (fst e)) wordReplacements).

(** [Math.ceil(matches.length * 0.6)].  The product is taken exactly;
    [replaceCount_binary64] below compares it with the binary64 one. *)
Definition replaceCountOf (n : nat) : Z := Qceiling (inject_Z (Z.of_nat n) * (6 # 10)).

(** The same number computed as the source does, in binary64. *)
Definition replaceCountBinary64 (n : nat) : roundedNumber :=
  Math_ceil (PrimFloat.mul (num n) 0x1.3333333333333p-1%float).

(** The loop that picks the occurrences to replace: one draw for each
    turn, until enough distinct indices are in the set. *)
Fixpoint pickIndices (replaceCount : Z) (len : nat) (indicesToReplace : list Z)
    (draws : list Q) : outcome (list Z * list Q) :=
  if (Z.of_nat (length indicesToReplace) <? replaceCount)%Z
     && (length indicesToReplace <? len)
  then
    match draws with
    | [] => Stuck NoMoreDraws
    | r :: rest =>
        pickIndices replaceCount len (setAddZ (randomIndex r len) indicesToReplace) rest
    end
  else Return (indicesToReplace, draws).

(** [[...indicesToReplace].sort((a, b) => b - a)] *)
Fixpoint insertDescending (x : Z) (l : list Z) : list Z :=
  match l with
  | [] => [x]
  | y :: l' => if (x <? y)%Z then y :: insertDescending x l' else x :: l
  end.

Definition sortDescending (l : list Z) : list Z := fold_right insertDescending [] l.

(** What the stage did, kept beside the text it returns: one record for
    each occurrence rewritten, grouped by the flagged word, with the text
    as it was when the word was taken up and the number of occurrences of
    the word found in it. *)
Record Replacement : Type := {
  offset : nat;
  original : jsstring;
  substitute : jsstring
}.

Record Batch : Type := {
  flagged : jsstring;
  before : jsstring;
  occurrences : nat;
  replaced : list Replacement
}.

(** [replacement.charAt(0).toUpperCase() + replacement.slice(1)] *)
Definition capitalize (replacement : jsstring) : jsstring :=
  toUpperCase (firstn 1 replacement) ++ skipn 1 replacement.

(** [c === c.toUpperCase()] for the first unit of a string. *)
Definition isOwnUpperCase (c : N) : bool := eqb [c] (toUpperCase [c]).

(** The body of the loop over [sortedIndices]. *)
Definition replaceOccurrence (replacements : list jsstring) (matches : list regexMatch)
    (state : jsstring * list Replacement) (index : Z)
  : rand (jsstring * list Replacement) :=
  let enhancedText := fst state in
  match element matches index with
  | None => raise TypeError
  | Some (matchIndex, matchedText) =>
      r <~ Math_random ;;
      let replacementWord :=
        element replacements (randomIndex r (length replacements)) in
      match matchedText with
      | [] => raise TypeError
      | c :: _ =>
          replacement <~
            (if isOwnUpperCase c then
               match replacementWord with
               | Some w => ret (capitalize w)
               | None => raise TypeError
               end
             else ret (orUndefined replacementWord)) ;;
          ret (slice enhancedText 0 matchIndex
                 ++ replacement
                 ++ sliceFrom enhancedText (matchIndex + length matchedText),
               snd state ++ [{| offset := matchIndex;
                                original := matchedText;
                                substitute := replacement |}])
      end
  end.

(** The body of the loop over the repeated words. *)
Definition eliminateWord (state : jsstring * list Batch) (repeatedWord : jsstring * nat)
  : rand (jsstring * list Batch) :=
  let enhancedText := fst state in
  let word := toLowerCase (fst repeatedWord) in
  match (if length word <=? 4 then None else lookupReplacements word) with
  | None => ret state
  | Some replacements =>
      match RegExpWord word with
      | InvalidPattern => raise SyntaxError
      | regex =>
          let matches := matchesIn regex enhancedText in
          let replaceCount := replaceCountOf (length matches) in
          indicesToReplace <~ pickIndices replaceCount (length matches) [] ;;
          let sortedIndices := sortDescending indicesToReplace in
          result <~ foldR (replaceOccurrence replacements matches) sortedIndices
                          (enhancedText, []) ;;
          ret (fst result,
               snd state ++ [{| flagged := word;
                                before := enhancedText;
                                occurrences := length matches;
                                replaced := snd result |}])
      end
  end.

(** Number of occurrences rewritten in all. *)
Definition replacedCount (log : list Batch) : nat :=
  fold_right (fun b n => length (replaced b) + n) 0 log.

(** The first unit of a string is its own upper case. *)
Definition firstIsUpper (s : jsstring) : bool :=
  match s with
  | c :: _ => isOwnUpperCase c
  | [] => false
  end.

(** What is asked of the replacements of one flagged word: the word has
    five letters or more, its occurrences are those of the text it is
    replaced in, at most the ceiling of 60% of them are replaced, each of
    them the word itself up to the case of its letters, by a text of the
    same capitalisation of its first letter. *)
Definition disciplined (b : Batch) : Prop :=
  5 <= length (flagged b)
  /\ occurrences b = length (matchAll (flagged b) (before b))
  /\ (Z.of_nat (length (replaced b))
      <= Qceiling (inject_Z (Z.of_nat (occurrences b)) * (6 # 10)))%Z
  /\ length (replaced b) <= occurrences b
  /\ Forall (fun r => length (original r) = length (flagged b)
                      /\ startsWithCI (flagged b) (original r) = true
                      /\ firstIsUpper (substitute r) = firstIsUpper (original r))
            (replaced b).

(** [applyRepetitionElimination] with the record of what it replaced. *)
Definition applyRepetitionEliminationLogged (text : jsstring)
  : rand (jsstring * list Batch) :=
  let repetitionPatterns := identifyRepetitionPatterns text in
  if 0 <? length (repeatedWords repetitionPatterns) then
    foldR eliminateWord (repeatedWords repetitionPatterns) (text, [])
  else ret (text, []).

Definition applyRepetitionElimination (text : jsstring) : rand jsstring :=
  result <~ applyRepetitionEliminationLogged text ;;
  ret (fst result).

(** [Math.round((final / original) * 100)] *)
Definition expansionPercent (final original : nat) : roundedNumber :=
  Math_round (PrimFloat.mul (PrimFloat.div (num final) (num original)) (num 100)).

Definition techniquesUsed (options : EnhancementOptions) : list jsstring :=
  let techniquesUsed := [] in
  let techniquesUsed :=
    if enableGoldenShadow options
    then techniquesUsed ++ [js "Golden Shadow Enhancement"] else techniquesUsed in
  let techniquesUsed :=
    if enableEnvironmental options
    then techniquesUsed ++ [js "Environmental Expansion"] else techniquesUsed in
  let techniquesUsed :=
    if enableActionScene options
    then techniquesUsed ++ [js "Action Scene Enhancement"] else techniquesUsed in
  let techniquesUsed :=
    if enableProseSmoother options
    then techniquesUsed ++ [js "Prose Smoothing"] else techniquesUsed in
  let techniquesUsed :=
    if enableRepetitionElimination options
    then techniquesUsed ++ [js "Repetition Elimination"] else techniquesUsed in
  techniquesUsed.

(** The lines of the summary under its heading of techniques. *)
Definition techniqueLines (techniques : list jsstring) : jsstring :=
  join [nl] (map (fun technique => js "- " ++ technique) techniques).

Definition generateEnhancementSummary
    (originalWordCount originalCharCount finalWordCount finalCharCount : nat)
    (expansionTarget : float) (options : EnhancementOptions) : jsstring :=
  let wordExpansionPercent := expansionPercent finalWordCount originalWordCount in
  let charExpansionPercent := expansionPercent finalCharCount originalCharCount in
  join [nl]
    [ js "---";
      [];
      js "## UNO Enhancement Summary";
      [];
      js "**Expansion Results:**";
      js "- Original Word Count: " ++ natToString originalWordCount;
      js "- Final Word Count: " ++ natToString finalWordCount;
      js "- Word Expansion: " ++ roundedToString wordExpansionPercent
        ++ js "% of original (" ++ numberToString expansionTarget ++ js "% target)";
      js "- Original Character Count: " ++ natToString originalCharCount;
      js "- Final Character Count: " ++ natToString finalCharCount;
      js "- Character Expansion: " ++ roundedToString charExpansionPercent
        ++ js "% of original";
      [];
      js "**Enhancement Techniques Applied:**";
      techniqueLines (techniquesUsed options);
      [];
      js "*Enhanced by UNO (Unified Narrative Operator)*" ].

(** [Math.round(count * (expansionTarget / 100))] *)
Definition targetCount (count : nat) (expansionTarget : float) : roundedNumber :=
  Math_round (PrimFloat.mul (num count) (PrimFloat.div expansionTarget (num 100))).

(** [customEnhanceText] with the record of the repetition stage. *)
Definition customEnhanceTextLogged (text : jsstring) (expansionTarget : float)
    (options : EnhancementOptions) : rand (jsstring * list Batch) :=
  analysisReport <~ lift (analyzeText text) ;;
  let originalWordCount := countWords text in
  let originalCharCount := length text in
  let targetWordCount := targetCount originalWordCount expansionTarget in
  let targetCharCount := targetCount originalCharCount expansionTarget in
  let enhancedText := text in
  let currentWordCount := originalWordCount in
  (* 1. Golden Shadow Enhancement *)
  enhancedText <~
    (if enableGoldenShadow options
     then lift (applyGoldenShadowEnhancement enhancedText expansionTarget
                  currentWordCount targetWordCount)
     else ret enhancedText) ;;
  let currentWordCount := countWords enhancedText in
  (* 2. Environmental Expansion *)
  enhancedText <~
    (if enableEnvironmental options
     then lift (applyEnvironmentalExpansion enhancedText expansionTarget
                  currentWordCount targetWordCount)
     else ret enhancedText) ;;
  let currentWordCount := countWords enhancedText in
  (* 3. Action Scene Enhancement (if applicable) *)
  enhancedText <~
    (if enableActionScene options then
       let sceneType := determineSceneType text in
       if isAction sceneType
       then applyActionSceneEnhancement enhancedText expansionTarget
              currentWordCount targetWordCount
       else ret enhancedText
     else ret enhancedText) ;;
  (* 4. Prose Smoothing *)
  enhancedText <~
    (if enableProseSmoother options
     then applyProseSmoothening enhancedText
     else ret enhancedText) ;;
  (* 5. Repetition Elimination *)
  result <~
    (if enableRepetitionElimination options
     then applyRepetitionEliminationLogged enhancedText
     else ret (enhancedText, [])) ;;
  let enhancedText := fst result in
  let finalWordCount := countWords enhancedText in
  let finalCharCount := length enhancedText in
  let summary :=
    generateEnhancementSummary originalWordCount originalCharCount
      finalWordCount finalCharCount expansionTarget options in
  ret (enhancedText ++ paragraphBreak ++ summary, snd result).

Definition customEnhanceText (text : jsstring) (expansionTarget : float)
    (options : EnhancementOptions) : rand jsstring :=
  result <~ customEnhanceTextLogged text expansionTarget options ;;
  ret (fst result).

Definition allTechniques : EnhancementOptions :=
  {| enableGoldenShadow := true;
     enableEnvironmental := true;
     enableActionScene := true;
     enableProseSmoother := true;
     enableRepetitionElimination := true |}.

Definition enhanceText (text : jsstring) (expansionTarget : float) : rand jsstring :=
  let options := allTechniques in
  customEnhanceText text expansionTarget options.

End WithRegExp.

End EnhancementProcessor.

(* ================================================================= *)
(** ** The request handler (index.js) *)

Module UnoServer.
Import Js.

(** A value of the arguments of a request. *)
#[local] Unset Elimination Schemes.
Inductive JsValue : Type :=
| JUndefined
| JNull
| JBoolean (b : bool)
| JNumber (x : float)
| JString (s : jsstring)
| JArray (items : list JsValue)
| JObject (fields : list (jsstring * JsValue)).
#[local] Set Elimination Schemes.

(** An object given by its own properties, of distinct keys. *)
Definition JsObject : Type := list (jsstring * JsValue).

(** [o.key]; a property that is absent reads as [undefined]. *)
Fixpoint getProperty (o : JsObject) (key : jsstring) : JsValue :=
  match o with
  | [] => JUndefined
  | (k, v) :: o' => if eqb k key then v else getProperty o' key
  end.

(** ToBoolean *)
Definition truthy (v : JsValue) : bool :=
  match v with
  | JUndefined => false
  | JNull => false
  | JBoolean b => b
  | JNumber x => negb (PrimFloat.eqb x 0%float || PrimFloat.is_nan x)
  | JString s => 0 <? length s
  | JArray _ => true
  | JObject _ => true
  end.

(** [typeof v === 'string'] *)
Definition isString (v : JsValue) : bool :=
  match v with
  | JString _ => true
  | _ => false
  end.

Inductive errorCode : Type :=
| InvalidParams
| MethodNotFound.

Record Request : Type := {
  name : jsstring;
  arguments : option JsObject
}.

(** The text of a reply is computed by one of the three text functions
    of index.js, which are made of literal regular expressions, string
    and array methods and arithmetic, and have no [throw]; a reply is
    represented by the call that computes its text. *)
Inductive textCall : Type :=
| analyzeTextOf (text : JsValue)
| enhanceTextOf (text expansionTarget : JsValue)
| customEnhanceTextOf (args : JsObject).

Inductive reply : Type :=
| Content (text : textCall)
| McpError (code : errorCode) (message : jsstring)
| Uncaught (e : exception).

(** [a || b] *)
Definition orElse (a b : JsValue) : JsValue := if truthy a then a else b.

(** [!args.text || typeof args.text !== 'string'] *)
Definition invalidText (args : JsObject) : bool :=
  let text := getProperty args (js "text") in
  negb (truthy text) || negb (isString text).

Definition requiredMessage : jsstring :=
  js "Text parameter is required and must be a string".

(** The handler of [CallToolRequestSchema]. *)
Definition callTool (request : Request) : reply :=
  let name := name request in
  if eqb name (js "analyze_text") then
    match arguments request with
    | None => Uncaught TypeError
    | Some args =>
        if invalidText args then McpError InvalidParams requiredMessage
        else Content (analyzeTextOf (getProperty args (js "text")))
    end
  else if eqb name (js "enhance_text") then
    match arguments request with
    | None => Uncaught TypeError
    | Some args =>
        if invalidText args then McpError InvalidParams requiredMessage
        else Content (enhanceTextOf (getProperty args (js "text"))
                        (orElse (getProperty args (js "expansionTarget"))
                                (JNumber (num 200))))
    end
  else if eqb name (js "custom_enhance_text") then
    match arguments request with
    | None => Uncaught TypeError
    | Some args =>
        if invalidText args then McpError InvalidParams requiredMessage
        else Content (customEnhanceTextOf args)
    end
  else McpError MethodNotFound (js "Unknown tool: " ++ name).

(** The three tools of the server. *)
Inductive tool : Type :=
| analyze_text
| enhance_text
| custom_enhance_text.

Definition toolName (t : tool) : jsstring :=
  match t with
  | analyze_text => js "analyze_text"
  | enhance_text => js "enhance_text"
  | custom_enhance_text => js "custom_enhance_text"
  end.

(** The reply to a request that is accepted. *)
Definition dispatch (t : tool) (args : JsObject) : textCall :=
  match t with
  | analyze_text => analyzeTextOf (getProperty args (js "text"))
  | enhance_text =>
      enhanceTextOf (getProperty args (js "text"))
        (orElse (getProperty args (js "expansionTarget")) (JNumber (num 200)))
  | custom_enhance_text => customEnhanceTextOf args
  end.

(** The text field holds a string that is not empty. *)
Definition isNonEmptyString (v : JsValue) : bool :=
  match v with
  | JString (_ :: _) => true
  | _ => false
  end.

End UnoServer.

(* ================================================================= *)
(** ** Inputs of the examples *)

Module Inputs.
Import Js TextAnalyzer EnhancementProcessor UnoServer.

(** A name in parentheses. *)
Definition parenthesised : jsstring := js "He met (Tom) today.".

Definition loneI : jsstring := js "I walked home.".

Definition noTechniques : EnhancementOptions :=
  {| enableGoldenShadow := false;
     enableEnvironmental := false;
     enableActionScene := false;
     enableProseSmoother := false;
     enableRepetitionElimination := false |}.

(** A request whose text is the empty string. *)
Definition emptyTextRequest (t : tool) : Request :=
  {| name := toolName t; arguments := Some [(js "text", JString [])] |}.

(** A calm text: no action verb at all. *)
Definition calm : jsstring := js "It was quiet.".

(** Five statues and three Sarahs. *)
Definition statues : jsstring :=
  js "Sarah saw the statue. A statue so old. Sarah liked that statue, a statue of stone. Sarah left the statue.".

(** Five statues and two Sarahs. *)
Definition statuesAlone : jsstring :=
  js "The statue. A statue so old. Sarah liked that statue, a statue of stone. Sarah left the statue.".

(** The verb looked, [n + 1] times, in one paragraph that names a room
    and three of the senses. *)
Definition manyLooks (n : nat) : jsstring :=
  js "looked heard felt room" ++ concat (repeat (js " looked") n).

(** Draws that pick the occurrences [0] to [k - 1] out of [n], then the
    sixth synonym for each of them. *)
Definition looksDraws (n k : nat) : list Q :=
  map (fun i => Z.of_nat (2 * i + 1) # Pos.of_nat (2 * n)) (seq 0 k)
  ++ repeat (3 # 4) k.

(** A text with the verb looked five times, twice with a capital. *)
Definition fiveLooks : jsstring :=
  js "Sarah looked up. Tom looked down. They Looked around and looked back; she looked heard felt the room.".

Definition fiveLooksDraws : list Q := [0 # 1; 1 # 4; 1 # 2; 3 # 4; 3 # 4; 1 # 8].

End Inputs.

(* ================================================================= *)
(** ** Text put into a text *)

(** [Embeds s t]: the list [t] is [s] with elements put in, none taken
    out, none changed, none moved. *)
Inductive Embeds {A : Type} : list A -> list A -> Prop :=
| Embeds_nil : forall t, Embeds [] t
| Embeds_keep : forall c s t, Embeds s t -> Embeds (c :: s) (c :: t)
| Embeds_skip : forall c s t, Embeds s t -> Embeds s (c :: t).

(* ================================================================= *)
(** ** What the repetition stage records *)

Module RepetitionRecord.
Import Js TextAnalyzer EnhancementProcessor.

(** The text after a replacement of the record: what stands at
    [offset r], on the length of [original r], gives way to
    [substitute r]. *)
Definition rewritten (enhancedText : jsstring) (r : Replacement) : jsstring :=
  slice enhancedText 0 (offset r) ++ substitute r
  ++ sliceFrom enhancedText (offset r + length (original r)).

(** [records text log result]: the stage went from [text] to [result] by
    the replacements of [log] and nothing else.  Each batch starts from
    the text that the batch before it left, and its replacements are
    made one after the other, in their order. *)
Fixpoint records (text : jsstring) (log : list Batch) (result : jsstring) : Prop :=
  match log with
  | [] => result = text
  | b :: log' =>
      before b = text
      /\ records (fold_left rewritten (replaced b) text) log' result
  end.

(** What one flagged word leaves in the record. *)
Definition exactBatch (b : Batch) : Prop :=
  Z.of_nat (length (replaced b)) = replaceCountOf (occurrences b)
  /\ Forall (fun r => In (offset r, original r) (matchAll (flagged b) (before b)))
            (replaced b)
  /\ StronglySorted (fun r r' => offset r' < offset r) (replaced b)
  /\ In (flagged b) (map js ["looked"; "walked"; "thought"; "heard"]).

Definition fromTable (b : Batch) : Prop :=
  exists synonyms,
    lookupReplacements (flagged b) = Some synonyms
    /\ Forall (fun r => exists w, In w synonyms
                                  /\ (substitute r = w \/ substitute r = capitalize w))
              (replaced b).

End RepetitionRecord.

(* ================================================================= *)
(** ** The text functions of index.js

    The handler of index.js answers with two functions of its own,
    [enhanceText] and [customEnhanceText].  They are given here for
    arguments of the types of the input schemas: a string for the text,
    a number for the target, booleans for the flags, each but the text
    possibly absent. *)

Module IndexJs.
Import Js TextAnalyzer.

(** [text.split(/(?<=[.!?])\s+/)]: the text is cut at every run of
    white space that follows a full stop, an exclamation mark or a
    question mark.  [cur] is the piece being read, in reverse, [prev] the
    unit before the head of [s], and [insep] tells that a separator is
    being read. *)
Fixpoint splitSentencesAux (s cur : jsstring) (prev : option N) (insep : bool)
  : list jsstring :=
  match s with
  | [] => [rev cur]
  | c :: s' =>
      if insep && isSpace c then splitSentencesAux s' cur (Some c) true
      else if isSpace c
              && match prev with Some p => isSentenceEnd p | None => false end
      then rev cur :: splitSentencesAux s' [] (Some c) true
      else splitSentencesAux s' (c :: cur) (Some c) false
  end.

Definition splitSentences (text : jsstring) : list jsstring :=
  splitSentencesAux text [] None false.

(** The longest prefix of units that satisfy [p]. *)
Fixpoint takeWhile (p : N -> bool) (s : jsstring) : jsstring :=
  match s with
  | c :: s' => if p c then c :: takeWhile p s' else []
  | [] => []
  end.

(** [s.match(/[A-Z][a-z]+/g) || []]: a capital and the lower-case letters
    that follow it, one at least. *)
Fixpoint matchNames (s : jsstring) (skip : nat) : list jsstring :=
  match s with
  | [] => []
  | c :: s' =>
      match skip with
      | S k => matchNames s' k
      | O =>
          if isUpperAZ c then
            match takeWhile isLowerAZ s' with
            | [] => matchNames s' 0
            | run => (c :: run) :: matchNames s' (length run)
            end
          else matchNames s' 0
      end
  end.

(** [Array.from(new Set(l))] *)
Definition distinct (l : list jsstring) : list jsstring :=
  fold_left (fun seen x => setAdd x seen) l [].

(** Whether [s.match(/a1|a2|.../gi)] finds a match. *)
Fixpoint matchesAnyCI (alts : list jsstring) (s : jsstring) : bool :=
  existsb (fun a => startsWithCI a s) alts
  || match s with
     | [] => false
     | _ :: s' => matchesAnyCI alts s'
     end.

Definition verbStems : list jsstring :=
  map js ["walk"; "run"; "look"; "see"; "feel"; "think"; "say"; "go"; "come"; "take";
          "make"; "know"; "find"].

(** The first match of the pattern of the verbs, a word boundary, one of
    the stems, the word characters that follow and a word boundary, with
    the flag [i]: the word that begins with a stem.  The greedy run of
    word characters ends at a word boundary. *)
Fixpoint matchVerb (s : jsstring) (prev : option N) : option jsstring :=
  match s with
  | [] => None
  | c :: s' =>
      if isBoundary prev (Some c) && existsb (fun stem => startsWithCI stem s) verbStems
      then Some (takeWhile isWordChar s)
      else matchVerb s' (Some c)
  end.

Definition questionSentence : jsstring :=
  js "The question hung in the air, demanding an answer.".
Definition exclamationSentence : jsstring :=
  js "The words reverberated with unmistakable emotion.".
Definition visualEnding : jsstring :=
  js " took in every detail, noting the subtle textures and colors that others might have missed.".
Definition tactileSentence : jsstring :=
  js "A subtle sensation lingered, impossible to ignore yet difficult to describe.".
Definition auditorySentence : jsstring :=
  js "The sound seemed to come from everywhere and nowhere at once, filling the space with its presence.".
Definition complexitySentence : jsstring :=
  js "This complexity revealed layers of meaning beneath the surface.".
Definition pauseEnding : jsstring :=
  js " paused briefly, taking in the moment before continuing.".

(** The branch of the chain of tests that writes the sentence added
    after a sentence of the text. *)
Inductive enhancement : Type :=
| Question | Exclamation | Visual | Tactile | Auditory | Complexity | Pause.

(** [actionVerbs ? actionVerbs[0].toLowerCase() : 'was'] *)
Definition verbOf (sentence : jsstring) : jsstring :=
  match matchVerb sentence None with
  | Some matched => toLowerCase matched
  | None => js "was"
  end.

(** The chain of tests of the loop, for a sentence of more than three
    words. *)
Definition chooseEnhancement (sentence : jsstring) (words : list jsstring) : enhancement :=
  let verb := verbOf sentence in
  if includes sentence (js "?") then Question
  else if includes sentence (js "!") then Exclamation
  else if eqb verb (js "saw") || eqb verb (js "looked") || eqb verb (js "observed")
          || eqb verb (js "noticed") then Visual
  else if eqb verb (js "felt") || eqb verb (js "touched") then Tactile
  else if eqb verb (js "heard") || eqb verb (js "listened") then Auditory
  else if 10 <? length words then Complexity
  else Pause.

(** The sentence each branch pushes. *)
Definition sentenceOf (e : enhancement) (potentialSubject : jsstring) : jsstring :=
  match e with
  | Question => questionSentence
  | Exclamation => exclamationSentence
  | Visual => potentialSubject ++ visualEnding
  | Tactile => tactileSentence
  | Auditory => auditorySentence
  | Complexity => complexitySentence
  | Pause => potentialSubject ++ pauseEnding
  end.

(** What the body of the loop pushes for one sentence. *)
Definition enhanceSentence (sentence : jsstring) : list jsstring :=
  let words := splitOn (js " ") sentence in
  if 3 <? length words then
    let potentialSubject :=
      match matchNames (hd [] words) 0 with
      | [] => js "It"
      | _ => hd [] words
      end in
    [sentence; sentenceOf (chooseEnhancement sentence words) potentialSubject]
  else [sentence].

Definition closingParagraph : jsstring :=
  [nl; nl] ++ js "The subtle details of this moment would remain etched in memory long after other experiences had faded. There was something uniquely significant about it, something that transcended ordinary perception and touched upon deeper truths.".

(** [(length / text.length) * 100 < expansionTarget] *)
Definition belowTarget (resultLength textLength : nat) (expansionTarget : float) : bool :=
  PrimFloat.ltb
    (PrimFloat.mul (PrimFloat.div (num resultLength) (num textLength)) (num 100))
    expansionTarget.

Definition enhanceText (text : jsstring) (expansionTarget : float) : jsstring :=
  let sentences := splitSentences text in
  let enhancedText := flat_map enhanceSentence sentences in
  let enhancedText :=
    if belowTarget (length (join (js " ") enhancedText)) (length text) expansionTarget
    then enhancedText ++ [closingParagraph] else enhancedText in
  join (js " ") enhancedText.

(** [args.expansionTarget || 200] for a number, or none. *)
Definition targetOr200 (expansionTarget : option float) : float :=
  match expansionTarget with
  | Some x => if PrimFloat.eqb x 0%float || PrimFloat.is_nan x then num 200 else x
  | None => num 200
  end.

(** The arguments of [customEnhanceText]; [None] is a property that is
    absent. *)
Record CustomParams : Type := {
  text : jsstring;
  expansionTarget : option float;
  enableGoldenShadow : option bool;
  enableEnvironmental : option bool;
  enableActionScene : option bool;
  enableProseSmoother : option bool;
  enableRepetitionElimination : option bool
}.

(** The default of a destructuring pattern. *)
Definition orDefault {A : Type} (o : option A) (d : A) : A :=
  match o with
  | Some a => a
  | None => d
  end.

Definition presenceSentence (character : jsstring) : jsstring :=
  character ++ js "'s presence added significance to the moment, bringing an energy that was uniquely their own.".

Definition environmentSentence : jsstring :=
  js "The surrounding environment wrapped around the scene, not just a backdrop but an active participant in the unfolding narrative. Subtle details—the quality of light, the temperature of the air, the distant sounds—all contributed to the tapestry of the moment.".

Definition actionWords : list jsstring :=
  map js ["run"; "jump"; "fight"; "chase"; "grab"; "throw"; "dash"; "leap"; "slam"].

Definition actionSentence : jsstring :=
  js "Time seemed to stretch and compress, heartbeats marking the passage of crucial moments. Each movement had consequence, each action rippling through the fabric of the scene with heightened intensity.".

Definition transitions : list jsstring :=
  map js ["Meanwhile, "; "In that moment, "; "Through it all, "; "Nevertheless, ";
          "Consequently, "].

Definition continuation : jsstring :=
  js "the narrative continued to unfold in unexpected ways.".

(** [transitions[i]] in front of the continuation; an index out of the
    array reads as [undefined]. *)
Definition transitionSentence (i : Z) : jsstring :=
  match element transitions i with
  | Some transition => transition ++ continuation
  | None => js "undefined" ++ continuation
  end.

(** The loop of the prose smoother and the push that follows it:
    [sentences] are the sentences from the index [i] on. *)
Fixpoint smoothSentences (sentences : list jsstring) (i : nat) : rand (list jsstring) :=
  match sentences with
  | [] => ret []
  | sentence :: rest =>
      match rest with
      | [] => ret [sentence]
      | _ :: _ =>
          added <~ (if i mod 3 =? 0
                    then r <~ Math_random ;;
                         ret [transitionSentence (randomIndex r (length transitions))]
                    else ret []) ;;
          more <~ smoothSentences rest (S i) ;;
          ret (sentence :: added ++ more)
      end
  end.

Definition deeperParagraph : jsstring :=
  [nl; nl] ++ js "Beneath the surface of what was said and done lay currents of meaning, subtle but powerful, shaping experience in ways both immediate and lasting. This was the deeper dimension of the narrative, the space where true significance resided.".

(** The sentences pushed before the prose smoother. *)
Definition firstSentences (params : CustomParams) : list jsstring :=
  let text := text params in
  let newSentences := [] in
  let newSentences :=
    if orDefault (enableGoldenShadow params) true then
      let potentialCharacters := distinct (matchNames text 0) in
      newSentences ++ map presenceSentence (firstn 2 potentialCharacters)
    else newSentences in
  let newSentences :=
    if orDefault (enableEnvironmental params) true
    then newSentences ++ [environmentSentence] else newSentences in
  let newSentences :=
    if orDefault (enableActionScene params) true && matchesAnyCI actionWords text
    then newSentences ++ [actionSentence] else newSentences in
  newSentences.

(** The two ways of putting the result together, by the flag of the
    repetition elimination. *)
Definition assemble (enableRepetitionElimination : bool)
    (sentences newSentences : list jsstring) : jsstring :=
  if negb enableRepetitionElimination
  then join (js " ") (sentences ++ newSentences)
  else join (js " ") sentences ++ js " " ++ join (js " ") newSentences.

Definition customEnhanceText (params : CustomParams) : rand jsstring :=
  let text := text params in
  let expansionTarget := orDefault (expansionTarget params) (num 150) in
  let sentences := splitSentences text in
  let newSentences := firstSentences params in
  newSentences <~
    (if orDefault (enableProseSmoother params) true
     then smoothed <~ smoothSentences sentences 0 ;; ret (newSentences ++ smoothed)
     else ret newSentences) ;;
  let enhancedText :=
    assemble (orDefault (enableRepetitionElimination params) true)
             sentences newSentences in
  ret (if belowTarget (length enhancedText) (length text) expansionTarget
       then enhancedText ++ deeperParagraph else enhancedText).

End IndexJs.

(* ================================================================= *)
(** ** The request handler of index.ts

    The handler that serves the three tools with [TextAnalyzer] and
    [EnhancementProcessor]. *)

Module IndexTs.
Import Js TextAnalyzer EnhancementProcessor.

Section WithRegExp.
Context {RE : RegExp}.

(** The arguments of a request, as they come. *)
Record Arguments : Type := {
  text : UnoServer.JsValue;
  expansionTarget : UnoServer.JsValue;
  enableGoldenShadow : UnoServer.JsValue;
  enableEnvironmental : UnoServer.JsValue;
  enableActionScene : UnoServer.JsValue;
  enableProseSmoother : UnoServer.JsValue;
  enableRepetitionElimination : UnoServer.JsValue
}.

Record Request : Type := {
  name : jsstring;
  arguments : option Arguments
}.

Inductive errorCode : Type :=
| InvalidParams
| MethodNotFound
| InternalError.

(** The message of an error: a text of the handler, or the prefix
    [Error processing request: ] with the message of what was caught. *)
Inductive errorMessage : Type :=
| Message (text : jsstring)
| ProcessingError (caught : exception).

(** What a tool answers: the report of the analyzer, which
    [generateReport] renders, or the enhanced text. *)
Inductive content : Type :=
| ReportText (report : Report)
| EnhancedText (text : jsstring).

Inductive reply : Type :=
| Content (c : content)
| McpError (code : errorCode) (message : errorMessage).

(** What a function of the handler does: it returns a reply, throws an
    [McpError], or throws something else. *)
Inductive thrown : Type :=
| ThrownMcpError (code : errorCode) (message : errorMessage)
| ThrownException (e : exception).

Definition missingText : jsstring := js "Missing or invalid text parameter".

(** [!args.text || typeof args.text !== 'string'] *)
Definition invalidText (args : Arguments) : bool :=
  negb (UnoServer.truthy (text args)) || negb (UnoServer.isString (text args)).

(** [args.text], once it is known to be a string. *)
Definition textOf (args : Arguments) : jsstring :=
  match text args with
  | UnoServer.JString s => s
  | _ => []
  end.

(** [args.expansionTarget && typeof args.expansionTarget === 'number'
    ? args.expansionTarget : 200] *)
Definition targetOf (args : Arguments) : float :=
  match expansionTarget args with
  | UnoServer.JNumber x =>
      if UnoServer.truthy (expansionTarget args) then x else num 200
  | _ => num 200
  end.

(** [v !== false] *)
Definition notFalse (v : UnoServer.JsValue) : bool :=
  match v with
  | UnoServer.JBoolean false => false
  | _ => true
  end.

Definition optionsOf (args : Arguments) : EnhancementOptions :=
  {| EnhancementProcessor.enableGoldenShadow := notFalse (enableGoldenShadow args);
     EnhancementProcessor.enableEnvironmental := notFalse (enableEnvironmental args);
     EnhancementProcessor.enableActionScene := notFalse (enableActionScene args);
     EnhancementProcessor.enableProseSmoother := notFalse (enableProseSmoother args);
     EnhancementProcessor.enableRepetitionElimination :=
       notFalse (enableRepetitionElimination args) |}.

(** What a function of the handler comes to, for given draws: a reply
    or what it throws. *)
Definition handled : Type := (reply + thrown)%type.

Definition invalidParams : handled :=
  inr (ThrownMcpError InvalidParams (Message missingText)).

Definition handleAnalyzeText (args : option Arguments) (draws : list Q)
  : outcome handled :=
  match args with
  | None => Return (inr (ThrownException TypeError))
  | Some args =>
      if invalidText args then Return invalidParams
      else
        match analyzeText (textOf args) with
        | Return report => Return (inl (Content (ReportText report)))
        | Throw e => Return (inr (ThrownException e))
        | Stuck l => Stuck l
        end
  end.

Definition handleEnhanceText (args : option Arguments) (draws : list Q)
  : outcome handled :=
  match args with
  | None => Return (inr (ThrownException TypeError))
  | Some args =>
      if invalidText args then Return invalidParams
      else
        let expansionTarget := targetOf args in
        match enhanceText (textOf args) expansionTarget draws with
        | Return (result, _) => Return (inl (Content (EnhancedText result)))
        | Throw e => Return (inr (ThrownException e))
        | Stuck l => Stuck l
        end
  end.

Definition handleCustomEnhanceText (args : option Arguments) (draws : list Q)
  : outcome handled :=
  match args with
  | None => Return (inr (ThrownException TypeError))
  | Some args =>
      if invalidText args then Return invalidParams
      else
        let expansionTarget := targetOf args in
        let options := optionsOf args in
        match customEnhanceText (textOf args) expansionTarget options draws with
        | Return (result, _) => Return (inl (Content (EnhancedText result)))
        | Throw e => Return (inr (ThrownException e))
        | Stuck l => Stuck l
        end
  end.

(** The handler of [CallToolRequestSchema]: the [switch] inside [try],
    and the [catch] that passes an [McpError] on and wraps the rest. *)
Definition callTool (request : Request) (draws : list Q) : outcome reply :=
  let tried :=
    if eqb (name request) (js "analyze_text")
    then handleAnalyzeText (arguments request) draws
    else if eqb (name request) (js "enhance_text")
    then handleEnhanceText (arguments request) draws
    else if eqb (name request) (js "custom_enhance_text")
    then handleCustomEnhanceText (arguments request) draws
    else Return (inr (ThrownMcpError MethodNotFound
                        (Message (js "Unknown tool: " ++ name request)))) in
  result <- tried ;;
  match result with
  | inl r => Return r
  | inr (ThrownMcpError code message) => Return (McpError code message)
  | inr (ThrownException e) => Return (McpError InternalError (ProcessingError e))
  end.

End WithRegExp.

End IndexTs.

(* ================================================================= *)
(** ** More inputs of the examples *)

Module Samples.
Import Js TextAnalyzer EnhancementProcessor UnoServer.

(** Six action verbs in the first of two paragraphs. *)
Definition chase : jsstring :=
  js "Tom ran, jumped, fought, grabbed, threw and dodged." ++ [nl; nl]
  ++ js "It was quiet.".

(** Two paragraphs, none of the transition words. *)
Definition twoParagraphs : jsstring :=
  js "It was quiet." ++ [nl; nl] ++ js "Tom sat down.".

(** The five stages but the last. *)
Definition repetitionOff : EnhancementOptions :=
  {| enableGoldenShadow := true;
     enableEnvironmental := true;
     enableActionScene := true;
     enableProseSmoother := true;
     enableRepetitionElimination := false |}.

Definition quarters : list Q := [1 # 4; 1 # 4; 1 # 4; 1 # 4].

(** The options with the action stage off. *)
Definition withoutActionScene (options : EnhancementOptions) : EnhancementOptions :=
  {| enableGoldenShadow := enableGoldenShadow options;
     enableEnvironmental := enableEnvironmental options;
     enableActionScene := false;
     enableProseSmoother := enableProseSmoother options;
     enableRepetitionElimination := enableRepetitionElimination options |}.

(** The verb looked three times as a word of its own, and twice behind
    a Kelvin sign (U+212A), whose lower case is the letter k and which is
    no word character. *)
Definition kelvin : jsstring :=
  js "looked looked looked " ++ [8490%N] ++ js "looked " ++ [8490%N] ++ js "looked".

(** Draws that pick the occurrences 0, 1 and 2 out of 5, then the first
    synonym for each of them. *)
Definition kelvinDraws : list Q := [0 # 1; 1 # 4; 1 # 2; 0 # 1; 0 # 1; 0 # 1].

(** Arguments of a request of index.ts: a text, a target and the five
    flags false. *)
Definition disabledArguments (s : jsstring) (target : JsValue) : IndexTs.Arguments :=
  {| IndexTs.text := JString s;
     IndexTs.expansionTarget := target;
     IndexTs.enableGoldenShadow := JBoolean false;
     IndexTs.enableEnvironmental := JBoolean false;
     IndexTs.enableActionScene := JBoolean false;
     IndexTs.enableProseSmoother := JBoolean false;
     IndexTs.enableRepetitionElimination := JBoolean false |}.

(** Arguments of a request of index.ts: a text and nothing else. *)
Definition onlyText (s : jsstring) : IndexTs.Arguments :=
  {| IndexTs.text := JString s;
     IndexTs.expansionTarget := UnoServer.JUndefined;
     IndexTs.enableGoldenShadow := JUndefined;
     IndexTs.enableEnvironmental := JUndefined;
     IndexTs.enableActionScene := JUndefined;
     IndexTs.enableProseSmoother := JUndefined;
     IndexTs.enableRepetitionElimination := JUndefined |}.

(** Parameters of [customEnhanceText] of index.js: a text and nothing
    else. *)
Definition textAlone (s : jsstring) : IndexJs.CustomParams :=
  {| IndexJs.text := s;
     IndexJs.expansionTarget := None;
     IndexJs.enableGoldenShadow := None;
     IndexJs.enableEnvironmental := None;
     IndexJs.enableActionScene := None;
     IndexJs.enableProseSmoother := None;
     IndexJs.enableRepetitionElimination := None |}.

End Samples.

(* ================================================================= *)
(** ** Properties

    The properties are stated for every [otherPattern]. *)

Import Js TextAnalyzer EnhancementProcessor UnoServer Inputs RepetitionRecord Samples.

Section Properties.
Context {RE : RegExp}.

Import Js TextAnalyzer EnhancementProcessor UnoServer Inputs.

(** *** Sequencing *)

Lemma bind_Return :
  forall (A B : Type) (c : outcome A) (k : A -> outcome B) (b : B),
    bind c k = Return b -> exists a, c = Return a /\ k a = Return b.
Proof.
  intros A B c k b H. destruct c as [a | e | l]; try discriminate.
  exists a. split; [reflexivity | exact H].
Qed.

Lemma bindR_Return :
  forall (A B : Type) (c : rand A) (k : A -> rand B) (draws : list Q) (x : B * list Q),
    bindR c k draws = Return x ->
    exists a rest, c draws = Return (a, rest) /\ k a rest = Return x.
Proof.
  intros A B c k draws x H. unfold bindR in H.
  destruct (c draws) as [[a rest] | e | l]; try discriminate.
  exists a, rest. split; [reflexivity | exact H].
Qed.

Lemma lift_Return :
  forall (A : Type) (c : outcome A) (draws : list Q) (x : A * list Q),
    lift c draws = Return x -> c = Return (fst x) /\ snd x = draws.
Proof.
  intros A c draws x H. unfold lift in H.
  destruct c as [a | e | l]; try discriminate.
  inversion H. split; reflexivity.
Qed.

Lemma ret_Return :
  forall (A : Type) (a : A) (draws : list Q) (x : A * list Q),
    ret a draws = Return x -> x = (a, draws).
Proof. intros A a draws x H. unfold ret in H. inversion H. reflexivity. Qed.

Lemma Return_inj : forall (A : Type) (a b : A), Return a = Return b -> a = b.
Proof. intros A a b H. congruence. Qed.

Lemma ret_Return_pair :
  forall (A : Type) (a a' : A) (draws rest : list Q),
    ret a draws = Return (a', rest) -> a' = a /\ rest = draws.
Proof. intros A a a' draws rest H. unfold ret in H. split; congruence. Qed.

(** What a computation that returns its argument unchanged gives. *)
Ltac returned H :=
  apply ret_Return_pair in H; destruct H as [? ?]; subst.

(** *** Strings and counters *)

Lemma eqb_eq : forall a b : jsstring, eqb a b = true <-> a = b.
Proof.
  induction a as [| x a IH]; destruct b as [| y b]; cbn; split; intro H;
    try reflexivity; try discriminate.
  - apply andb_true_iff in H. destruct H as [H1 H2].
    apply N.eqb_eq in H1. apply IH in H2. subst. reflexivity.
  - inversion H; subst. apply andb_true_iff. split.
    + apply N.eqb_refl.
    + apply IH. reflexivity.
Qed.

Lemma eqb_refl : forall a : jsstring, eqb a a = true.
Proof. intro a. apply eqb_eq. reflexivity. Qed.

Lemma eqb_neq : forall a b : jsstring, eqb a b = false <-> a <> b.
Proof.
  intros a b. split.
  - intros H E. apply eqb_eq in E. rewrite E in H. discriminate.
  - intro H. destruct (eqb a b) eqn:E; [| reflexivity].
    apply eqb_eq in E. contradiction.
Qed.

Lemma occurrencesIn_app :
  forall l1 l2 w, occurrencesIn (l1 ++ l2) w = occurrencesIn l1 w + occurrencesIn l2 w.
Proof.
  intros. unfold occurrencesIn. rewrite filter_app, length_app. reflexivity.
Qed.

Lemma occurrencesIn_cons :
  forall k l w,
    occurrencesIn (k :: l) w = (if eqb w k then 1 else 0) + occurrencesIn l w.
Proof.
  intros. unfold occurrencesIn. cbn. destruct (eqb w k); reflexivity.
Qed.

(** A word that occurs is one of the list. *)
Lemma occurrencesIn_pos :
  forall l w, 0 < occurrencesIn l w -> In w l.
Proof.
  induction l as [| k l IH]; intros w H.
  - cbn in H. lia.
  - rewrite occurrencesIn_cons in H. destruct (eqb w k) eqn:E.
    + apply eqb_eq in E. left. symmetry. exact E.
    + right. apply IH. exact H.
Qed.

(** A bound checked on the words of a list holds for every word. *)
Lemma occurrencesIn_bound :
  forall (l : list jsstring) (x : jsstring) (n : nat),
    forallb (fun t => eqb t x || (occurrencesIn l t <=? n)) l = true ->
    forall w, w <> x -> occurrencesIn l w <= n.
Proof.
  intros l x n H w Hw.
  destruct (occurrencesIn l w) eqn:E; [lia |].
  assert (Hin : In w l) by (apply occurrencesIn_pos; lia).
  rewrite forallb_forall in H. specialize (H w Hin).
  apply orb_true_iff in H. destruct H as [H | H].
  - apply eqb_eq in H. contradiction.
  - apply Nat.leb_le in H. lia.
Qed.

Lemma occurrencesIn_filter :
  forall (p : jsstring -> bool) l w,
    occurrencesIn (filter p l) w = if p w then occurrencesIn l w else 0.
Proof.
  intros p l w. unfold occurrencesIn. induction l as [| k l IH]; cbn [filter].
  - destruct (p w); reflexivity.
  - destruct (p k) eqn:Ep; cbn [filter]; destruct (eqb w k) eqn:E;
      try (apply eqb_eq in E; subst k; rewrite Ep in *); cbn [length];
      rewrite IH; try reflexivity; destruct (p w); reflexivity.
Qed.

Lemma hasKey_tallyOf :
  forall o k, hasKey k o = match tallyOf o k with Some _ => true | None => false end.
Proof.
  induction o as [| [k' t] o IH]; intro k; cbn; [reflexivity |].
  destruct (eqb k k'); cbn; [reflexivity | apply IH].
Qed.

Lemma tallyOf_In :
  forall o k t, tallyOf o k = Some t -> In (k, t) o.
Proof.
  induction o as [| [k' t'] o IH]; intros k t H; cbn in H; [discriminate |].
  destruct (eqb k k') eqn:E.
  - apply eqb_eq in E. inversion H; subst. left. reflexivity.
  - right. apply IH. exact H.
Qed.

Lemma tallyOf_None :
  forall o k, tallyOf o k = None -> ~ In k (map fst o).
Proof.
  induction o as [| [k' t'] o IH]; intros k H; cbn in *; [tauto |].
  destruct (eqb k k') eqn:E; [discriminate |].
  apply eqb_neq in E. intros [H1 | H1]; [congruence | exact (IH k H H1)].
Qed.

Lemma In_tallyOf :
  forall o k t, NoDup (map fst o) -> In (k, t) o -> tallyOf o k = Some t.
Proof.
  induction o as [| [k' t'] o IH]; intros k t Hnd Hin; cbn in *; [contradiction |].
  inversion Hnd as [| ? ? Hni Hnd']; subst.
  destruct Hin as [Hin | Hin].
  - inversion Hin; subst. rewrite eqb_refl. reflexivity.
  - destruct (eqb k k') eqn:E.
    + apply eqb_eq in E. subst. exfalso. apply Hni.
      apply in_map_iff. exists (k', t). split; [reflexivity | exact Hin].
    + apply IH; assumption.
Qed.

Lemma bumpOwn_keys : forall k o, map fst (bumpOwn k o) = map fst o.
Proof.
  induction o as [| [k' t] o IH]; cbn; [reflexivity |].
  destruct (eqb k k'); cbn; [reflexivity | rewrite IH; reflexivity].
Qed.

Lemma tallyOf_bumpOwn :
  forall k o k',
    tallyOf (bumpOwn k o) k'
    = if eqb k' k then option_map bumpTally (tallyOf o k) else tallyOf o k'.
Proof.
  induction o as [| [k0 t] o IH]; intro k'; cbn.
  - destruct (eqb k' k); reflexivity.
  - destruct (eqb k k0) eqn:E; cbn.
    + apply eqb_eq in E. subst k0. destruct (eqb k' k); reflexivity.
    + rewrite IH. destruct (eqb k' k) eqn:E'.
      * apply eqb_eq in E'. subst k'. rewrite E. reflexivity.
      * reflexivity.
Qed.

Lemma tallyOf_app_fresh :
  forall o k t k',
    tallyOf o k = None ->
    tallyOf (o ++ [(k, t)]) k' = if eqb k' k then Some t else tallyOf o k'.
Proof.
  induction o as [| [k0 t0] o IH]; intros k t k' H; cbn in *.
  - destruct (eqb k' k); reflexivity.
  - destruct (eqb k k0) eqn:E; [discriminate |].
    destruct (eqb k' k0) eqn:E0.
    + apply eqb_eq in E0. subst k0.
      destruct (eqb k' k) eqn:E1; [| reflexivity].
      apply eqb_eq in E1. subst k'. rewrite eqb_refl in E. discriminate.
    + apply IH. exact H.
Qed.

(** One turn of the counting loop. *)
Lemma increment_spec :
  forall o seen k,
    NoDup (map fst o) ->
    (forall k', tallyOf o k' = tallyAfter seen k') ->
    NoDup (map fst (increment o k))
    /\ (forall k', tallyOf (increment o k) k' = tallyAfter (seen ++ [k]) k').
Proof.
  intros o seen k Hnd Hspec. unfold increment.
  rewrite hasKey_tallyOf.
  assert (Hocc : forall k', occurrencesIn (seen ++ [k]) k'
                            = occurrencesIn seen k' + (if eqb k' k then 1 else 0)).
  { intro k'. rewrite occurrencesIn_app. f_equal.
    rewrite occurrencesIn_cons. cbn. lia. }
  destruct (tallyOf o k) as [t |] eqn:Ek.
  - split; [rewrite bumpOwn_keys; exact Hnd |].
    intro k'. rewrite tallyOf_bumpOwn. unfold tallyAfter. rewrite Hocc.
    destruct (eqb k' k) eqn:E.
    + apply eqb_eq in E. subst k'. rewrite Ek.
      rewrite Hspec in Ek. unfold tallyAfter in Ek.
      destruct (occurrencesIn seen k =? 0) eqn:E0; [discriminate |].
      apply Nat.eqb_neq in E0.
      replace (occurrencesIn seen k + 1 =? 0) with false
        by (symmetry; apply Nat.eqb_neq; lia).
      destruct (eqb k (js "__proto__")); [discriminate |].
      destruct (existsb (eqb k) inheritedKeys); inversion Ek; subst; cbn.
      * reflexivity.
      * f_equal. f_equal. lia.
    + rewrite Hspec. unfold tallyAfter. rewrite Nat.add_0_r. reflexivity.
  - assert (E0 : occurrencesIn seen k = 0 \/ eqb k (js "__proto__") = true).
    { rewrite Hspec in Ek. unfold tallyAfter in Ek.
      destruct (occurrencesIn seen k =? 0) eqn:E0.
      - left. apply Nat.eqb_eq. exact E0.
      - right. destruct (eqb k (js "__proto__")); [reflexivity |].
        destruct (existsb (eqb k) inheritedKeys); discriminate. }
    destruct (eqb k (js "__proto__")) eqn:Ep.
    + split; [exact Hnd |].
      intro k'. rewrite Hspec. unfold tallyAfter. rewrite Hocc.
      destruct (eqb k' k) eqn:E.
      * apply eqb_eq in E. subst k'. rewrite Ep.
        destruct (occurrencesIn seen k =? 0); destruct (occurrencesIn seen k + 1 =? 0);
          reflexivity.
      * rewrite Nat.add_0_r. reflexivity.
    + destruct E0 as [E0 | E0]; [| discriminate].
      assert (Hfresh : ~ In k (map fst o)) by (apply tallyOf_None; exact Ek).
      assert (Hnd' : forall t, NoDup (map fst (o ++ [(k, t)]))).
      { intro t. rewrite map_app. cbn.
        apply NoDup_app; [exact Hnd | constructor; [intros [] | constructor] |].
        intros a Ha [Hb | []]. subst a. contradiction. }
      assert (Hk : forall t k',
                 tallyOf (o ++ [(k, t)]) k'
                 = if eqb k' k then Some t else tallyAfter seen k').
      { intros t k'. rewrite tallyOf_app_fresh by exact Ek.
        destruct (eqb k' k); [reflexivity | apply Hspec]. }
      destruct (existsb (eqb k) inheritedKeys) eqn:Ei.
      * split; [apply Hnd' |]. intro k'. rewrite Hk. unfold tallyAfter. rewrite Hocc.
        destruct (eqb k' k) eqn:E.
        -- apply eqb_eq in E. subst k'. rewrite E0, Ep, Ei. reflexivity.
        -- rewrite Nat.add_0_r. reflexivity.
      * split; [apply Hnd' |]. intro k'. rewrite Hk. unfold tallyAfter. rewrite Hocc.
        destruct (eqb k' k) eqn:E.
        -- apply eqb_eq in E. subst k'. rewrite E0, Ep, Ei. reflexivity.
        -- rewrite Nat.add_0_r. reflexivity.
Qed.

(** The counting loop. *)
Lemma increment_all_spec :
  forall (keys : list jsstring) o seen,
    NoDup (map fst o) ->
    (forall k', tallyOf o k' = tallyAfter seen k') ->
    NoDup (map fst (fold_left increment keys o))
    /\ (forall k', tallyOf (fold_left increment keys o) k'
                   = tallyAfter (seen ++ keys) k').
Proof.
  induction keys as [| k keys IH]; intros o seen Hnd Hspec; cbn.
  - rewrite app_nil_r. split; assumption.
  - destruct (increment_spec o seen k Hnd Hspec) as [Hnd' Hspec'].
    destruct (IH _ _ Hnd' Hspec') as [H1 H2].
    split; [exact H1 |]. intro k'. rewrite H2. rewrite <- app_assoc. reflexivity.
Qed.

Lemma insertIndexed_perm :
  forall (A : Type) (x : N * A) (l : list (N * A)),
    Permutation (insertIndexed x l) (x :: l).
Proof.
  intros A x. induction l as [| y l IH]; cbn; [apply Permutation_refl |].
  destruct (fst x <? fst y)%N; [apply Permutation_refl |].
  apply Permutation_trans with (y :: x :: l).
  - apply perm_skip. exact IH.
  - apply perm_swap.
Qed.

(** [Object.entries] lists every property once. *)
Lemma entries_perm : forall o : counter, Permutation (entries o) o.
Proof.
  unfold entries. induction o as [| e o IH]; cbn [indexedEntries fold_right filter map app].
  - apply Permutation_refl.
  - fold (indexedEntries o). destruct (arrayIndex (fst e)) as [i |] eqn:E.
    + apply Permutation_trans
        with (map snd ((i, e) :: indexedEntries o)
              ++ filter (fun e0 => match arrayIndex (fst e0) with
                                   | Some _ => false
                                   | None => true
                                   end) o).
      * apply Permutation_app_tail. apply Permutation_map. apply insertIndexed_perm.
      * cbn [map snd app]. apply perm_skip. exact IH.
    + apply Permutation_trans
        with (e :: map snd (indexedEntries o)
                ++ filter (fun e0 => match arrayIndex (fst e0) with
                                     | Some _ => false
                                     | None => true
                                     end) o).
      * apply Permutation_sym. apply Permutation_middle.
      * apply perm_skip. exact IH.
Qed.

Lemma above_In :
  forall k o w n, In (w, n) (above k o) <-> In (w, Count n) o /\ k < n.
Proof.
  intros k o w n. induction o as [| [w' [n' |]] o IH]; cbn [above].
  - cbn. tauto.
  - destruct (k <? n') eqn:E.
    + apply Nat.ltb_lt in E. cbn [In]. rewrite IH. split.
      * intros [H | [H1 H2]].
        -- inversion H; subst. split; [left; reflexivity | exact E].
        -- split; [right; exact H1 | exact H2].
      * intros [[H | H] H2].
        -- inversion H; subst. left. reflexivity.
        -- right. split; assumption.
    + apply Nat.ltb_ge in E. rewrite IH. cbn [In]. split.
      * intros [H1 H2]. split; [right; exact H1 | exact H2].
      * intros [[H | H] H2].
        -- inversion H; subst. lia.
        -- split; assumption.
  - rewrite IH. cbn [In]. split.
    + intros [H1 H2]. split; [right; exact H1 | exact H2].
    + intros [[H | H] H2]; [discriminate H | split; assumption].
Qed.

Lemma above_keys :
  forall k o w, In w (map fst (above k o)) -> In w (map fst o).
Proof.
  intros k o w H. apply in_map_iff in H. destruct H as ([w' n] & H1 & H2).
  cbn in H1. subst w'. apply above_In in H2. destruct H2 as [H2 _].
  apply in_map_iff. exists (w, Count n). split; [reflexivity | exact H2].
Qed.

Lemma above_NoDup :
  forall k o, NoDup (map fst o) -> NoDup (map fst (above k o)).
Proof.
  intros k. induction o as [| [w [n |]] o IH]; intro H; cbn [above].
  - constructor.
  - cbn [map fst] in H. inversion H as [| ? ? Hni Hnd]; subst.
    destruct (k <? n); [| apply IH; exact Hnd].
    cbn [map fst]. constructor; [| apply IH; exact Hnd].
    intro Hin. apply Hni. eapply above_keys. exact Hin.
  - cbn [map fst] in H. inversion H; subst. apply IH. assumption.
Qed.

(** A list without two entries of the same key, all of the key of [a],
    one of them [a], is the list of [a] alone. *)
Lemma singleton_by_key :
  forall (l : list (jsstring * nat)) (a : jsstring * nat),
    NoDup (map fst l) -> In a l -> (forall x, In x l -> fst x = fst a) -> l = [a].
Proof.
  intros l a Hnd Hin Hall. destruct l as [| x l]; [contradiction |].
  destruct l as [| y l].
  - destruct Hin as [Hin | []]. subst. reflexivity.
  - exfalso. cbn [map] in Hnd. inversion Hnd as [| ? ? Hni _]; subst.
    apply Hni. left.
    rewrite (Hall x (or_introl eq_refl)), (Hall y (or_intror (or_introl eq_refl))).
    reflexivity.
Qed.

Lemma insertByCount_perm :
  forall x l, Permutation (insertByCount x l) (x :: l).
Proof.
  intros x. induction l as [| y l IH]; cbn [insertByCount]; [apply Permutation_refl |].
  destruct (snd x <? snd y); [| apply Permutation_refl].
  apply Permutation_trans with (y :: x :: l).
  - apply perm_skip. exact IH.
  - apply perm_swap.
Qed.

Lemma sortByCount_perm : forall l, Permutation (sortByCount l) l.
Proof.
  unfold sortByCount. induction l as [| x l IH]; cbn [fold_right]; [apply Permutation_refl |].
  apply Permutation_trans with (x :: fold_right insertByCount [] l).
  - apply insertByCount_perm.
  - apply perm_skip. exact IH.
Qed.

Lemma NoDup_firstn :
  forall (A : Type) (n : nat) (l : list A), NoDup l -> NoDup (firstn n l).
Proof.
  intros A n l H. rewrite <- (firstn_skipn n l) in H.
  apply NoDup_app_remove_r in H. exact H.
Qed.

Lemma In_firstn :
  forall (A : Type) (n : nat) (l : list A) (x : A), In x (firstn n l) -> In x l.
Proof.
  intros A n l x H. rewrite <- (firstn_skipn n l). apply in_or_app. left. exact H.
Qed.

(** *** Lower case *)

(** A unit that [toLowerCase] writes is left as it is by [toLowerCase]. *)
Lemma lowerUnit_lowered :
  forall c d, In d (lowerUnit c) -> lowerUnit d = [d].
Proof.
  intros c d H. unfold lowerUnit in H.
  unfold isUpperAZ, isUpperLatin1, inRange in H.
  repeat match type of H with
         | context [if ?b then _ else _] => destruct b eqn:?
         end;
    cbn in H;
    repeat match type of H with
           | _ \/ _ => destruct H as [H | H]
           | False => contradiction
           end;
    subst d; try (vm_compute; reflexivity);
    unfold lowerUnit, isUpperAZ, isUpperLatin1, inRange;
    repeat match goal with
           | H0 : (_ || _) = true |- _ => apply orb_true_iff in H0; destruct H0 as [H0 | H0]
           | H0 : (_ || _) = false |- _ => apply orb_false_iff in H0; destruct H0 as [? ?]
           | H0 : (_ && _) = true |- _ => apply andb_true_iff in H0; destruct H0 as [? ?]
           | H0 : negb _ = true |- _ => apply negb_true_iff in H0
           | H0 : (_ <=? _)%N = true |- _ => apply N.leb_le in H0
           | H0 : (_ =? _)%N = false |- _ => apply N.eqb_neq in H0
           | H0 : (_ =? _)%N = true |- _ => apply N.eqb_eq in H0
           end;
    repeat match goal with
           | |- context [(?a <=? ?b)%N] => destruct (N.leb_spec a b)
           | |- context [(?a =? ?b)%N] => destruct (N.eqb_spec a b)
           end;
    cbn; try reflexivity; try lia;
    repeat match goal with
           | H0 : (_ && _) = false |- _ => apply andb_false_iff in H0; destruct H0 as [H0 | H0]
           | H0 : negb _ = false |- _ => apply negb_false_iff in H0
           | H0 : (_ <=? _)%N = false |- _ => apply N.leb_gt in H0
           | H0 : (_ =? _)%N = true |- _ => apply N.eqb_eq in H0
           end; try lia.
Qed.

Lemma toLowerCase_units :
  forall s, Forall (fun c => lowerUnit c = [c]) (toLowerCase s).
Proof.
  unfold toLowerCase. induction s as [| c s IH]; cbn [flat_map]; [constructor |].
  apply Forall_app. split; [| exact IH].
  apply Forall_forall. intros d Hd. eapply lowerUnit_lowered. exact Hd.
Qed.

Lemma toLowerCase_fixed :
  forall w, Forall (fun c => lowerUnit c = [c]) w -> toLowerCase w = w.
Proof.
  unfold toLowerCase. induction w as [| c w IH]; intro H; cbn [flat_map]; [reflexivity |].
  inversion H as [| ? ? Hc Hw]; subst. rewrite Hc, (IH Hw). reflexivity.
Qed.

(** The words of a text are made of units of the text. *)
Lemma matchWordsAux_units :
  forall (Q : N -> Prop) s cur,
    Forall Q s -> Forall Q cur -> Forall (Forall Q) (matchWordsAux s cur).
Proof.
  intros Q. induction s as [| c s IH]; intros cur Hs Hcur; cbn.
  - destruct cur; constructor; [| constructor].
    apply Forall_rev. exact Hcur.
  - inversion Hs as [| ? ? Hc Hs']; subst.
    destruct (isWordChar c).
    + apply IH; [exact Hs' | constructor; assumption].
    + destruct cur.
      * apply IH; [exact Hs' | constructor].
      * constructor; [apply Forall_rev; exact Hcur |].
        apply IH; [exact Hs' | constructor].
Qed.

(** A word of the text in lower case is its own lower case. *)
Lemma lowered_word :
  forall text w, In w (matchWords (toLowerCase text)) -> toLowerCase w = w.
Proof.
  intros text w H. apply toLowerCase_fixed.
  pose proof (matchWordsAux_units (fun c => lowerUnit c = [c]) (toLowerCase text) []
                (toLowerCase_units text) (Forall_nil _)) as Hall.
  rewrite Forall_forall in Hall. apply Hall. exact H.
Qed.

(** The pieces of a split are made of units of the text. *)
Lemma splitRunsAux_units :
  forall (Q : N -> Prop) sep s cur insep,
    Forall Q s -> Forall Q cur -> Forall (Forall Q) (splitRunsAux sep s cur insep).
Proof.
  intros Q sep. induction s as [| c s IH]; intros cur insep Hs Hcur; cbn [splitRunsAux].
  - constructor; [apply Forall_rev; exact Hcur | constructor].
  - inversion Hs as [| ? ? Hc Hs']; subst. destruct (sep c).
    + destruct insep.
      * apply IH; [exact Hs' | constructor].
      * constructor; [apply Forall_rev; exact Hcur |].
        apply IH; [exact Hs' | constructor].
    + apply IH; [exact Hs' | constructor; assumption].
Qed.

(** *** Splitting and joining *)

Lemma startsWith_app :
  forall p s, startsWith p s = true -> exists rest, s = p ++ rest.
Proof.
  induction p as [| a p IH]; intros s H.
  - exists s. reflexivity.
  - destruct s as [| b s]; cbn in H; [discriminate |].
    apply andb_true_iff in H. destruct H as [H1 H2].
    apply N.eqb_eq in H1. subst b. destruct (IH _ H2) as (rest & Hr).
    exists rest. cbn. rewrite <- Hr. reflexivity.
Qed.

(** The units of a separator found are passed over. *)
Lemma splitOnAux_skip :
  forall sep pre rest cur,
    splitOnAux sep (pre ++ rest) cur (length pre) = splitOnAux sep rest cur 0.
Proof.
  intros sep. induction pre as [| c pre IH]; intros rest cur; cbn [app length].
  - destruct rest; reflexivity.
  - cbn [splitOnAux]. apply IH.
Qed.

Lemma splitOnAux_not_nil :
  forall sep s cur skip, splitOnAux sep s cur skip <> [].
Proof.
  intros sep. induction s as [| c s IH]; intros cur skip; cbn [splitOnAux].
  - discriminate.
  - destruct skip; [| apply IH].
    destruct (startsWith sep (c :: s)); [discriminate | apply IH].
Qed.

Lemma join_cons :
  forall sep x l, l <> [] -> join sep (x :: l) = x ++ sep ++ join sep l.
Proof.
  intros sep x l H. destruct l; [contradiction | reflexivity].
Qed.

Lemma join_splitOnAux :
  forall sep, sep <> [] ->
    forall n s cur, length s <= n ->
      join sep (splitOnAux sep s cur 0) = rev cur ++ s.
Proof.
  intros sep Hsep. induction n as [| n IH]; intros s cur Hn.
  - destruct s; [| cbn in Hn; lia]. cbn. rewrite app_nil_r. reflexivity.
  - destruct s as [| c s]; [cbn; rewrite app_nil_r; reflexivity |].
    cbn [splitOnAux]. destruct (startsWith sep (c :: s)) eqn:E.
    + apply startsWith_app in E. destruct E as (rest & Hr).
      destruct sep as [| a sep]; [contradiction |].
      cbn [app] in Hr. inversion Hr; subst.
      replace (length (a :: sep) - 1) with (length sep) by (cbn [length]; lia).
      rewrite splitOnAux_skip. rewrite join_cons by apply splitOnAux_not_nil.
      rewrite IH.
      * cbn [rev app]. reflexivity.
      * cbn [length] in Hn. rewrite length_app in Hn. lia.
    + rewrite IH by (cbn in Hn; lia). cbn [rev]. rewrite <- app_assoc. reflexivity.
Qed.

(** [s.split(sep).join(sep)] is [s]. *)
Lemma join_splitOn :
  forall sep s, sep <> [] -> join sep (splitOn sep s) = s.
Proof.
  intros sep s H. unfold splitOn.
  rewrite (join_splitOnAux sep H (length s)) by lia. reflexivity.
Qed.

Lemma length_join :
  forall sep l,
    length (join sep l) = list_sum (map (@length N) l) + length sep * (length l - 1).
Proof.
  intros sep. induction l as [| x l IH]; [cbn; lia |].
  destruct l as [| y l].
  - cbn. lia.
  - rewrite join_cons by discriminate. rewrite !length_app, IH.
    cbn [map list_sum fold_right length Nat.sub]. rewrite Nat.sub_0_r, Nat.mul_succ_r.
    unfold list_sum. lia.
Qed.

(** A paragraph more makes the text longer. *)
Lemma length_join_spliceIn :
  forall sep l i x, length (join sep l) <= length (join sep (spliceIn l i x)).
Proof.
  intros sep l i x. rewrite !length_join. unfold spliceIn.
  rewrite map_app, list_sum_app, length_app. cbn [map list_sum fold_right length].
  rewrite <- (firstn_skipn i l) at 1 2.
  rewrite map_app, list_sum_app, length_app. unfold list_sum.
  apply Nat.add_le_mono; [lia |]. apply Nat.mul_le_mono_l. lia.
Qed.

(** Paragraphs that grow make the text longer. *)
Lemma length_join_grow :
  forall sep l l',
    Forall2 (fun p p' => length p <= length p') l l' ->
    length (join sep l) <= length (join sep l').
Proof.
  intros sep l l' H. rewrite !length_join.
  pose proof (Forall2_length H) as Hlen. unfold jsstring in *.
  rewrite Hlen. apply Nat.add_le_mono_r.
  clear Hlen. unfold list_sum.
  induction H as [| p p' l l' Hp _ IH]; cbn [map fold_right] in *; lia.
Qed.

Lemma updateAt_grow :
  forall (l : list jsstring) i f,
    (forall p, length p <= length (f p)) ->
    Forall2 (fun p p' => length p <= length p') l (updateAt l i f).
Proof.
  induction l as [| x l IH]; intros i f Hf; cbn [updateAt].
  - destruct i; constructor.
  - destruct i as [| i].
    + constructor; [apply Hf |]. clear. induction l; constructor; [lia | assumption].
    + constructor; [lia | apply IH; exact Hf].
Qed.

Lemma paragraphBreak_not_nil : paragraphBreak <> [].
Proof. discriminate. Qed.

Lemma length_splitOn_spliceIn :
  forall text i x,
    length text <= length (join paragraphBreak (spliceIn (splitOn paragraphBreak text) i x)).
Proof.
  intros text i x.
  rewrite <- (join_splitOn paragraphBreak text paragraphBreak_not_nil) at 1.
  apply length_join_spliceIn.
Qed.

Lemma length_splitOn_grow :
  forall text paragraphs',
    Forall2 (fun p p' => length p <= length p') (splitOn paragraphBreak text) paragraphs' ->
    length text <= length (join paragraphBreak paragraphs').
Proof.
  intros text paragraphs' H.
  rewrite <- (join_splitOn paragraphBreak text paragraphBreak_not_nil) at 1.
  apply length_join_grow. exact H.
Qed.

(** *** Matches of a word pattern *)

Lemma startsWithCI_length :
  forall p s, startsWithCI p s = true -> length p <= length s.
Proof.
  induction p as [| a p IH]; intros s H; cbn; [lia |].
  destruct s as [| b s]; cbn in H; [discriminate |].
  apply andb_true_iff in H. destruct H as [_ H]. apply IH in H. cbn. lia.
Qed.

Lemma startsWithCI_firstn :
  forall p s, startsWithCI p s = true -> startsWithCI p (firstn (length p) s) = true.
Proof.
  induction p as [| a p IH]; intros s H; [reflexivity |].
  destruct s as [| b s]; cbn in H; [discriminate |].
  apply andb_true_iff in H. destruct H as [H1 H2].
  cbn. rewrite H1. cbn. apply IH. exact H2.
Qed.

(** A match has the length of the word, and is the word up to the case
    of its letters. *)
Lemma matchAllAux_word :
  forall body s prev i skip j m,
    In (j, m) (matchAllAux body prev i skip s) ->
    length m = length body /\ startsWithCI body m = true.
Proof.
  intros body. induction s as [| c s IH]; intros prev i skip j m H; cbn in H.
  - contradiction.
  - destruct skip as [| k].
    + destruct (matchHere body prev (c :: s)) eqn:E.
      * destruct H as [H | H].
        -- inversion H; subst. unfold matchHere in E.
           apply andb_true_iff in E. destruct E as [E _].
           apply andb_true_iff in E. destruct E as [_ E].
           split; [| apply startsWithCI_firstn; exact E].
           apply startsWithCI_length in E. apply firstn_length_le. exact E.
        -- eapply IH. exact H.
      * eapply IH. exact H.
    + eapply IH. exact H.
Qed.

Lemma matchAll_word :
  forall body text j m,
    In (j, m) (matchAll body text) ->
    length m = length body /\ startsWithCI body m = true.
Proof. intros body text j m H. eapply matchAllAux_word. exact H. Qed.

Lemma element_In :
  forall (A : Type) (l : list A) (i : Z) (x : A), element l i = Some x -> In x l.
Proof.
  intros A l i x H. unfold element in H.
  destruct (i <? 0)%Z; [discriminate |]. eapply nth_error_In. exact H.
Qed.

Lemma element_in_range :
  forall (A : Type) (l : list A) (i : Z),
    (0 <= i < Z.of_nat (length l))%Z -> exists x, element l i = Some x.
Proof.
  intros A l i H. unfold element.
  destruct (i <? 0)%Z eqn:E; [apply Z.ltb_lt in E; lia |].
  destruct (nth_error l (Z.to_nat i)) as [x |] eqn:En; [exists x; reflexivity |].
  apply nth_error_None in En. lia.
Qed.

Lemma RegExpWord_body :
  forall word body, RegExpWord word = WordPattern body -> body = word.
Proof.
  intros word body H. unfold RegExpWord in H. cbn zeta in H.
  destruct (otherPattern word) as [exec |].
  - destruct word as [| c word]; [discriminate |].
    destruct (forallb (fun c0 => negb (isSyntaxChar c0) && (c0 <? 256)%N) (c :: word)).
    + inversion H. reflexivity.
    + destruct (forallb (fun c0 => negb (isSyntaxChar c0) || isParen c0) (c :: word)
                && negb (parensBalanced (c :: word) 0)); discriminate.
  - destruct word as [| c word]; [discriminate |].
    destruct (forallb (fun c0 => negb (isSyntaxChar c0) && (c0 <? 256)%N) (c :: word)).
    + inversion H. reflexivity.
    + destruct (forallb (fun c0 => negb (isSyntaxChar c0) || isParen c0) (c :: word)
                && negb (parensBalanced (c :: word) 0)); discriminate.
Qed.

(** The pattern built from a name with a parenthesis left open or closed
    alone is rejected. *)
Lemma RegExpWord_unbalanced :
  RegExpWord (js "Tom)") = InvalidPattern /\ RegExpWord (js "(Tom") = InvalidPattern.
Proof. split; vm_compute; reflexivity. Qed.

(** *** The analyzer: scene type *)

(** C10. For every text the dominant type that [determineSceneType]
    returns is action, dialogue or exposition, never the initial value
    mixed: exposition is set exactly when neither the action condition
    nor the dialogue condition holds. *)
Theorem determineSceneType_never_mixed :
  forall text : jsstring,
    let s := determineSceneType text in
    dominantType s <> Mixed
    /\ (dominantType s = Action \/ dominantType s = Dialogue
        \/ dominantType s = Exposition)
    /\ (dominantType s = Exposition
        <-> isAction s = false /\ isDialogue s = false)
    /\ sceneKindName (dominantType s) <> js "mixed".
Proof.
  intros text s. subst s. unfold determineSceneType. cbn [dominantType isAction isDialogue].
  destruct (5 <? length (matchAlternation actionVerbWords text 0)) eqn:Ha;
    destruct ((5 <? length (matchQuoted text 0))
              || (5 <? length (matchAlternation dialogueTagWords text 0))) eqn:Hd;
    cbn; repeat split; try discriminate; auto;
    try (intros [? ?]; discriminate); try (intro H; discriminate H).
Qed.

(** *** The analyzer: point of view *)

(** No word of a text in lower case is the pronoun I. *)
Lemma lowered_word_not_I :
  forall text word,
    In word (splitRuns isSpace (toLowerCase text)) ->
    eqb (dropNonWord word) (js "I") = false.
Proof.
  intros text word H.
  pose proof (splitRunsAux_units (fun c => lowerUnit c = [c]) isSpace
                (toLowerCase text) [] false (toLowerCase_units text) (Forall_nil _))
    as Hall.
  rewrite Forall_forall in Hall. specialize (Hall word H).
  apply eqb_neq. intro E.
  assert (Hd : Forall (fun c => lowerUnit c = [c]) (dropNonWord word)).
  { unfold dropNonWord. rewrite Forall_forall in *. intros c Hc.
    apply filter_In in Hc. apply Hall. apply Hc. }
  rewrite E in Hd. inversion Hd as [| ? ? H1 _]. vm_compute in H1. discriminate H1.
Qed.

(** The pronoun I is never counted: the count of the first person is
    the count of the seven other pronouns of the list. *)
Lemma countPronouns_never_I :
  forall text,
    firstPerson (countPronouns text)
    = length (filter (isPronoun (map js ["me"; "my"; "mine"; "we"; "us"; "our"; "ours"]))
                (splitRuns isSpace (toLowerCase text))).
Proof.
  intro text. unfold countPronouns. cbn [firstPerson]. f_equal.
  apply filter_ext_in. intros word H.
  apply lowered_word_not_I in H.
  unfold isPronoun, firstPersonPronouns. cbn [map existsb]. rewrite H. reflexivity.
Qed.

(** C3. A text whose only first-person pronoun is the word I is not
    classified first-person: the words are compared in lower case with a
    list that holds the capital I. *)
Theorem pointOfView_lone_I :
  firstPerson (countPronouns loneI) = 0
  /\ pointOfViewOf (identifyCharacterFocus loneI) = Unclear
  /\ pointOfViewOf (identifyCharacterFocus (js "I saw her.")) = ThirdPerson.
Proof. repeat split; vm_compute; reflexivity. Qed.

(** *** The analyzer: repeated words *)

(** The frequency table counts the words of more than three letters. *)
Lemma wordFrequencyOf_filter :
  forall text,
    wordFrequencyOf text
    = fold_left increment
        (filter (fun word => 3 <? length word) (matchWords (toLowerCase text))) [].
Proof.
  intro text. unfold wordFrequencyOf.
  generalize (@nil (jsstring * tally)). generalize (matchWords (toLowerCase text)).
  induction l as [| w l IH]; intro o; cbn [fold_left filter]; [reflexivity |].
  destruct (3 <? length w); cbn [fold_left]; apply IH.
Qed.

Lemma wordFrequencyOf_spec :
  forall text,
    NoDup (map fst (wordFrequencyOf text))
    /\ (forall w,
          tallyOf (wordFrequencyOf text) w
          = tallyAfter (filter (fun word => 3 <? length word)
                          (matchWords (toLowerCase text))) w).
Proof.
  intro text. rewrite wordFrequencyOf_filter.
  apply (increment_all_spec _ [] []).
  - constructor.
  - intro k'. reflexivity.
Qed.

(** The words that [findRepeatedWords] keeps, before the sort: each with
    its number of occurrences, more than [k], and no word twice. *)
Lemma above_wordFrequency :
  forall text k,
    NoDup (map fst (above k (entries (wordFrequencyOf text))))
    /\ (forall w n,
          In (w, n) (above k (entries (wordFrequencyOf text))) ->
          n = wordOccurrences text w /\ k < n /\ 3 < length w)
    /\ (forall w,
          3 < length w -> k < wordOccurrences text w ->
          eqb w (js "__proto__") = false ->
          existsb (eqb w) inheritedKeys = false ->
          In (w, wordOccurrences text w) (above k (entries (wordFrequencyOf text)))).
Proof.
  intros text k. destruct (wordFrequencyOf_spec text) as [Hnd Hspec].
  pose proof (entries_perm (wordFrequencyOf text)) as Hperm.
  assert (Hnd' : NoDup (map fst (entries (wordFrequencyOf text)))).
  { eapply Permutation_NoDup; [| exact Hnd].
    apply Permutation_map. apply Permutation_sym. exact Hperm. }
  split; [apply above_NoDup; exact Hnd' |]. split.
  - intros w n H. apply above_In in H. destruct H as [H Hk].
    apply (Permutation_in _ Hperm) in H.
    apply (In_tallyOf _ _ _ Hnd) in H. rewrite Hspec in H.
    unfold tallyAfter in H. rewrite occurrencesIn_filter in H.
    fold (wordOccurrences text w) in H.
    destruct (3 <? length w) eqn:El.
    + apply Nat.ltb_lt in El.
      destruct (wordOccurrences text w =? 0); [discriminate |].
      destruct (eqb w (js "__proto__")); [discriminate |].
      destruct (existsb (eqb w) inheritedKeys); [discriminate |].
      inversion H. subst. repeat split; assumption.
    + cbn in H. discriminate.
  - intros w Hl Hk Hp Hi. apply above_In. split; [| exact Hk].
    apply (Permutation_in _ (Permutation_sym Hperm)).
    apply tallyOf_In. rewrite Hspec. unfold tallyAfter.
    rewrite occurrencesIn_filter. fold (wordOccurrences text w).
    apply Nat.ltb_lt in Hl. rewrite Hl, Hp, Hi.
    replace (wordOccurrences text w =? 0) with false
      by (symmetry; apply Nat.eqb_neq; lia).
    reflexivity.
Qed.

(** The repeated words: no word twice, each in lower case, each with the
    number of its occurrences, which is more than 2. *)
Lemma findRepeatedWords_spec :
  forall text,
    NoDup (map fst (findRepeatedWords text))
    /\ (forall w n,
          In (w, n) (findRepeatedWords text) ->
          n = wordOccurrences text w /\ 2 < n /\ 3 < length w /\ toLowerCase w = w).
Proof.
  intro text. unfold findRepeatedWords.
  destruct (above_wordFrequency text 2) as (Hnd & Hin & _).
  split.
  - rewrite <- firstn_map. apply NoDup_firstn.
    eapply Permutation_NoDup; [| exact Hnd].
    apply Permutation_map. apply Permutation_sym. apply sortByCount_perm.
  - intros w n H. apply In_firstn in H.
    apply (Permutation_in _ (sortByCount_perm _)) in H.
    destruct (Hin _ _ H) as (H1 & H2 & H3).
    repeat split; try assumption.
    apply (lowered_word text). apply occurrencesIn_pos.
    unfold wordOccurrences in H1. lia.
Qed.

(** C6, as stated, fails: with five statues and no other word more than
    three times, a word that occurs three times is listed too. *)
Lemma statue_not_alone :
  wordOccurrences statues (js "statue") = 5
  /\ (forall w, w <> js "statue" -> wordOccurrences statues w <= 3)
  /\ findRepeatedWords statues = [(js "statue", 5); (js "sarah", 3)]
  /\ findRepeatedWords statues <> [(js "statue", 5)].
Proof.
  split; [vm_compute; reflexivity |].
  split; [apply occurrencesIn_bound; vm_compute; reflexivity |].
  assert (H : findRepeatedWords statues = [(js "statue", 5); (js "sarah", 3)])
    by (vm_compute; reflexivity).
  split; [exact H |]. rewrite H. discriminate.
Qed.

(** C6, amended. For every text in which the word statue occurs exactly
    5 times and no other word occurs more than 2 times, the list of
    repeated words holds exactly one entry, the word statue with the
    count 5. *)
Theorem findRepeatedWords_statue :
  forall text : jsstring,
    wordOccurrences text (js "statue") = 5 ->
    (forall w, w <> js "statue" -> wordOccurrences text w <= 2) ->
    findRepeatedWords text = [(js "statue", 5)].
Proof.
  intros text H5 Hothers.
  destruct (above_wordFrequency text 2) as (Hnd & Hin & Hex).
  assert (Hone : above 2 (entries (wordFrequencyOf text)) = [(js "statue", 5)]).
  { apply singleton_by_key.
    - exact Hnd.
    - rewrite <- H5. apply Hex.
      + vm_compute. lia.
      + rewrite H5. lia.
      + vm_compute. reflexivity.
      + vm_compute. reflexivity.
    - intros [w n] H. cbn [fst]. apply Hin in H. destruct H as (Hn & Hk & _).
      destruct (eqb w (js "statue")) eqn:E; [apply eqb_eq; exact E |].
      apply eqb_neq in E. specialize (Hothers w E). lia. }
  unfold findRepeatedWords. rewrite Hone. reflexivity.
Qed.

Lemma findRepeatedWords_statue_witness :
  findRepeatedWords statuesAlone = [(js "statue", 5)].
Proof.
  apply findRepeatedWords_statue.
  - vm_compute. reflexivity.
  - apply occurrencesIn_bound. vm_compute. reflexivity.
Defined.

(** *** The analyzer: texts without a sentence, and a text that makes it raise *)

(** Without a sentence the average sentence length is the quotient of
    zero by zero. *)
Lemma average_without_sentence :
  forall text : jsstring,
    sentencesOf text = [] ->
    PrimFloat.is_nan (averageSentenceLength (evaluateProseSmoothingNeed text)) = true.
Proof.
  intros text H. unfold evaluateProseSmoothingNeed. cbn [averageSentenceLength].
  rewrite H. vm_compute. reflexivity.
Qed.

(** On the empty text every count is zero, the point of view is unclear
    and the mood is neutral; the average sentence length is a quotient
    by zero. *)
Lemma analyzeText_empty :
  exists report,
    analyzeText [] = Return report
    /\ wordCount report = 0
    /\ charCount report = 0
    /\ pointOfViewOf (characterFocus (contextualAssessment report)) = Unclear
    /\ mood (moodAndTone (contextualAssessment report)) = Neutral
    /\ dominantType (sceneType (contextualAssessment report)) = Exposition
    /\ repeatedWords (repetitionPatterns report) = []
    /\ PrimFloat.is_nan
         (averageSentenceLength (needsProseSmoothening (enhancementEvaluation report)))
       = true.
Proof.
  destruct (analyzeText []) as [report | e | l] eqn:E;
    [| vm_compute in E; discriminate E | vm_compute in E; discriminate E].
  exists report. split; [reflexivity |].
  vm_compute in E. apply Return_inj in E. subst report.
  repeat split; vm_compute; reflexivity.
Qed.

Lemma analyzeText_parenthesised : analyzeText parenthesised = Throw SyntaxError.
Proof. vm_compute. reflexivity. Qed.

(** C1. The analyzer does not return normally on every text, and its
    average sentence length is not 0 on a text without a sentence: on
    the empty text and on a text of spaces it is not-a-number, and the
    analysis of a text with a name in parentheses raises a SyntaxError. *)
Theorem analyzer_average_nan_and_raise :
  PrimFloat.is_nan (averageSentenceLength (evaluateProseSmoothingNeed [])) = true
  /\ PrimFloat.is_nan
       (averageSentenceLength (evaluateProseSmoothingNeed (js "   "))) = true
  /\ PrimFloat.eqb (averageSentenceLength (evaluateProseSmoothingNeed [])) 0%float
     = false
  /\ analyzeText parenthesised = Throw SyntaxError
  /\ evaluateGoldenShadowNeed parenthesised = Throw SyntaxError.
Proof. repeat split; vm_compute; reflexivity. Qed.

(** *** The enhancer: calls that raise *)

(** C2. [customEnhanceText] raises on a well-formed text: with a name in
    parentheses the analysis it starts with throws a SyntaxError,
    whatever the target, the flags and the draws. *)
Theorem customEnhanceText_raises :
  forall (expansionTarget : float) (options : EnhancementOptions) (draws : list Q),
    customEnhanceText parenthesised expansionTarget options draws = Throw SyntaxError
    /\ enhanceText parenthesised expansionTarget draws = Throw SyntaxError.
Proof.
  intros. unfold enhanceText, customEnhanceText, customEnhanceTextLogged, bindR, lift.
  rewrite analyzeText_parenthesised. split; reflexivity.
Qed.

(** C9. With the five flags false [customEnhanceText] still starts with
    the analysis of the text, and raises with it: the text with a name in
    parentheses is not returned with its summary. *)
Theorem customEnhanceText_disabled_raises :
  forall (expansionTarget : float) (draws : list Q),
    customEnhanceText parenthesised expansionTarget noTechniques draws
    = Throw SyntaxError.
Proof.
  intros. unfold customEnhanceText, customEnhanceTextLogged, bindR, lift.
  rewrite analyzeText_parenthesised. reflexivity.
Qed.

(** With the five flags false, a call that returns gives the text and the
    summary of an unchanged text. *)
Lemma customEnhanceText_disabled_returns :
  forall (text : jsstring) (expansionTarget : float) (draws : list Q) result rest,
    customEnhanceText text expansionTarget noTechniques draws = Return (result, rest) ->
    result = text ++ paragraphBreak
             ++ generateEnhancementSummary (countWords text) (length text)
                  (countWords text) (length text) expansionTarget noTechniques
    /\ rest = draws.
Proof.
  intros text expansionTarget draws result rest.
  unfold customEnhanceText, customEnhanceTextLogged, bindR, lift, ret.
  destruct (analyzeText text); try discriminate.
  cbn. intro H. inversion H. split; reflexivity.
Qed.

(** A call with the five flags false returns as soon as the analysis does. *)
Lemma customEnhanceText_disabled_total :
  forall (text : jsstring) (expansionTarget : float) (draws : list Q) report,
    analyzeText text = Return report ->
    customEnhanceText text expansionTarget noTechniques draws
    = Return (text ++ paragraphBreak
              ++ generateEnhancementSummary (countWords text) (length text)
                   (countWords text) (length text) expansionTarget noTechniques,
              draws).
Proof.
  intros text expansionTarget draws report H.
  unfold customEnhanceText, customEnhanceTextLogged, bindR, lift, ret.
  rewrite H. reflexivity.
Qed.

(** The enhancement of the empty text: the four sentences of the senses,
    the paragraph of the object and the summary, none of which depends
    on a match in the text; here the draws add no transition. *)
Lemma enhanceText_empty :
  enhanceText [] 200 [1 # 4; 1 # 4]
  = Return (visualAddition ++ auditoryAddition ++ tactileAddition ++ olfactoryAddition
            ++ paragraphBreak ++ objectParagraph ++ paragraphBreak
            ++ generateEnhancementSummary 0 0 196 1376 200 allTechniques, []).
Proof. vm_compute. reflexivity. Qed.

(** *** The enhancer: the summary *)

(** What [techniquesUsed] lists: the names of the flags that are set, in
    the order of the stages. *)
Lemma techniquesUsed_flags :
  forall options : EnhancementOptions,
    techniquesUsed options
    = map snd
        (filter fst
           [ (enableGoldenShadow options, js "Golden Shadow Enhancement");
             (enableEnvironmental options, js "Environmental Expansion");
             (enableActionScene options, js "Action Scene Enhancement");
             (enableProseSmoother options, js "Prose Smoothing");
             (enableRepetitionElimination options, js "Repetition Elimination") ]).
Proof.
  intros [g e a p r]. unfold techniquesUsed.
  cbn [enableGoldenShadow enableEnvironmental enableActionScene enableProseSmoother
       enableRepetitionElimination].
  destruct g, e, a, p, r; cbn [map filter fst snd app]; reflexivity.
Qed.

(** The result of [customEnhanceText] is the enhanced text, a paragraph
    break and the summary. *)
Lemma customEnhanceTextLogged_shape :
  forall text expansionTarget options draws result log rest,
    customEnhanceTextLogged text expansionTarget options draws
    = Return (result, log, rest) ->
    exists enhancedText,
      result = enhancedText ++ paragraphBreak
               ++ generateEnhancementSummary (countWords text) (length text)
                    (countWords enhancedText) (length enhancedText)
                    expansionTarget options.
Proof.
  intros text expansionTarget options draws result log rest H.
  unfold customEnhanceTextLogged in H.
  repeat (apply bindR_Return in H; destruct H as (? & ? & _ & H)).
  apply ret_Return in H. inversion H. eexists. reflexivity.
Qed.

Lemma customEnhanceText_logged :
  forall text expansionTarget options draws result rest,
    customEnhanceText text expansionTarget options draws = Return (result, rest) ->
    exists log,
      customEnhanceTextLogged text expansionTarget options draws
      = Return (result, log, rest).
Proof.
  intros text expansionTarget options draws result rest H.
  unfold customEnhanceText in H.
  apply bindR_Return in H. destruct H as ([r log] & rest' & H1 & H2).
  apply ret_Return in H2. inversion H2. subst. exists log. exact H1.
Qed.

Lemma join_app :
  forall (sep : jsstring) (a b : list jsstring),
    a <> [] -> b <> [] -> join sep (a ++ b) = join sep a ++ sep ++ join sep b.
Proof.
  intros sep a b Ha Hb. induction a as [| x a IH]; [contradiction |].
  destruct a as [| y a].
  - cbn [app]. rewrite (join_cons sep x b Hb). reflexivity.
  - change ((x :: y :: a) ++ b) with (x :: (y :: a) ++ b).
    rewrite (join_cons sep x ((y :: a) ++ b)) by discriminate.
    rewrite (join_cons sep x (y :: a)) by discriminate.
    rewrite IH by discriminate. rewrite <- !app_assoc. reflexivity.
Qed.

(** The decimal digits of a number hold no line feed. *)
Lemma digits_no_line_feed :
  forall d : Decimal.uint, ~ In nl (js (NilEmpty.string_of_uint d)).
Proof.
  induction d as [| d IH | d IH | d IH | d IH | d IH | d IH | d IH | d IH | d IH | d IH];
    cbn [NilEmpty.string_of_uint];
    [intros [] | | | | | | | | | |];
    match goal with
    | |- ~ In nl (js (String ?c ?s)) =>
        change (js (String c s)) with (N_of_ascii c :: js s)
    end;
    (intros [H | H]; [vm_compute in H; discriminate H | exact (IH H)]).
Qed.

Lemma natToString_no_line_feed : forall n, ~ In nl (natToString n).
Proof.
  intro n. unfold natToString, NilZero.string_of_uint.
  destruct (Nat.to_uint n) eqn:E;
    try (rewrite <- E; apply digits_no_line_feed).
  intros [H | []]. vm_compute in H. discriminate H.
Qed.

Lemma literal_no_line_feed :
  forall s : jsstring, forallb (fun c => negb (N.eqb c nl)) s = true -> ~ In nl s.
Proof.
  intros s Hs Hin. rewrite forallb_forall in Hs. specialize (Hs _ Hin).
  rewrite N.eqb_refl in Hs. discriminate Hs.
Qed.

Lemma intToString_no_line_feed : forall z, ~ In nl (intToString z).
Proof.
  intro z. unfold intToString, NilZero.string_of_int.
  destruct (Z.to_int z) as [d | d].
  - unfold NilZero.string_of_uint.
    destruct d eqn:E; try (rewrite <- E; apply digits_no_line_feed).
    apply literal_no_line_feed. vm_compute. reflexivity.
  - match goal with
    | |- ~ In nl (js (String ?c ?s)) =>
        change (js (String c s)) with (N_of_ascii c :: js s)
    end.
    intros [H | H]; [vm_compute in H; discriminate H |].
    revert H. unfold NilZero.string_of_uint.
    destruct d eqn:E; try (rewrite <- E; apply digits_no_line_feed).
    apply literal_no_line_feed. vm_compute. reflexivity.
Qed.

Lemma roundedToString_no_line_feed : forall r, ~ In nl (roundedToString r).
Proof.
  intros [| [|] | z]; cbn [roundedToString];
    try (apply literal_no_line_feed; vm_compute; reflexivity).
  apply intToString_no_line_feed.
Qed.

(** Number::toString writes digits, a point, a sign and an [e]. *)
Lemma writeDecimal_no_line_feed : forall s k n, ~ In nl (writeDecimal s k n).
Proof.
  intros s k n.
  assert (Hd : ~ In nl (intToString s)) by apply intToString_no_line_feed.
  assert (Hf : forall i, ~ In nl (firstn i (intToString s)))
    by (intros i H; apply Hd; exact (In_firstn _ _ _ _ H)).
  assert (Hs : forall i, ~ In nl (skipn i (intToString s))).
  { intros i H. apply Hd. rewrite <- (firstn_skipn i (intToString s)).
    apply in_or_app. right. exact H. }
  assert (Hz : forall i, ~ In nl (repeat 48%N i))
    by (intros i H; apply repeat_spec in H; discriminate H).
  assert (He : ~ In nl (natToString (Z.abs_nat (k - 1))))
    by apply natToString_no_line_feed.
  assert (Hsign : ~ In nl (js (if (0 <=? k - 1)%Z then "+" else "-")))
    by (destruct (0 <=? k - 1)%Z; apply literal_no_line_feed; vm_compute; reflexivity).
  assert (Hpoint : ~ In nl (js ".")) by (apply literal_no_line_feed; reflexivity).
  assert (Hzero : ~ In nl (js "0.")) by (apply literal_no_line_feed; reflexivity).
  assert (Hexp : ~ In nl (js "e")) by (apply literal_no_line_feed; reflexivity).
  unfold writeDecimal. cbv zeta.
  repeat match goal with |- context [if ?b then _ else _] => destruct b end;
    repeat rewrite in_app_iff; intro H;
    repeat match type of H with _ \/ _ => destruct H as [H | H] end;
    first [ exact (Hd H) | exact (Hf _ H) | exact (Hs _ H) | exact (Hz _ H)
          | exact (He H) | exact (Hpoint H) | exact (Hzero H) | exact (Hexp H)
          | exact (Hsign H)
          | revert H; apply literal_no_line_feed; vm_compute; reflexivity ].
Qed.

Lemma numberToString_no_line_feed : forall x, ~ In nl (numberToString x).
Proof.
  intro x. unfold numberToString.
  destruct (Prim2SF x) as [sign | [|] | | sign m e];
    [apply literal_no_line_feed; reflexivity ..|].
  cbv zeta.
  destruct (shortest m e (dyadic (Z.pos m) e) (decimalExponent (dyadic (Z.pos m) e)) 1 16)
    as [[s k] n].
  rewrite in_app_iff. intros [H | H].
  - revert H. destruct sign; [apply literal_no_line_feed; reflexivity | intros []].
  - exact (writeDecimal_no_line_feed _ _ _ H).
Qed.

(** Splitting at a unit: the pieces of a text that ends before the unit. *)
Lemma splitOnAux_piece :
  forall (c : N) (x cur : jsstring),
    ~ In c x -> splitOnAux [c] x cur 0 = [rev cur ++ x].
Proof.
  intros c. induction x as [| d x IH]; intros cur H; cbn [splitOnAux].
  - rewrite app_nil_r. reflexivity.
  - cbn [startsWith].
    replace (N.eqb c d) with false
      by (symmetry; apply N.eqb_neq; intro E; apply H; left; symmetry; exact E).
    cbn [andb]. rewrite IH by (intro Hx; apply H; right; exact Hx).
    cbn [rev]. rewrite <- app_assoc. reflexivity.
Qed.

Lemma splitOnAux_pieces :
  forall (c : N) (x t cur : jsstring),
    ~ In c x ->
    splitOnAux [c] (x ++ c :: t) cur 0 = (rev cur ++ x) :: splitOn [c] t.
Proof.
  intros c. induction x as [| d x IH]; intros t cur H; cbn [app splitOnAux].
  - cbn [startsWith length Nat.sub]. rewrite N.eqb_refl. cbn [andb].
    rewrite app_nil_r. reflexivity.
  - cbn [startsWith].
    replace (N.eqb c d) with false
      by (symmetry; apply N.eqb_neq; intro E; apply H; left; symmetry; exact E).
    cbn [andb]. rewrite IH by (intro Hx; apply H; right; exact Hx).
    cbn [rev]. rewrite <- app_assoc. reflexivity.
Qed.

(** The lines of lines put together are these lines. *)
Lemma splitOn_join :
  forall (c : N) (lines : list jsstring),
    lines <> [] ->
    Forall (fun line => ~ In c line) lines ->
    splitOn [c] (join [c] lines) = lines.
Proof.
  intros c lines Hne H. induction H as [| x lines Hx H IH]; [contradiction |].
  destruct lines as [| y lines].
  - cbn [join]. unfold splitOn. rewrite splitOnAux_piece by exact Hx. reflexivity.
  - change (join [c] (x :: y :: lines)) with (x ++ c :: join [c] (y :: lines)).
    unfold splitOn at 1. rewrite splitOnAux_pieces by exact Hx.
    rewrite IH by discriminate. reflexivity.
Qed.

(** A line of the summary that holds a number, and a line that is
    written out, hold no line feed. *)
Ltac no_line_feed :=
  repeat rewrite in_app_iff;
  let H := fresh "H" in
  intro H;
  repeat match type of H with _ \/ _ => destruct H as [H | H] end;
  first [ exact (natToString_no_line_feed _ H)
        | exact (roundedToString_no_line_feed _ H)
        | exact (numberToString_no_line_feed _ H)
        | revert H; apply literal_no_line_feed; vm_compute; reflexivity ].

(** The lines of the summary: the results, the heading of the
    techniques, a line for each technique of [techniquesUsed], or an
    empty line when there is none, an empty line and the signature. *)
Lemma generateEnhancementSummary_lines :
  forall originalWordCount originalCharCount finalWordCount finalCharCount
         expansionTarget options,
    splitOn [nl]
      (generateEnhancementSummary originalWordCount originalCharCount
         finalWordCount finalCharCount expansionTarget options)
    = [ js "---";
        [];
        js "## UNO Enhancement Summary";
        [];
        js "**Expansion Results:**";
        js "- Original Word Count: " ++ natToString originalWordCount;
        js "- Final Word Count: " ++ natToString finalWordCount;
        js "- Word Expansion: "
          ++ roundedToString (expansionPercent finalWordCount originalWordCount)
          ++ js "% of original (" ++ numberToString expansionTarget ++ js "% target)";
        js "- Original Character Count: " ++ natToString originalCharCount;
        js "- Final Character Count: " ++ natToString finalCharCount;
        js "- Character Expansion: "
          ++ roundedToString (expansionPercent finalCharCount originalCharCount)
          ++ js "% of original";
        [];
        js "**Enhancement Techniques Applied:**" ]
      ++ match techniquesUsed options with
         | [] => [[]]
         | techniques => map (fun technique => js "- " ++ technique) techniques
         end
      ++ [ []; js "*Enhanced by UNO (Unified Narrative Operator)*" ].
Proof.
  intros ow oc fw fc target options.
  match goal with
  | |- _ = ?A ++ ?T ++ ?F =>
      assert (Hjoin : generateEnhancementSummary ow oc fw fc target options
                      = join [nl] (A ++ T ++ F));
      [| rewrite Hjoin; apply splitOn_join;
         [ discriminate
         | apply Forall_app; split;
           [ repeat (apply Forall_cons; [no_line_feed |]); apply Forall_nil
           | apply Forall_app; split;
             [ destruct options as [g e a p r]; destruct g, e, a, p, r;
               repeat (apply Forall_cons; [no_line_feed |]); apply Forall_nil
             | repeat (apply Forall_cons; [no_line_feed |]); apply Forall_nil ] ] ] ]
  end.
  unfold generateEnhancementSummary. cbv zeta.
  match goal with
  | |- join ?sep ?l = join _ (?A ++ ?T ++ ?F) =>
      transitivity (join sep (A ++ [techniqueLines (techniquesUsed options)] ++ F));
      [cbn [app]; reflexivity |];
      rewrite (join_app sep A ([techniqueLines (techniquesUsed options)] ++ F))
        by discriminate;
      rewrite (join_app sep A (T ++ F))
        by (destruct options as [g e a p r]; destruct g, e, a, p, r; discriminate);
      f_equal; f_equal
  end.
  destruct options as [g e a p r]. destruct g, e, a, p, r; vm_compute; reflexivity.
Qed.

Lemma differs_at_head :
  forall x p s : jsstring,
    (4 <=? length p) && negb (eqb (firstn 4 p) (firstn 4 x)) = true ->
    p ++ s <> x.
Proof.
  intros x p s H E. apply andb_true_iff in H. destruct H as [Hl Hd].
  apply Nat.leb_le in Hl. apply negb_true_iff in Hd. apply eqb_neq in Hd.
  apply Hd. rewrite <- E. rewrite firstn_app.
  replace (4 - length p) with 0 by lia. cbn [firstn]. rewrite app_nil_r. reflexivity.
Qed.

(** A line of a technique is none of the lines of the results. *)
Ltac other_line :=
  first [ apply differs_at_head; vm_compute; reflexivity
        | let E := fresh "E" in intro E; vm_compute in E; discriminate E ].

(** The summary lists a technique exactly when its flag is set. *)
Lemma generateEnhancementSummary_flags :
  forall originalWordCount originalCharCount finalWordCount finalCharCount
         expansionTarget options,
    let lines :=
      splitOn [nl]
        (generateEnhancementSummary originalWordCount originalCharCount
           finalWordCount finalCharCount expansionTarget options) in
    (In (js "- Golden Shadow Enhancement") lines <-> enableGoldenShadow options = true)
    /\ (In (js "- Environmental Expansion") lines <-> enableEnvironmental options = true)
    /\ (In (js "- Action Scene Enhancement") lines <-> enableActionScene options = true)
    /\ (In (js "- Prose Smoothing") lines <-> enableProseSmoother options = true)
    /\ (In (js "- Repetition Elimination") lines
        <-> enableRepetitionElimination options = true).
Proof.
  intros ow oc fw fc target options. cbv zeta.
  rewrite generateEnhancementSummary_lines.
  assert (Hin : forall (x : jsstring) (l : list jsstring),
             In x l <-> existsb (eqb x) l = true).
  { intros x l. rewrite existsb_exists. split.
    - intro H. exists x. split; [exact H | apply eqb_refl].
    - intros (y & Hy & E). apply eqb_eq in E. subst y. exact Hy. }
  assert (Hlines : forall (x : jsstring) (flag : bool) (head middle : list jsstring),
             (forall y, In y head -> y <> x) ->
             existsb (eqb x) middle = flag ->
             In x (head ++ middle) <-> flag = true).
  { intros x flag head middle Hh Hm. rewrite in_app_iff, (Hin x middle), Hm.
    split; [| tauto].
    intros [H | H]; [exfalso; exact (Hh x H eq_refl) | exact H]. }
  split; [| split; [| split; [| split]]];
    (apply Hlines;
     [ intros y Hy; cbn [In] in Hy;
       repeat (destruct Hy as [Hy | Hy]; [subst y; other_line |]);
       contradiction
     | destruct options as [g e a p r]; destruct g, e, a, p, r;
       vm_compute; reflexivity ]).
Qed.

(** With the action stage skipped, the flag of the stage changes the
    summary and nothing else. *)
Lemma customEnhanceTextLogged_skipped_action_stage :
  forall text expansionTarget options draws result log rest,
    isAction (determineSceneType text) = false ->
    customEnhanceTextLogged text expansionTarget options draws
    = Return (result, log, rest) ->
    exists enhancedText,
      result = enhancedText ++ paragraphBreak
               ++ generateEnhancementSummary (countWords text) (length text)
                    (countWords enhancedText) (length enhancedText)
                    expansionTarget options
      /\ customEnhanceTextLogged text expansionTarget (withoutActionScene options) draws
         = Return (enhancedText ++ paragraphBreak
                   ++ generateEnhancementSummary (countWords text) (length text)
                        (countWords enhancedText) (length enhancedText)
                        expansionTarget (withoutActionScene options),
                   log, rest).
Proof.
  intros text expansionTarget options draws result log rest Hs H.
  unfold customEnhanceTextLogged in H. cbv zeta in H.
  apply bindR_Return in H. destruct H as (report & draws0 & H0 & H).
  apply bindR_Return in H. destruct H as (text1 & draws1 & H1 & H).
  apply bindR_Return in H. destruct H as (text2 & draws2 & H2 & H).
  apply bindR_Return in H. destruct H as (text3 & draws3 & H3 & H).
  apply bindR_Return in H. destruct H as (text4 & draws4 & H4 & H).
  apply bindR_Return in H. destruct H as ([text5 log5] & draws5 & H5 & H).
  cbn [fst snd] in H. apply ret_Return_pair in H. destruct H as [H Hd].
  apply pair_equal_spec in H. destruct H as [Hr Hl]. subst result log rest.
  assert (H3' : text3 = text2 /\ draws3 = draws2).
  { rewrite Hs in H3. destruct (enableActionScene options);
      apply ret_Return_pair in H3; exact H3. }
  destruct H3' as [Ht Hd]. subst text3 draws3. clear H3.
  exists text5. split; [reflexivity |].
  unfold customEnhanceTextLogged. cbv zeta.
  cbn [withoutActionScene enableGoldenShadow enableEnvironmental enableActionScene
       enableProseSmoother enableRepetitionElimination].
  unfold bindR at 1. rewrite H0.
  unfold bindR at 1. rewrite H1.
  unfold bindR at 1. rewrite H2.
  unfold bindR at 1. unfold ret at 1.
  unfold bindR at 1. rewrite H4.
  unfold bindR at 1. rewrite H5.
  reflexivity.
Qed.

(** C5. The summary lists a technique exactly when its flag is set,
    the action stage as the others.  For a text that is no action scene
    the action stage is skipped: the call returns the very text it
    returns with the flag of the stage off, for the same draws, and yet,
    the flag being set, its summary lists Action Scene Enhancement among
    the techniques applied, which the summary of the call with the flag
    off does not. *)
Theorem summary_lists_skipped_action_stage :
  forall text expansionTarget options draws result rest,
    isAction (determineSceneType text) = false ->
    enableActionScene options = true ->
    customEnhanceText text expansionTarget options draws = Return (result, rest) ->
    exists enhancedText summary summary',
      result = enhancedText ++ paragraphBreak ++ summary
      /\ summary
         = generateEnhancementSummary (countWords text) (length text)
             (countWords enhancedText) (length enhancedText) expansionTarget options
      /\ customEnhanceText text expansionTarget (withoutActionScene options) draws
         = Return (enhancedText ++ paragraphBreak ++ summary', rest)
      /\ summary'
         = generateEnhancementSummary (countWords text) (length text)
             (countWords enhancedText) (length enhancedText) expansionTarget
             (withoutActionScene options)
      /\ In (js "- Action Scene Enhancement") (splitOn [nl] summary)
      /\ ~ In (js "- Action Scene Enhancement") (splitOn [nl] summary')
      /\ (In (js "- Golden Shadow Enhancement") (splitOn [nl] summary)
          <-> enableGoldenShadow options = true)
      /\ (In (js "- Environmental Expansion") (splitOn [nl] summary)
          <-> enableEnvironmental options = true)
      /\ (In (js "- Prose Smoothing") (splitOn [nl] summary)
          <-> enableProseSmoother options = true)
      /\ (In (js "- Repetition Elimination") (splitOn [nl] summary)
          <-> enableRepetitionElimination options = true).
Proof.
  intros text expansionTarget options draws result rest Hs Ha H.
  apply customEnhanceText_logged in H. destruct H as (log & H).
  destruct (customEnhanceTextLogged_skipped_action_stage _ _ _ _ _ _ _ Hs H)
    as (enhancedText & Hr & Hoff).
  eexists enhancedText, _, _.
  split; [exact Hr |]. split; [reflexivity |].
  split; [unfold customEnhanceText, bindR; rewrite Hoff; reflexivity |].
  split; [reflexivity |].
  destruct (generateEnhancementSummary_flags (countWords text) (length text)
              (countWords enhancedText) (length enhancedText) expansionTarget options)
    as (H1 & H2 & H3 & H4 & H5).
  destruct (generateEnhancementSummary_flags (countWords text) (length text)
              (countWords enhancedText) (length enhancedText) expansionTarget
              (withoutActionScene options))
    as (_ & _ & H3' & _).
  split; [apply H3; exact Ha |].
  split; [intro Hin; apply H3' in Hin; discriminate Hin |].
  split; [exact H1 |]. split; [exact H2 |]. split; [exact H4 | exact H5].
Qed.

(** *** The enhancer: the repetition stage *)

(** The ceiling of the exact product is the number that the source
    computes in binary64, for every count up to 4000. *)
Lemma replaceCount_binary64 :
  forallb (fun n => match replaceCountBinary64 n with
                    | RInteger z => Z.eqb z (replaceCountOf n)
                    | _ => false
                    end) (seq 0 4001) = true.
Proof. vm_compute. reflexivity. Qed.

Lemma replaceCountOf_nonneg : forall n, (0 <= replaceCountOf n)%Z.
Proof.
  intro n. unfold replaceCountOf.
  rewrite Zle_Qle. eapply Qle_trans; [| apply Qle_ceiling].
  apply Qmult_le_0_compat; [| discriminate].
  change 0%Q with (inject_Z 0). rewrite <- Zle_Qle. lia.
Qed.

Lemma setAddZ_length :
  forall x l, length (setAddZ x l) <= S (length l).
Proof.
  induction l as [| y l IH]; cbn; [lia |].
  destruct (Z.eqb x y); cbn; lia.
Qed.

Lemma pickIndices_bound :
  forall draws replaceCount len acc picked rest,
    pickIndices replaceCount len acc draws = Return (picked, rest) ->
    (Z.of_nat (length acc) <= Z.max 0 replaceCount)%Z ->
    length acc <= len ->
    (Z.of_nat (length picked) <= Z.max 0 replaceCount)%Z /\ length picked <= len.
Proof.
  induction draws as [| r draws IH]; intros replaceCount len acc picked rest H Hacc Hlen;
    cbn [pickIndices] in H;
    destruct ((Z.of_nat (length acc) <? replaceCount)%Z && (length acc <? len)) eqn:E;
    try discriminate; try (inversion H; subst; split; assumption).
  apply andb_true_iff in E. destruct E as [E1 E2].
  apply Z.ltb_lt in E1. apply Nat.ltb_lt in E2.
  pose proof (setAddZ_length (randomIndex r len) acc) as Hs.
  apply (IH _ _ _ _ _ H); lia.
Qed.

Lemma insertDescending_length :
  forall x l, length (insertDescending x l) = S (length l).
Proof.
  induction l as [| y l IH]; cbn; [reflexivity |].
  destruct (x <? y)%Z; cbn; [rewrite IH |]; reflexivity.
Qed.

Lemma sortDescending_length : forall l, length (sortDescending l) = length l.
Proof.
  induction l as [| x l IH]; cbn; [reflexivity |].
  fold (sortDescending l). rewrite insertDescending_length, IH. reflexivity.
Qed.

(** What the loop over the sorted indices writes for one index: a match
    of the list and, in its place, a synonym of the list, capitalised when
    the match starts with a unit that is its own upper case. *)
Lemma replaceOccurrence_spec :
  forall replacements matches enhancedText log index draws enhancedText' log' rest,
    replaceOccurrence replacements matches (enhancedText, log) index draws
    = Return (enhancedText', log', rest) ->
    exists matchIndex matchedText replacement,
      In (matchIndex, matchedText) matches
      /\ enhancedText' = slice enhancedText 0 matchIndex ++ replacement
                         ++ sliceFrom enhancedText (matchIndex + length matchedText)
      /\ log' = log ++ [{| offset := matchIndex;
                           original := matchedText;
                           substitute := replacement |}]
      /\ ((firstIsUpper matchedText = true
           /\ exists w, In w replacements /\ replacement = capitalize w)
          \/ (firstIsUpper matchedText = false
              /\ (In replacement replacements \/ replacement = js "undefined"))).
Proof.
  intros replacements matches enhancedText log index draws enhancedText' log' rest H.
  unfold replaceOccurrence in H. cbn [fst snd] in H.
  destruct (element matches index) as [[matchIndex matchedText] |] eqn:Em;
    [| discriminate].
  apply bindR_Return in H. destruct H as (r & draws1 & _ & H).
  destruct matchedText as [| c matchedText]; [discriminate |].
  apply bindR_Return in H. destruct H as (replacement & draws2 & Hr & H).
  apply ret_Return in H. inversion H; subst. clear H.
  exists matchIndex, (c :: matchedText), replacement.
  split; [eapply element_In; exact Em |].
  split; [reflexivity |]. split; [reflexivity |].
  cbn [firstIsUpper]. destruct (isOwnUpperCase c).
  - left. split; [reflexivity |].
    destruct (element replacements (randomIndex r (length replacements)))
      as [w |] eqn:Ew; [| discriminate].
    apply ret_Return in Hr. inversion Hr; subst.
    exists w. split; [eapply element_In; exact Ew | reflexivity].
  - right. split; [reflexivity |].
    apply ret_Return in Hr. inversion Hr; subst.
    destruct (element replacements (randomIndex r (length replacements)))
      as [w |] eqn:Ew; cbn [orUndefined].
    + left. eapply element_In. exact Ew.
    + right. reflexivity.
Qed.

(** The synonyms of the headwords of more than four letters: lower case,
    capitalised by [capitalize], and at most two units shorter than the
    headword. *)
Lemma wordReplacements_table :
  forall word replacements w,
    In (word, replacements) wordReplacements ->
    4 < length word ->
    In w replacements \/ w = js "undefined" ->
    firstIsUpper w = false
    /\ firstIsUpper (capitalize w) = true
    /\ length word <= length w + 2
    /\ length word <= length (capitalize w) + 2.
Proof.
  assert (H : forallb
                (fun e =>
                   (length (fst e) <=? 4)
                   || forallb
                        (fun w => negb (firstIsUpper w) && firstIsUpper (capitalize w)
                                  && (length (fst e) <=? length w + 2)
                                  && (length (fst e) <=? length (capitalize w) + 2))
                        (js "undefined" :: snd e))
                wordReplacements = true) by (vm_compute; reflexivity).
  intros word replacements w Hin Hlen Hw.
  rewrite forallb_forall in H. specialize (H _ Hin). cbn [fst snd] in H.
  apply orb_true_iff in H. destruct H as [H | H].
  - apply Nat.leb_le in H. lia.
  - rewrite forallb_forall in H.
    assert (Hw' : In w (js "undefined" :: replacements)).
    { destruct Hw as [Hw | Hw]; [right; exact Hw | left; symmetry; exact Hw]. }
    specialize (H _ Hw').
    repeat (apply andb_true_iff in H; destruct H as [H ?]).
    apply negb_true_iff in H.
    repeat match goal with
           | H0 : (_ <=? _) = true |- _ => apply Nat.leb_le in H0
           end.
    repeat split; assumption.
Qed.

Lemma lookupReplacements_In :
  forall word replacements,
    lookupReplacements word = Some replacements ->
    In (word, replacements) wordReplacements.
Proof.
  intros word replacements H. unfold lookupReplacements in H.
  destruct (find (fun e => eqb word (fst e)) wordReplacements) as [[w r] |] eqn:E;
    [| discriminate].
  cbn in H. inversion H; subst. apply find_some in E. destruct E as [E1 E2].
  cbn [fst] in E2. apply eqb_eq in E2. subst. exact E1.
Qed.

(** Every list of synonyms of the table has an entry, and every
    headword of more than four letters is a pattern of the fragment. *)
Lemma wordReplacements_patterns :
  forall word replacements,
    In (word, replacements) wordReplacements ->
    4 < length word ->
    0 < length replacements /\ RegExpWord word = WordPattern word.
Proof.
  assert (H : forallb
                (fun e =>
                   (length (fst e) <=? 4)
                   || ((0 <? length (snd e))
                       && match RegExpWord (fst e) with
                          | WordPattern body => eqb body (fst e)
                          | _ => false
                          end))
                wordReplacements = true) by (vm_compute; reflexivity).
  intros word replacements Hin Hlen.
  rewrite forallb_forall in H. specialize (H _ Hin). cbn [fst snd] in H.
  apply orb_true_iff in H. destruct H as [H | H].
  - apply Nat.leb_le in H. lia.
  - apply andb_true_iff in H. destruct H as [H1 H2].
    apply Nat.ltb_lt in H1. split; [exact H1 |].
    destruct (RegExpWord word) as [body | | exec]; try discriminate.
    apply eqb_eq in H2. subst. reflexivity.
Qed.

(** The loop over the sorted indices. *)
Lemma replaceOccurrences_spec :
  forall word replacements matches indices enhancedText log draws enhancedText' log' rest,
    In (word, replacements) wordReplacements ->
    4 < length word ->
    (forall j m, In (j, m) matches ->
                 length m = length word /\ startsWithCI word m = true) ->
    foldR (replaceOccurrence replacements matches) indices (enhancedText, log) draws
    = Return (enhancedText', log', rest) ->
    exists added,
      log' = log ++ added
      /\ length added = length indices
      /\ Forall (fun r => length (original r) = length word
                          /\ startsWithCI word (original r) = true
                          /\ firstIsUpper (substitute r) = firstIsUpper (original r)
                          /\ length (original r) <= length (substitute r) + 2) added
      /\ length enhancedText <= length enhancedText' + 2 * length added.
Proof.
  intros word replacements matches indices.
  induction indices as [| index indices IH];
    intros enhancedText log draws enhancedText' log' rest Hin Hlen Hm H; cbn [foldR] in H.
  - apply ret_Return in H. inversion H; subst. exists []. rewrite app_nil_r.
    repeat split; [constructor | cbn; lia].
  - apply bindR_Return in H. destruct H as ([text1 log1] & draws1 & H1 & H).
    apply replaceOccurrence_spec in H1.
    destruct H1 as (matchIndex & matchedText & replacement & Hmatch & Htext & Hlog & Hcase).
    destruct (IH _ _ _ _ _ _ Hin Hlen Hm H) as (added & Hlog' & Hcount & Hall & Hlength).
    destruct (Hm _ _ Hmatch) as [Hml Hmw].
    assert (Hrep : firstIsUpper replacement = firstIsUpper matchedText
                   /\ length word <= length replacement + 2).
    { destruct Hcase as [[Hu (w & Hw & Hc)] | [Hu Hw]].
      - destruct (wordReplacements_table word replacements w Hin Hlen (or_introl Hw))
          as (_ & H2 & _ & H4).
        subst replacement. rewrite Hu. split; assumption.
      - destruct (wordReplacements_table word replacements replacement Hin Hlen Hw)
          as (H1 & _ & H3 & _).
        rewrite Hu. split; assumption. }
    destruct Hrep as [Hrep1 Hrep2].
    exists ({| offset := matchIndex; original := matchedText;
               substitute := replacement |} :: added).
    split; [subst log1 log'; rewrite <- app_assoc; reflexivity |].
    split; [cbn; rewrite Hcount; reflexivity |].
    split.
    + constructor; [| exact Hall]. cbn [original substitute].
      repeat split; [exact Hml | exact Hmw | exact Hrep1 | lia].
    + assert (length enhancedText + length replacement
              <= length text1 + length matchedText).
      { subst text1. unfold slice, sliceFrom.
        rewrite !length_app, length_firstn, length_skipn, length_skipn. cbn [skipn]. lia. }
      cbn [length]. lia.
Qed.

Lemma replacedCount_app :
  forall l1 l2, replacedCount (l1 ++ l2) = replacedCount l1 + replacedCount l2.
Proof.
  induction l1 as [| b l1 IH]; intro l2; cbn; [reflexivity |].
  fold (replacedCount (l1 ++ l2)). fold (replacedCount l1). rewrite IH. lia.
Qed.

(** The body of the loop over the repeated words: the word is passed
    over, or one batch of replacements is written. *)
Lemma eliminateWord_spec :
  forall enhancedText log repeatedWord draws enhancedText' log' rest,
    eliminateWord (enhancedText, log) repeatedWord draws
    = Return (enhancedText', log', rest) ->
    (enhancedText' = enhancedText /\ log' = log)
    \/ exists b,
         log' = log ++ [b]
         /\ flagged b = toLowerCase (fst repeatedWord)
         /\ before b = enhancedText
         /\ disciplined b
         /\ length enhancedText <= length enhancedText' + 2 * length (replaced b).
Proof.
  intros enhancedText log repeatedWord draws enhancedText' log' rest H.
  unfold eliminateWord in H. cbn [fst snd] in H.
  set (word := toLowerCase (fst repeatedWord)) in *.
  destruct (length word <=? 4) eqn:El.
  { apply ret_Return in H. inversion H. left. split; reflexivity. }
  apply Nat.leb_gt in El.
  destruct (lookupReplacements word) as [replacements |] eqn:Er.
  2:{ apply ret_Return in H. inversion H. left. split; reflexivity. }
  apply lookupReplacements_In in Er.
  destruct (wordReplacements_patterns _ _ Er El) as [_ Ep].
  rewrite Ep in H. cbn [matchesIn] in H.
  apply bindR_Return in H. destruct H as (picked & draws1 & Hpick & H).
  apply bindR_Return in H. destruct H as ([text1 added] & draws2 & Hfold & H).
  apply ret_Return in H. inversion H; subst. clear H. cbn [fst snd].
  pose proof (replaceCountOf_nonneg (length (matchAll word enhancedText))) as Hnn.
  apply pickIndices_bound in Hpick; [| cbn; lia | cbn; lia].
  destruct Hpick as [Hp1 Hp2].
  apply (replaceOccurrences_spec word) in Hfold;
    [| exact Er | lia | intros j m Hjm; eapply matchAll_word; exact Hjm].
  destruct Hfold as (added' & Ha & Hcount & Hall & Hlength).
  cbn [app] in Ha. subst added'. rewrite sortDescending_length in Hcount.
  right. eexists. split; [reflexivity |].
  cbn [flagged before occurrences replaced]. split; [reflexivity |].
  split; [reflexivity |]. split; [| lia].
  unfold disciplined. cbn [flagged before occurrences replaced].
  split; [lia |]. split; [reflexivity |].
  split; [unfold replaceCountOf in *; lia |]. split; [lia |].
  eapply Forall_impl; [| exact Hall]. cbn beta. intros r (H1 & H2 & H3 & _).
  repeat split; assumption.
Qed.

(** The loop over the repeated words. *)
Lemma eliminateWords_spec :
  forall repeated enhancedText log draws enhancedText' log' rest,
    foldR eliminateWord repeated (enhancedText, log) draws
    = Return (enhancedText', log', rest) ->
    exists batches,
      log' = log ++ batches
      /\ Forall disciplined batches
      /\ length enhancedText <= length enhancedText' + 2 * replacedCount batches
      /\ (NoDup (map (fun r => toLowerCase (fst r)) repeated) ->
          NoDup (map flagged batches))
      /\ (forall b, In b batches ->
            In (flagged b) (map (fun r => toLowerCase (fst r)) repeated))
      /\ match batches with
         | b :: _ => before b = enhancedText
         | [] => True
         end.
Proof.
  induction repeated as [| repeatedWord repeated IH];
    intros enhancedText log draws enhancedText' log' rest H; cbn [foldR] in H.
  - apply ret_Return in H. inversion H; subst. exists [].
    rewrite app_nil_r. split; [reflexivity |]. split; [constructor |].
    split; [cbn; lia |]. split; [intros _; constructor |].
    split; [intros b [] | exact I].
  - apply bindR_Return in H. destruct H as ([text1 log1] & draws1 & H1 & H).
    apply eliminateWord_spec in H1.
    destruct (IH _ _ _ _ _ _ H) as (batches & Hlog & Hall & Hlength & Hnd & Hin & Hfirst).
    destruct H1 as [[Ht Hl] | (b & Hl & Hf & Hb0 & Hd & Hlen)].
    + subst text1 log1. exists batches.
      split; [exact Hlog |]. split; [exact Hall |]. split; [exact Hlength |].
      split; [| split; [| exact Hfirst]].
      * intro H0. cbn [map] in H0. inversion H0; subst. apply Hnd. assumption.
      * intros b Hb. right. apply Hin. exact Hb.
    + subst log1. exists (b :: batches).
      split; [rewrite Hlog, <- app_assoc; reflexivity |].
      split; [constructor; assumption |].
      split; [cbn [replacedCount fold_right]; fold (replacedCount batches); lia |].
      split; [| split; [| exact Hb0]].
      * intro H0. cbn [map] in H0. inversion H0 as [| ? ? Hni Hnd0]; subst.
        cbn [map]. constructor; [| apply Hnd; exact Hnd0].
        intro Hb. apply in_map_iff in Hb. destruct Hb as (b' & Hb1 & Hb2).
        apply Hni. rewrite <- Hf, <- Hb1. apply Hin. exact Hb2.
      * intros b' [Hb | Hb]; [subst b'; left; symmetry; exact Hf |].
        right. apply Hin. exact Hb.
Qed.

Lemma applyRepetitionEliminationLogged_spec :
  forall text draws result log rest,
    applyRepetitionEliminationLogged text draws = Return (result, log, rest) ->
    Forall disciplined log
    /\ NoDup (map flagged log)
    /\ (forall b, In b log -> In (flagged b) (map fst (findRepeatedWords text)))
    /\ length text <= length result + 2 * replacedCount log
    /\ match log with
       | b :: _ => before b = text
       | [] => True
       end.
Proof.
  intros text draws result log rest H.
  unfold applyRepetitionEliminationLogged in H. cbn [repeatedWords identifyRepetitionPatterns] in H.
  destruct (0 <? length (findRepeatedWords text)).
  - apply eliminateWords_spec in H.
    destruct H as (batches & Hlog & Hall & Hlength & Hnd & Hin & Hfirst).
    cbn [app] in Hlog. subst batches.
    destruct (findRepeatedWords_spec text) as [Hnd' Hlow].
    assert (Hmap : map (fun r => toLowerCase (fst r)) (findRepeatedWords text)
                   = map fst (findRepeatedWords text)).
    { apply map_ext_in. intros [w n] Hwn. cbn [fst].
      destruct (Hlow _ _ Hwn) as (_ & _ & _ & Hw). exact Hw. }
    rewrite Hmap in Hnd, Hin.
    split; [exact Hall |]. split; [apply Hnd; exact Hnd' |].
    split; [exact Hin |]. split; [exact Hlength | exact Hfirst].
  - apply ret_Return in H. inversion H; subst.
    split; [constructor |]. split; [constructor |].
    split; [intros b [] |]. split; [cbn; lia | exact I].
Qed.

(** *** The enhancer: the repetition stage does not raise *)

Lemma randomIndex_range :
  forall r n, inUnit r -> 0 < n -> (0 <= randomIndex r n < Z.of_nat n)%Z.
Proof.
  intros r n [H0 H1] Hn. unfold randomIndex.
  assert (Hpos : (0 < inject_Z (Z.of_nat n))%Q).
  { change 0%Q with (inject_Z 0). rewrite <- Zlt_Qlt. lia. }
  split.
  - change 0%Z with (Qfloor 0). apply Qfloor_resp_le.
    apply Qmult_le_0_compat; [exact H0 | apply Qlt_le_weak; exact Hpos].
  - rewrite Zlt_Qlt. eapply Qle_lt_trans; [apply Qfloor_le |].
    rewrite <- (Qmult_1_l (inject_Z (Z.of_nat n))) at 2.
    apply Qmult_lt_compat_r; assumption.
Qed.

Lemma setAddZ_Forall :
  forall (P : Z -> Prop) x l, P x -> Forall P l -> Forall P (setAddZ x l).
Proof.
  intros P x. induction l as [| y l IH]; intros Hx Hl; cbn [setAddZ].
  - constructor; [exact Hx | constructor].
  - inversion Hl; subst. destruct (Z.eqb x y); [exact Hl |].
    constructor; [assumption | apply IH; assumption].
Qed.

Lemma pickIndices_settles :
  forall draws replaceCount len acc,
    Forall inUnit draws ->
    Forall (fun i => (0 <= i < Z.of_nat len)%Z) acc ->
    match pickIndices replaceCount len acc draws with
    | Return (picked, rest) =>
        Forall inUnit rest /\ Forall (fun i => (0 <= i < Z.of_nat len)%Z) picked
    | Stuck NoMoreDraws => True
    | _ => False
    end.
Proof.
  induction draws as [| r draws IH]; intros replaceCount len acc Hd Hacc;
    cbn [pickIndices];
    destruct ((Z.of_nat (length acc) <? replaceCount)%Z && (length acc <? len)) eqn:E;
    try exact I; try (split; assumption).
  apply andb_true_iff in E. destruct E as [_ E]. apply Nat.ltb_lt in E.
  inversion Hd as [| ? ? Hr Hd']; subst.
  apply IH; [exact Hd' |].
  apply setAddZ_Forall; [| exact Hacc]. apply randomIndex_range; [exact Hr | lia].
Qed.

Lemma insertDescending_Forall :
  forall (P : Z -> Prop) x l, P x -> Forall P l -> Forall P (insertDescending x l).
Proof.
  intros P x. induction l as [| y l IH]; intros Hx Hl; cbn [insertDescending].
  - constructor; [exact Hx | constructor].
  - inversion Hl; subst. destruct (x <? y)%Z.
    + constructor; [assumption | apply IH; assumption].
    + constructor; assumption.
Qed.

Lemma sortDescending_Forall :
  forall (P : Z -> Prop) l, Forall P l -> Forall P (sortDescending l).
Proof.
  intros P. unfold sortDescending. induction l as [| x l IH]; intro H; cbn [fold_right].
  - constructor.
  - inversion H; subst. apply insertDescending_Forall; [assumption | apply IH; assumption].
Qed.

Lemma replaceOccurrence_settles :
  forall replacements matches state index draws,
    Forall inUnit draws ->
    0 < length replacements ->
    (forall j m, In (j, m) matches -> 0 < length m) ->
    (0 <= index < Z.of_nat (length matches))%Z ->
    match replaceOccurrence replacements matches state index draws with
    | Return (_, rest) => Forall inUnit rest
    | Stuck NoMoreDraws => True
    | _ => False
    end.
Proof.
  intros replacements matches state index draws Hd Hr Hm Hi.
  unfold replaceOccurrence.
  destruct (element_in_range _ matches index Hi) as ([matchIndex matchedText] & Em).
  unfold regexMatch, jsstring in *. rewrite Em. pose proof (Hm _ _ (element_In _ _ _ _ Em)) as Hlen.
  destruct matchedText as [| c matchedText]; [cbn in Hlen; lia |].
  destruct draws as [| r draws]; [exact I |].
  inversion Hd as [| ? ? Hr1 Hd']; subst.
  unfold bindR at 1. cbn [Math_random].
  destruct (element_in_range _ replacements (randomIndex r (length replacements))
              (randomIndex_range r _ Hr1 Hr)) as (w & Ew).
  rewrite Ew. destruct (isOwnUpperCase c); cbn; exact Hd'.
Qed.

Lemma replaceOccurrences_settle :
  forall replacements matches indices state draws,
    Forall inUnit draws ->
    0 < length replacements ->
    (forall j m, In (j, m) matches -> 0 < length m) ->
    Forall (fun i => (0 <= i < Z.of_nat (length matches))%Z) indices ->
    match foldR (replaceOccurrence replacements matches) indices state draws with
    | Return (_, rest) => Forall inUnit rest
    | Stuck NoMoreDraws => True
    | _ => False
    end.
Proof.
  intros replacements matches. induction indices as [| index indices IH];
    intros state draws Hd Hr Hm Hi; cbn [foldR].
  - exact Hd.
  - inversion Hi as [| ? ? Hi1 Hi2]; subst.
    pose proof (replaceOccurrence_settles replacements matches state index draws
                  Hd Hr Hm Hi1) as H1.
    unfold bindR.
    destruct (replaceOccurrence replacements matches state index draws)
      as [[state1 draws1] | e | []]; try contradiction; [| exact I].
    apply IH; assumption.
Qed.

Lemma eliminateWord_settles :
  forall state repeatedWord draws,
    Forall inUnit draws ->
    match eliminateWord state repeatedWord draws with
    | Return (_, rest) => Forall inUnit rest
    | Stuck NoMoreDraws => True
    | _ => False
    end.
Proof.
  intros state repeatedWord draws Hd. unfold eliminateWord.
  set (word := toLowerCase (fst repeatedWord)).
  destruct (length word <=? 4) eqn:El; [exact Hd |].
  apply Nat.leb_gt in El.
  destruct (lookupReplacements word) as [replacements |] eqn:Er; [| exact Hd].
  apply lookupReplacements_In in Er.
  destruct (wordReplacements_patterns _ _ Er El) as [Hr Hp]. rewrite Hp.
  cbn [matchesIn]. unfold bindR at 1.
  pose proof (pickIndices_settles draws
                (replaceCountOf (length (matchAll word (fst state))))
                (length (matchAll word (fst state))) [] Hd (Forall_nil _)) as Hpick.
  destruct (pickIndices (replaceCountOf (length (matchAll word (fst state))))
              (length (matchAll word (fst state))) [] draws)
    as [[picked draws1] | e | []]; try contradiction; [| exact I].
  destruct Hpick as [Hd1 Hpicked].
  pose proof (replaceOccurrences_settle replacements (matchAll word (fst state))
                (sortDescending picked) (fst state, []) draws1 Hd1 Hr) as H.
  unfold bindR.
  destruct (foldR (replaceOccurrence replacements (matchAll word (fst state)))
              (sortDescending picked) (fst state, []) draws1)
    as [[result draws2] | e | l].
  - cbn. apply H.
    + intros j m Hjm. apply matchAll_word in Hjm. lia.
    + apply sortDescending_Forall. exact Hpicked.
  - apply H.
    + intros j m Hjm. apply matchAll_word in Hjm. lia.
    + apply sortDescending_Forall. exact Hpicked.
  - apply H.
    + intros j m Hjm. apply matchAll_word in Hjm. lia.
    + apply sortDescending_Forall. exact Hpicked.
Qed.

Lemma eliminateWords_settle :
  forall repeated state draws,
    Forall inUnit draws ->
    match foldR eliminateWord repeated state draws with
    | Return (_, rest) => Forall inUnit rest
    | Stuck NoMoreDraws => True
    | _ => False
    end.
Proof.
  induction repeated as [| repeatedWord repeated IH]; intros state draws Hd; cbn [foldR].
  - exact Hd.
  - pose proof (eliminateWord_settles state repeatedWord draws Hd) as H1.
    unfold bindR.
    destruct (eliminateWord state repeatedWord draws)
      as [[state1 draws1] | e | []]; try contradiction; [| exact I].
    apply IH. exact H1.
Qed.

(** For every text and all draws of the interval from 0 to 1 the
    repetition stage returns or waits for a draw: it does not raise. *)
Lemma applyRepetitionElimination_settles :
  forall text draws,
    Forall inUnit draws ->
    settles (applyRepetitionEliminationLogged text draws)
    /\ settles (applyRepetitionElimination text draws).
Proof.
  intros text draws Hd.
  assert (H : settles (applyRepetitionEliminationLogged text draws)).
  { unfold applyRepetitionEliminationLogged.
    destruct (0 <? length (repeatedWords (identifyRepetitionPatterns text)));
      [| exact I].
    pose proof (eliminateWords_settle (repeatedWords (identifyRepetitionPatterns text))
                  (text, []) draws Hd) as H.
    unfold settles.
    destruct (foldR eliminateWord (repeatedWords (identifyRepetitionPatterns text))
                (text, []) draws) as [[state rest] | e | []];
      try contradiction; exact I. }
  split; [exact H |].
  unfold applyRepetitionElimination, bindR.
  destruct (applyRepetitionEliminationLogged text draws) as [[result rest] | e | l];
    [exact I | exact H | exact H].
Qed.

(** *** The enhancer: which occurrences the repetition stage replaces *)

Lemma replaceCountOf_le : forall n, (replaceCountOf n <= Z.of_nat n)%Z.
Proof.
  intro n. unfold replaceCountOf.
  rewrite <- (Qceiling_Z (Z.of_nat n)) at 2. apply Qceiling_resp_le.
  unfold Qle, Qmult, inject_Z. cbn [Qnum Qden]. lia.
Qed.

Lemma setAddZ_In :
  forall x y l, In y (setAddZ x l) <-> y = x \/ In y l.
Proof.
  intros x y l. induction l as [| z l IH]; cbn [setAddZ In].
  - intuition.
  - destruct (Z.eqb x z) eqn:E.
    + apply Z.eqb_eq in E. subst z. cbn [In]. intuition.
    + cbn [In]. rewrite IH. intuition.
Qed.

Lemma setAddZ_NoDup :
  forall x l, NoDup l -> NoDup (setAddZ x l).
Proof.
  intros x l H. induction H as [| z l Hz Hl IH]; cbn [setAddZ].
  - constructor; [intros [] | constructor].
  - destruct (Z.eqb x z) eqn:E.
    + constructor; assumption.
    + constructor; [| exact IH].
      rewrite setAddZ_In. intros [Hx | Hx]; [| contradiction].
      subst z. rewrite Z.eqb_refl in E. discriminate.
Qed.

(** The loop that picks the indices stops with as many indices as were
    asked for, all different. *)
Lemma pickIndices_exact :
  forall draws replaceCount len acc picked rest,
    pickIndices replaceCount len acc draws = Return (picked, rest) ->
    NoDup acc ->
    (Z.of_nat (length acc) <= replaceCount)%Z ->
    (replaceCount <= Z.of_nat len)%Z ->
    Z.of_nat (length picked) = replaceCount /\ NoDup picked.
Proof.
  induction draws as [| r draws IH]; intros replaceCount len acc picked rest H Hnd Hacc Hlen;
    cbn [pickIndices] in H;
    destruct ((Z.of_nat (length acc) <? replaceCount)%Z && (length acc <? len)) eqn:E;
    try discriminate.
  - apply andb_false_iff in E. inversion H; subst. split; [| exact Hnd].
    destruct E as [E | E]; [apply Z.ltb_ge in E | apply Nat.ltb_ge in E]; lia.
  - apply andb_true_iff in E. destruct E as [E1 E2]. apply Z.ltb_lt in E1.
    pose proof (setAddZ_length (randomIndex r len) acc) as Hs.
    apply (IH _ _ _ _ _ H); [apply setAddZ_NoDup; exact Hnd | lia | exact Hlen].
  - apply andb_false_iff in E. inversion H; subst. split; [| exact Hnd].
    destruct E as [E | E]; [apply Z.ltb_ge in E | apply Nat.ltb_ge in E]; lia.
Qed.

Lemma insertDescending_perm :
  forall x l, Permutation (insertDescending x l) (x :: l).
Proof.
  intros x l. induction l as [| y l IH]; cbn [insertDescending]; [reflexivity |].
  destruct (x <? y)%Z; [| reflexivity].
  rewrite IH. apply perm_swap.
Qed.

Lemma sortDescending_perm : forall l, Permutation (sortDescending l) l.
Proof.
  induction l as [| x l IH]; [reflexivity |].
  unfold sortDescending in *. cbn [fold_right].
  rewrite insertDescending_perm. constructor. exact IH.
Qed.

Lemma insertDescending_sorted :
  forall x l,
    ~ In x l ->
    StronglySorted (fun a b => (b < a)%Z) l ->
    StronglySorted (fun a b => (b < a)%Z) (insertDescending x l).
Proof.
  intros x l Hx H. induction H as [| y l Hs IH Hy]; cbn [insertDescending].
  - constructor; constructor.
  - destruct (x <? y)%Z eqn:E.
    + apply Z.ltb_lt in E. constructor.
      * apply IH. intro Hin. apply Hx. right. exact Hin.
      * eapply Permutation_Forall; [apply Permutation_sym, insertDescending_perm |].
        constructor; assumption.
    + apply Z.ltb_ge in E.
      assert (y <> x) by (intro; subst; apply Hx; left; reflexivity).
      constructor; [constructor; assumption |].
      constructor; [lia |]. eapply Forall_impl; [| exact Hy]. cbn. intros; lia.
Qed.

Lemma sortDescending_sorted :
  forall l, NoDup l -> StronglySorted (fun a b => (b < a)%Z) (sortDescending l).
Proof.
  intros l H. induction H as [| x l Hx Hl IH]; unfold sortDescending; cbn [fold_right].
  - constructor.
  - apply insertDescending_sorted; [| exact IH].
    intro Hin. apply Hx. apply (Permutation_in _ (sortDescending_perm l)). exact Hin.
Qed.

(** The matches of a word pattern are listed from left to right. *)
Lemma matchAllAux_ascending :
  forall body s prev i skip,
    Forall (fun m => i <= fst m) (matchAllAux body prev i skip s)
    /\ StronglySorted (fun m m' => fst m < fst m') (matchAllAux body prev i skip s).
Proof.
  intros body. induction s as [| c s IH]; intros prev i skip; cbn [matchAllAux].
  - split; constructor.
  - assert (Hweak : forall prev' skip',
               Forall (fun m => i <= fst m) (matchAllAux body prev' (S i) skip' s)).
    { intros prev' skip'. destruct (IH prev' (S i) skip') as [H _].
      eapply Forall_impl; [| exact H]. cbn. intros; lia. }
    destruct skip as [| k].
    + destruct (matchHere body prev (c :: s)).
      * destruct (IH (Some c) (S i) (length body - 1)) as [H1 H2]. split.
        -- constructor; [cbn; lia | apply Hweak].
        -- constructor; [exact H2 |].
           eapply Forall_impl; [| exact H1]. cbn. intros; lia.
      * split; [apply Hweak | apply IH].
    + split; [apply Hweak | apply IH].
Qed.

Lemma StronglySorted_nth :
  forall (A : Type) (R : A -> A -> Prop) (l : list A) (i j : nat) (a b : A),
    StronglySorted R l -> i < j ->
    nth_error l i = Some a -> nth_error l j = Some b -> R a b.
Proof.
  intros A R l i j a b H. revert i j.
  induction H as [| x l Hs IH Hx]; intros i j Hij Ha Hb.
  - destruct i; discriminate.
  - destruct j as [| j]; [lia |]. cbn [nth_error] in Hb.
    destruct i as [| i].
    + cbn in Ha. inversion Ha; subst. rewrite Forall_forall in Hx.
      apply Hx. eapply nth_error_In. exact Hb.
    + cbn [nth_error] in Ha. apply (IH i j); [lia | assumption | assumption].
Qed.

(** A later match of the list starts further to the right. *)
Lemma element_ascending :
  forall body text i j a b,
    (j < i)%Z ->
    element (matchAll body text) i = Some a ->
    element (matchAll body text) j = Some b ->
    fst b < fst a.
Proof.
  intros body text i j a b Hij Ha Hb. unfold element in *.
  destruct (i <? 0)%Z eqn:Ei; [discriminate |].
  destruct (j <? 0)%Z eqn:Ej; [discriminate |].
  apply Z.ltb_ge in Ei, Ej.
  destruct (matchAllAux_ascending body text None 0 0) as [_ Hs].
  apply (StronglySorted_nth _ _ _ (Z.to_nat j) (Z.to_nat i) b a Hs); [lia | |]; assumption.
Qed.

(** What the loop over the sorted indices writes: for each index, in
    their order, the match at this index, with a synonym of the list. *)
Lemma replaceOccurrences_detail :
  forall replacements matches indices enhancedText log draws enhancedText' log' rest,
    foldR (replaceOccurrence replacements matches) indices (enhancedText, log) draws
    = Return (enhancedText', log', rest) ->
    exists added,
      log' = log ++ added
      /\ Forall2 (fun index r => element matches index = Some (offset r, original r))
                 indices added
      /\ (Forall inUnit draws -> 0 < length replacements ->
          Forall (fun r => exists w, In w replacements
                                     /\ (substitute r = w \/ substitute r = capitalize w))
                 added).
Proof.
  intros replacements matches. induction indices as [| index indices IH];
    intros enhancedText log draws enhancedText' log' rest H; cbn [foldR] in H.
  - apply ret_Return in H. inversion H; subst. exists []. rewrite app_nil_r.
    repeat split; constructor.
  - apply bindR_Return in H. destruct H as ([text1 log1] & draws1 & H1 & H).
    destruct (IH _ _ _ _ _ _ H) as (added & Hlog & Hall & Hsyn). clear IH.
    unfold replaceOccurrence in H1. cbn [fst snd] in H1.
    destruct (element matches index) as [[matchIndex matchedText] |] eqn:Em;
      [| discriminate].
    destruct draws as [| r draws]; [discriminate |].
    unfold bindR at 1 in H1. cbn [Math_random] in H1.
    destruct matchedText as [| c matchedText]; [discriminate |].
    apply bindR_Return in H1. destruct H1 as (replacement & draws2 & Hr & H1).
    apply ret_Return in H1. inversion H1; subst. clear H1.
    exists ({| offset := matchIndex; original := c :: matchedText;
               substitute := replacement |} :: added).
    split; [rewrite <- app_assoc; reflexivity |].
    split; [constructor; [exact Em | exact Hall] |].
    intros Hd Hlen. inversion Hd as [| ? ? Hr1 Hd']; subst.
    destruct (element_in_range _ replacements (randomIndex r (length replacements))
                (randomIndex_range r _ Hr1 Hlen)) as (w & Ew).
    unfold jsstring in *. rewrite Ew in Hr.
    assert (Hrest : draws2 = draws
                    /\ (replacement = w \/ replacement = capitalize w)).
    { destruct (isOwnUpperCase c); apply ret_Return in Hr; inversion Hr; subst;
        cbn [orUndefined]; split; auto. }
    destruct Hrest as [Hd2 Hw]. subst draws2.
    constructor; [| apply Hsyn; assumption].
    exists w. split; [eapply element_In; exact Ew | exact Hw].
Qed.

(** The headwords of the table of synonyms that have more than four
    letters. *)
Lemma wordReplacements_long :
  forall word replacements,
    In (word, replacements) wordReplacements ->
    4 < length word ->
    In word (map js ["looked"; "walked"; "thought"; "heard"])
    /\ lookupReplacements word = Some replacements.
Proof.
  intros word replacements Hin Hlen.
  unfold wordReplacements in Hin. cbn [In] in Hin.
  repeat (destruct Hin as [Hin | Hin];
          [ inversion Hin; subst;
            first [ exfalso; vm_compute in Hlen; lia
                  | split; [vm_compute; tauto | vm_compute; reflexivity] ] |]).
  contradiction.
Qed.

Lemma Forall2_sorted_offsets :
  forall word text indices added,
    StronglySorted (fun a b => (b < a)%Z) indices ->
    Forall2 (fun index r => element (matchAll word text) index = Some (offset r, original r))
            indices added ->
    StronglySorted (fun r r' => offset r' < offset r) added.
Proof.
  intros word text indices added Hs H. induction H as [| i r indices added Hir H IH].
  - constructor.
  - inversion Hs as [| ? ? Hs' Hi]; subst. constructor; [apply IH; exact Hs' |].
    clear IH Hs Hs'. induction H as [| j r' indices added Hjr H IH]; constructor.
    + inversion Hi; subst.
      apply (element_ascending word text i j _ _ ltac:(assumption) Hir Hjr).
    + apply IH. inversion Hi; assumption.
Qed.

Lemma eliminateWord_detail :
  forall enhancedText log repeatedWord draws enhancedText' log' rest,
    eliminateWord (enhancedText, log) repeatedWord draws
    = Return (enhancedText', log', rest) ->
    (enhancedText' = enhancedText /\ log' = log /\ rest = draws)
    \/ exists b,
         log' = log ++ [b]
         /\ exactBatch b
         /\ (Forall inUnit draws -> fromTable b).
Proof.
  intros enhancedText log repeatedWord draws enhancedText' log' rest H.
  unfold eliminateWord in H. cbn [fst snd] in H.
  set (word := toLowerCase (fst repeatedWord)) in *.
  destruct (length word <=? 4) eqn:El.
  { apply ret_Return in H. inversion H. left. repeat split; reflexivity. }
  apply Nat.leb_gt in El.
  destruct (lookupReplacements word) as [replacements |] eqn:Er.
  2:{ apply ret_Return in H. inversion H. left. repeat split; reflexivity. }
  pose proof (lookupReplacements_In _ _ Er) as Hin.
  destruct (wordReplacements_patterns _ _ Hin El) as [Hlen Hp].
  rewrite Hp in H. cbn [matchesIn] in H.
  apply bindR_Return in H. destruct H as (picked & draws1 & Hpick & H).
  apply bindR_Return in H. destruct H as ([text1 added] & draws2 & Hfold & H).
  apply ret_Return in H. inversion H; subst. clear H. cbn [fst snd].
  pose proof (replaceCountOf_nonneg (length (matchAll word enhancedText))) as Hnn.
  pose proof (replaceCountOf_le (length (matchAll word enhancedText))) as Hle.
  pose proof (pickIndices_settles draws
                (replaceCountOf (length (matchAll word enhancedText)))
                (length (matchAll word enhancedText)) []) as Hsettle.
  rewrite Hpick in Hsettle.
  apply pickIndices_exact in Hpick; [| constructor | cbn; lia | exact Hle].
  destruct Hpick as [Hcount Hnd].
  apply replaceOccurrences_detail in Hfold.
  destruct Hfold as (added' & Ha & Hall & Hsyn). cbn [app] in Ha. subst added'.
  right. eexists. split; [reflexivity |]. split.
  - unfold exactBatch. cbn [flagged before occurrences replaced].
    split; [| split; [| split]].
    + rewrite <- (Forall2_length Hall), sortDescending_length. exact Hcount.
    + clear - Hall. induction Hall as [| i r indices added Hir H IH]; constructor.
      * eapply element_In. exact Hir.
      * exact IH.
    + eapply Forall2_sorted_offsets; [| exact Hall].
      apply sortDescending_sorted. exact Hnd.
    + apply (wordReplacements_long _ _ Hin El).
  - intro Hd. exists replacements. cbn [flagged replaced].
    split; [exact Er |]. apply Hsyn; [| exact Hlen].
    destruct (Hsettle Hd (Forall_nil _)) as [Hd1 _]. exact Hd1.
Qed.

Lemma eliminateWords_detail :
  forall repeated enhancedText log draws enhancedText' log' rest,
    foldR eliminateWord repeated (enhancedText, log) draws
    = Return (enhancedText', log', rest) ->
    exists batches,
      log' = log ++ batches
      /\ Forall exactBatch batches
      /\ (Forall inUnit draws -> Forall fromTable batches).
Proof.
  induction repeated as [| repeatedWord repeated IH];
    intros enhancedText log draws enhancedText' log' rest H; cbn [foldR] in H.
  - apply ret_Return in H. inversion H; subst. exists [].
    rewrite app_nil_r. repeat split; constructor.
  - apply bindR_Return in H. destruct H as ([text1 log1] & draws1 & H1 & H).
    pose proof (eliminateWord_settles (enhancedText, log) repeatedWord draws) as Hsettle.
    rewrite H1 in Hsettle.
    apply eliminateWord_detail in H1.
    destruct (IH _ _ _ _ _ _ H) as (batches & Hlog & Hall & Hsyn).
    destruct H1 as [(Ht & Hl & Hr) | (b & Hl & Hb & Hbs)].
    + subst. exists batches. repeat split; assumption.
    + subst log1. exists (b :: batches).
      split; [rewrite Hlog, <- app_assoc; reflexivity |].
      split; [constructor; assumption |].
      intro Hd. constructor; [apply Hbs; exact Hd | apply Hsyn, Hsettle; exact Hd].
Qed.

Lemma applyRepetitionEliminationLogged_detail :
  forall text draws result log rest,
    applyRepetitionEliminationLogged text draws = Return (result, log, rest) ->
    Forall exactBatch log /\ (Forall inUnit draws -> Forall fromTable log).
Proof.
  intros text draws result log rest H.
  unfold applyRepetitionEliminationLogged in H.
  destruct (0 <? length (repeatedWords (identifyRepetitionPatterns text))).
  - apply eliminateWords_detail in H. destruct H as (batches & Hlog & H).
    cbn [app] in Hlog. subst batches. exact H.
  - apply ret_Return in H. inversion H; subst. split; [constructor | intros _; constructor].
Qed.

(** *** The enhancer: what the repetition stage does to the text *)

(** The loop over the sorted indices makes the replacements it records,
    in their order. *)
Lemma replaceOccurrences_rewritten :
  forall replacements matches indices enhancedText log draws enhancedText' log' rest,
    foldR (replaceOccurrence replacements matches) indices (enhancedText, log) draws
    = Return (enhancedText', log', rest) ->
    exists added,
      log' = log ++ added /\ enhancedText' = fold_left rewritten added enhancedText.
Proof.
  intros replacements matches. induction indices as [| index indices IH];
    intros enhancedText log draws enhancedText' log' rest H; cbn [foldR] in H.
  - apply ret_Return in H. inversion H; subst. exists []. rewrite app_nil_r.
    split; reflexivity.
  - apply bindR_Return in H. destruct H as ([text1 log1] & draws1 & H1 & H).
    apply replaceOccurrence_spec in H1.
    destruct H1 as (matchIndex & matchedText & replacement & _ & Htext & Hlog & _).
    destruct (IH _ _ _ _ _ _ H) as (added & Hlog' & Ht).
    exists ({| offset := matchIndex; original := matchedText;
               substitute := replacement |} :: added).
    split; [subst log1 log'; rewrite <- app_assoc; reflexivity |].
    cbn [fold_left]. rewrite Ht. f_equal. exact Htext.
Qed.

Lemma eliminateWord_rewritten :
  forall enhancedText log repeatedWord draws enhancedText' log' rest,
    eliminateWord (enhancedText, log) repeatedWord draws
    = Return (enhancedText', log', rest) ->
    (enhancedText' = enhancedText /\ log' = log)
    \/ exists b,
         log' = log ++ [b]
         /\ before b = enhancedText
         /\ enhancedText' = fold_left rewritten (replaced b) enhancedText.
Proof.
  intros enhancedText log repeatedWord draws enhancedText' log' rest H.
  unfold eliminateWord in H. cbn [fst snd] in H.
  set (word := toLowerCase (fst repeatedWord)) in *.
  destruct (length word <=? 4) eqn:El.
  { apply ret_Return in H. inversion H. left. split; reflexivity. }
  apply Nat.leb_gt in El.
  destruct (lookupReplacements word) as [replacements |] eqn:Er.
  2:{ apply ret_Return in H. inversion H. left. split; reflexivity. }
  apply lookupReplacements_In in Er.
  destruct (wordReplacements_patterns _ _ Er El) as [_ Ep].
  rewrite Ep in H. cbn [matchesIn] in H.
  apply bindR_Return in H. destruct H as (picked & draws1 & _ & H).
  apply bindR_Return in H. destruct H as ([text1 added] & draws2 & Hfold & H).
  apply ret_Return in H. inversion H; subst. clear H. cbn [fst snd].
  apply replaceOccurrences_rewritten in Hfold.
  destruct Hfold as (added' & Ha & Ht). cbn [app] in Ha. subst added'.
  right. eexists. split; [reflexivity |]. cbn [before replaced].
  split; [reflexivity | exact Ht].
Qed.

Lemma eliminateWords_records :
  forall repeated enhancedText log draws enhancedText' log' rest,
    foldR eliminateWord repeated (enhancedText, log) draws
    = Return (enhancedText', log', rest) ->
    exists batches,
      log' = log ++ batches /\ records enhancedText batches enhancedText'.
Proof.
  induction repeated as [| repeatedWord repeated IH];
    intros enhancedText log draws enhancedText' log' rest H; cbn [foldR] in H.
  - apply ret_Return in H. inversion H; subst. exists [].
    rewrite app_nil_r. split; reflexivity.
  - apply bindR_Return in H. destruct H as ([text1 log1] & draws1 & H1 & H).
    apply eliminateWord_rewritten in H1.
    destruct (IH _ _ _ _ _ _ H) as (batches & Hlog & Hrec).
    destruct H1 as [[Ht Hl] | (b & Hl & Hb & Ht)].
    + subst text1 log1. exists batches. split; assumption.
    + subst log1 text1. exists (b :: batches).
      split; [rewrite Hlog, <- app_assoc; reflexivity |].
      cbn [records]. split; assumption.
Qed.

(** The stage with its record: the record tells how the text became the
    result, and each of its batches is as the loop writes it. *)
Lemma applyRepetitionEliminationLogged_records :
  forall text draws result log rest,
    applyRepetitionEliminationLogged text draws = Return (result, log, rest) ->
    records text log result.
Proof.
  intros text draws result log rest H.
  unfold applyRepetitionEliminationLogged in H.
  destruct (0 <? length (repeatedWords (identifyRepetitionPatterns text))).
  - apply eliminateWords_records in H. destruct H as (batches & Hlog & H).
    cbn [app] in Hlog. subst batches. exact H.
  - apply ret_Return in H. inversion H; subst. reflexivity.
Qed.

Lemma applyRepetitionElimination_logged :
  forall text draws result rest,
    applyRepetitionElimination text draws = Return (result, rest) ->
    exists log,
      applyRepetitionEliminationLogged text draws = Return (result, log, rest).
Proof.
  intros text draws result rest H. unfold applyRepetitionElimination in H.
  apply bindR_Return in H. destruct H as ([result' log] & draws1 & H1 & H).
  apply ret_Return in H. inversion H; subst. exists log. exact H1.
Qed.

(** C7, as stated, fails: the analyzer counts the word looked three
    times in the text, a Kelvin sign in front of looked making another
    word of it, and the stage, which finds looked five times, replaces
    three occurrences, more than the ceiling of 60% of three. *)
Lemma repetition_replaces_more_than_reported :
  findRepeatedWords kelvin = [(js "looked", 3)]
  /\ (Qceiling (inject_Z 3 * (6 # 10)) = 2)%Z
  /\ applyRepetitionElimination (RE := fragmentOnly) kelvin kelvinDraws
     = Return (js "gazed gazed gazed " ++ [8490%N] ++ js "looked " ++ [8490%N]
               ++ js "looked", []).
Proof. repeat split; vm_compute; reflexivity. Qed.

(** C7, amended. Whenever the repetition stage returns, its result is
    the text with replacements made, batch after batch, one batch for a
    flagged word and no flagged word twice; a flagged word is one of the
    repeated words of the analyzer and has 5 letters or more.  The
    occurrences that count for a batch are the matches of the word that
    the stage itself finds in the text the batch starts from; at most
    the ceiling of 60% of them are replaced, each of them such a match,
    that is the word up to the case of its letters, taken from the last
    to the first, by a text that starts with a capital exactly when the
    match does. *)
Theorem repetition_elimination_discipline :
  forall text draws result rest,
    applyRepetitionElimination text draws = Return (result, rest) ->
    exists log,
      records text log result
      /\ Forall
           (fun b =>
              5 <= length (flagged b)
              /\ occurrences b = length (matchAll (flagged b) (before b))
              /\ (Z.of_nat (length (replaced b))
                  <= Qceiling (inject_Z (Z.of_nat (occurrences b)) * (6 # 10)))%Z
              /\ StronglySorted (fun r r' => offset r' < offset r) (replaced b)
              /\ Forall (fun r => In (offset r, original r)
                                     (matchAll (flagged b) (before b))
                                  /\ 5 <= length (original r)
                                  /\ startsWithCI (flagged b) (original r) = true
                                  /\ length (original r) = length (flagged b)
                                  /\ firstIsUpper (substitute r)
                                     = firstIsUpper (original r))
                        (replaced b))
           log
      /\ NoDup (map flagged log)
      /\ (forall b, In b log -> In (flagged b) (map fst (findRepeatedWords text))).
Proof.
  intros text draws result rest H.
  apply applyRepetitionElimination_logged in H. destruct H as (log & H).
  exists log.
  pose proof (applyRepetitionEliminationLogged_records _ _ _ _ _ H) as Hrec.
  pose proof (applyRepetitionEliminationLogged_detail _ _ _ _ _ H) as [Hexact _].
  apply applyRepetitionEliminationLogged_spec in H.
  destruct H as (Hall & Hnd & Hin & _ & _).
  split; [exact Hrec |]. split; [| split; [exact Hnd | exact Hin]].
  rewrite Forall_forall in *. intros b Hb.
  destruct (Hall b Hb) as (H1 & H0 & H2 & _ & H4).
  destruct (Hexact b Hb) as (_ & H5 & H6 & _).
  split; [exact H1 |]. split; [exact H0 |]. split; [exact H2 |].
  split; [exact H6 |].
  rewrite Forall_forall in *. intros r Hr.
  destruct (H4 r Hr) as (Hr1 & Hr2 & Hr3).
  split; [exact (H5 r Hr) |].
  repeat split; [lia | exact Hr2 | exact Hr1 | exact Hr3].
Qed.



(** A repeated word that is none of the four is passed over. *)
Lemma eliminateWord_skip :
  forall state w n draws,
    toLowerCase w = w ->
    ~ In w (map js ["looked"; "walked"; "thought"; "heard"]) ->
    eliminateWord state (w, n) draws = Return (state, draws).
Proof.
  intros state w n draws Hl Hw. unfold eliminateWord. cbn [fst]. rewrite Hl.
  destruct (length w <=? 4) eqn:El; [reflexivity |].
  apply Nat.leb_gt in El.
  destruct (lookupReplacements w) as [replacements |] eqn:Er; [| reflexivity].
  apply lookupReplacements_In in Er.
  destruct (wordReplacements_long _ _ Er El) as [H _]. contradiction.
Qed.

(** X9. A text in which none of the words looked, walked, thought and
    heard occurs more than twice goes through the repetition stage
    unchanged, and no random number is drawn. *)
Theorem repetition_elimination_unchanged :
  forall (text : jsstring) (draws : list Q),
    (forall w, In w (map js ["looked"; "walked"; "thought"; "heard"]) ->
               wordOccurrences text w <= 2) ->
    applyRepetitionElimination text draws = Return (text, draws)
    /\ applyRepetitionEliminationLogged text draws = Return (text, [], draws).
Proof.
  intros text draws Hfew.
  assert (H : applyRepetitionEliminationLogged text draws = Return (text, [], draws)).
  { unfold applyRepetitionEliminationLogged.
    cbn [repeatedWords identifyRepetitionPatterns].
    destruct (0 <? length (findRepeatedWords text)); [| reflexivity].
    destruct (findRepeatedWords_spec text) as [_ Hspec].
    generalize (text, @nil Batch).
    induction (findRepeatedWords text) as [| [w n] l IH]; intro state; cbn [foldR].
    - reflexivity.
    - unfold bindR. rewrite eliminateWord_skip.
      + apply IH. intros w' n' Hin. apply Hspec. right. exact Hin.
      + apply (Hspec w n). left. reflexivity.
      + intro Hin. specialize (Hfew w Hin).
        destruct (Hspec w n (or_introl eq_refl)) as (Hn & Hk & _). lia. }
  split; [| exact H].
  unfold applyRepetitionElimination, bindR. rewrite H. reflexivity.
Qed.

(** *** The enhancer: length of the result *)

(** What [developCharacter] returns: the text, or the text with the
    addition put in at some position. *)
Lemma developCharacter_inserts :
  forall enhancedText character enhancedText',
    developCharacter enhancedText character = Return enhancedText' ->
    enhancedText' = enhancedText
    \/ exists p,
         enhancedText' = slice enhancedText 0 p ++ characterAddition character
                         ++ sliceFrom enhancedText p.
Proof.
  intros enhancedText character enhancedText' H. unfold developCharacter in H.
  generalize dependent (characterAddition character). intros addition H.
  assert (Hm : forall regex,
             match matchesIn regex enhancedText with
             | (index, _) :: _ =>
                 let paragraphEnd := indexOf enhancedText [nl] index in
                 let insertPosition :=
                   match paragraphEnd with
                   | Some p => p
                   | None => length enhancedText
                   end in
                 Return (slice enhancedText 0 insertPosition ++ addition
                         ++ sliceFrom enhancedText insertPosition)
             | [] => Return enhancedText
             end = Return enhancedText' ->
             enhancedText' = enhancedText
             \/ exists p,
                  enhancedText' = slice enhancedText 0 p ++ addition
                                  ++ sliceFrom enhancedText p).
  { intros regex Hr.
    destruct (matchesIn regex enhancedText) as [| [index m] ms];
      apply Return_inj in Hr; subst enhancedText'; [left; reflexivity |].
    right. eexists. reflexivity. }
  destruct (RegExpWord character) as [body | | exec]; [| discriminate |];
    apply (Hm _ H).
Qed.

Lemma developCharacter_length :
  forall enhancedText character enhancedText',
    developCharacter enhancedText character = Return enhancedText' ->
    length enhancedText <= length enhancedText'.
Proof.
  intros enhancedText character enhancedText' H.
  apply developCharacter_inserts in H. destruct H as [H | [p H]]; subst enhancedText';
    [lia |].
  unfold slice, sliceFrom.
  rewrite !length_app, length_firstn, !length_skipn. lia.
Qed.

Lemma developCharacters_length :
  forall characters enhancedText enhancedText',
    developCharacters enhancedText characters = Return enhancedText' ->
    length enhancedText <= length enhancedText'.
Proof.
  induction characters as [| character characters IH];
    intros enhancedText enhancedText' H; cbn [developCharacters] in H.
  - apply Return_inj in H. subst. lia.
  - apply bind_Return in H. destruct H as (text1 & H1 & H2).
    apply developCharacter_length in H1. apply IH in H2. lia.
Qed.

Lemma applyGoldenShadowEnhancement_length :
  forall text expansionTarget currentWordCount targetWordCount text',
    applyGoldenShadowEnhancement text expansionTarget currentWordCount targetWordCount
    = Return text' ->
    length text <= length text'.
Proof.
  intros text expansionTarget currentWordCount targetWordCount text' H.
  unfold applyGoldenShadowEnhancement in H.
  apply bind_Return in H. destruct H as (enhancementEval & _ & H).
  apply bind_Return in H. destruct H as (enhancedText & H1 & H).
  apply developCharacters_length in H1.
  destruct (hasUnderdevelopedPlotElements (needsGoldenShadow enhancementEval));
    apply Return_inj in H; subst text'; [| exact H1].
  eapply Nat.le_trans; [exact H1 | apply length_splitOn_spliceIn].
Qed.

Lemma applyEnvironmentalExpansion_length :
  forall text expansionTarget currentWordCount targetWordCount text',
    applyEnvironmentalExpansion text expansionTarget currentWordCount targetWordCount
    = Return text' ->
    length text <= length text'.
Proof.
  intros text expansionTarget currentWordCount targetWordCount text' H.
  unfold applyEnvironmentalExpansion in H.
  apply bind_Return in H. destruct H as (enhancementEval & _ & H).
  destruct (negb (hasSettingDescription (needsEnvironmentalExpansion enhancementEval))
            || (sensoryRichness (needsEnvironmentalExpansion enhancementEval) <? 3));
    apply Return_inj in H; subst text'; [| lia].
  eapply Nat.le_trans; [| apply length_join_spliceIn].
  apply length_splitOn_grow. apply updateAt_grow.
  intro p. rewrite length_app. lia.
Qed.

Lemma intensify_length :
  forall needs paragraph draws paragraph' rest,
    intensify needs paragraph draws = Return (paragraph', rest) ->
    length paragraph <= length paragraph'.
Proof.
  intros needs paragraph draws paragraph' rest H. unfold intensify in H.
  apply bindR_Return in H. destruct H as (r & draws1 & _ & H).
  returned H.
  destruct (negb (hasTimeManipulation needs)), (negb (hasSensoryDetails needs)),
    (negb (hasEnvironmentalInteraction needs)), (aboveHalf r);
    rewrite ?length_app; lia.
Qed.

Lemma intensifyAll_length :
  forall needs paragraphs draws paragraphs' rest,
    intensifyAll needs paragraphs draws = Return (paragraphs', rest) ->
    Forall2 (fun p p' => length p <= length p') paragraphs paragraphs'.
Proof.
  intros needs. induction paragraphs as [| paragraph paragraphs IH];
    intros draws paragraphs' rest H; cbn [intensifyAll] in H.
  - returned H. constructor.
  - apply bindR_Return in H. destruct H as (paragraph' & draws1 & H1 & H).
    apply bindR_Return in H. destruct H as (rest' & draws2 & H2 & H).
    returned H.
    constructor; [| eapply IH; exact H2].
    destruct (isActionParagraph paragraph).
    + eapply intensify_length. exact H1.
    + returned H1. lia.
Qed.

Lemma applyActionSceneEnhancement_length :
  forall text expansionTarget currentWordCount targetWordCount draws text' rest,
    applyActionSceneEnhancement text expansionTarget currentWordCount targetWordCount draws
    = Return (text', rest) ->
    length text <= length text'.
Proof.
  intros text expansionTarget currentWordCount targetWordCount draws text' rest H.
  unfold applyActionSceneEnhancement in H.
  apply bindR_Return in H. destruct H as (enhancementEval & draws1 & _ & H).
  destruct (negb (isActionScene (needsActionSceneEnhancement enhancementEval))).
  - returned H. lia.
  - destruct (existsb isActionParagraph (splitOn paragraphBreak text)).
    + apply bindR_Return in H. destruct H as (paragraphs' & draws2 & H1 & H).
      returned H. apply length_splitOn_grow.
      eapply intensifyAll_length. exact H1.
    + returned H. lia.
Qed.

Lemma smoothAll_length :
  forall paragraphs draws paragraphs' rest,
    smoothAll paragraphs draws = Return (paragraphs', rest) ->
    Forall2 (fun p p' => length p <= length p') paragraphs paragraphs'.
Proof.
  induction paragraphs as [| paragraph paragraphs IH];
    intros draws paragraphs' rest H; cbn [smoothAll] in H.
  - returned H. constructor.
  - apply bindR_Return in H. destruct H as (r1 & draws1 & _ & H).
    apply bindR_Return in H. destruct H as (r2 & draws2 & _ & H).
    apply bindR_Return in H. destruct H as (rest' & draws3 & H2 & H).
    returned H.
    constructor; [| eapply IH; exact H2].
    destruct (aboveHalf r2); rewrite ?length_app; lia.
Qed.

Lemma applyProseSmoothening_length :
  forall text draws text' rest,
    applyProseSmoothening text draws = Return (text', rest) ->
    length text <= length text'.
Proof.
  intros text draws text' rest H. unfold applyProseSmoothening in H.
  apply bindR_Return in H. destruct H as (enhancementEval & draws1 & _ & H).
  destruct (negb (hasTransitionWords (needsProseSmoothening enhancementEval)));
    [| returned H; lia].
  destruct (splitOn paragraphBreak text) as [| first others] eqn:E.
  - returned H. rewrite <- E. rewrite join_splitOn by apply paragraphBreak_not_nil. lia.
  - apply bindR_Return in H. destruct H as (others' & draws2 & H1 & H).
    returned H. apply length_splitOn_grow. rewrite E.
    constructor; [lia |]. eapply smoothAll_length. exact H1.
Qed.

(** The whole pipeline: the result is shorter than the text by at most
    two units for each occurrence replaced. *)
Lemma customEnhanceTextLogged_length :
  forall text expansionTarget options draws result log rest,
    customEnhanceTextLogged text expansionTarget options draws
    = Return (result, log, rest) ->
    length text <= length result + 2 * replacedCount log
    /\ Forall disciplined log
    /\ exists smoothed final,
         length text <= length smoothed
         /\ records smoothed log final
         /\ result = final ++ paragraphBreak
                      ++ generateEnhancementSummary (countWords text) (length text)
                           (countWords final) (length final) expansionTarget options.
Proof.
  intros text expansionTarget options draws result log rest H.
  unfold customEnhanceTextLogged in H.
  apply bindR_Return in H. destruct H as (report & draws0 & _ & H).
  apply bindR_Return in H. destruct H as (text1 & draws1 & H1 & H).
  apply bindR_Return in H. destruct H as (text2 & draws2 & H2 & H).
  apply bindR_Return in H. destruct H as (text3 & draws3 & H3 & H).
  apply bindR_Return in H. destruct H as (text4 & draws4 & H4 & H).
  apply bindR_Return in H. destruct H as ([text5 log5] & draws5 & H5 & H).
  cbn [fst snd] in H. apply ret_Return_pair in H. destruct H as [H _].
  apply pair_equal_spec in H. destruct H as [Hr Hl]. subst result log.
  assert (L1 : length text <= length text1).
  { destruct (enableGoldenShadow options).
    - apply lift_Return in H1. destruct H1 as [H1 _]. cbn [fst] in H1.
      eapply applyGoldenShadowEnhancement_length. exact H1.
    - returned H1. lia. }
  assert (L2 : length text1 <= length text2).
  { destruct (enableEnvironmental options).
    - apply lift_Return in H2. destruct H2 as [H2 _]. cbn [fst] in H2.
      eapply applyEnvironmentalExpansion_length. exact H2.
    - returned H2. lia. }
  assert (L3 : length text2 <= length text3).
  { destruct (enableActionScene options);
      [destruct (isAction (determineSceneType text)) |].
    - eapply applyActionSceneEnhancement_length. exact H3.
    - returned H3. lia.
    - returned H3. lia. }
  assert (L4 : length text3 <= length text4).
  { destruct (enableProseSmoother options).
    - eapply applyProseSmoothening_length. exact H4.
    - returned H4. lia. }
  assert (L5 : length text4 <= length text5 + 2 * replacedCount log5
               /\ Forall disciplined log5 /\ records text4 log5 text5).
  { destruct (enableRepetitionElimination options).
    - pose proof (applyRepetitionEliminationLogged_records _ _ _ _ _ H5) as Hrec.
      apply applyRepetitionEliminationLogged_spec in H5.
      destruct H5 as (H5 & _ & _ & H6 & _). repeat split; assumption.
    - apply ret_Return_pair in H5. destruct H5 as [H5 _].
      apply pair_equal_spec in H5. destruct H5; subst.
      split; [cbn; lia |]. split; [constructor | reflexivity]. }
  destruct L5 as (L5 & L6 & L7). split; [rewrite !length_app; lia |].
  split; [exact L6 |].
  exists text4, text5. split; [lia |]. split; [exact L7 | reflexivity].
Qed.

(** C8, as stated, fails: a text in which the verb looked occurs 441
    times comes back shorter from [enhanceText] with the target 100, when
    the draws pick the synonym eyed for the 265 occurrences replaced. *)
Lemma enhanceText_shorter_result :
  match enhanceText (RE := fragmentOnly) (manyLooks 440) 100 (looksDraws 441 265) with
  | Return (result, _) => length result <? length (manyLooks 440)
  | _ => false
  end = true.
Proof. vm_compute. reflexivity. Qed.

(** C8, amended. For every text and every outcome of the draws, the
    result that [enhanceText] returns, with the target 100 as with any
    other, is shorter than the text by at most two characters for each
    occurrence that the repetition stage replaced; it is at least as long
    as the text when no occurrence was replaced.  The occurrences
    replaced are those of the record of the stage, which tells how the
    text that the four stages before it made, no shorter than the text,
    became the text that the summary follows. *)
Theorem enhanceText_length :
  forall text expansionTarget draws result rest,
    enhanceText text expansionTarget draws = Return (result, rest) ->
    exists log,
      customEnhanceTextLogged text expansionTarget allTechniques draws
      = Return (result, log, rest)
      /\ Forall disciplined log
      /\ length text <= length result + 2 * replacedCount log
      /\ (replacedCount log = 0 -> length text <= length result)
      /\ exists smoothed final,
           length text <= length smoothed
           /\ records smoothed log final
           /\ result = final ++ paragraphBreak
                        ++ generateEnhancementSummary (countWords text) (length text)
                             (countWords final) (length final) expansionTarget
                             allTechniques.
Proof.
  intros text expansionTarget draws result rest H.
  unfold enhanceText in H. apply customEnhanceText_logged in H.
  destruct H as (log & H). exists log. split; [exact H |].
  destruct (customEnhanceTextLogged_length _ _ _ _ _ _ _ H) as (Hl & Hd & Hrec).
  split; [exact Hd |]. split; [exact Hl |].
  split; [intro H0; rewrite H0 in Hl; lia | exact Hrec].
Qed.

(** *** The request handler *)

Lemma toolName_dispatch :
  forall t : tool,
    eqb (toolName t) (js "analyze_text")
    = match t with analyze_text => true | _ => false end
    /\ eqb (toolName t) (js "enhance_text")
       = match t with enhance_text => true | _ => false end
    /\ eqb (toolName t) (js "custom_enhance_text")
       = match t with custom_enhance_text => true | _ => false end.
Proof. destruct t; repeat split; vm_compute; reflexivity. Qed.

(** C4, as stated, fails: each of the three tools rejects a request
    whose text is the empty string. *)
Lemma empty_text_rejected :
  callTool (emptyTextRequest analyze_text) = McpError InvalidParams requiredMessage
  /\ callTool (emptyTextRequest enhance_text) = McpError InvalidParams requiredMessage
  /\ callTool (emptyTextRequest custom_enhance_text)
     = McpError InvalidParams requiredMessage.
Proof. repeat split; vm_compute; reflexivity. Qed.

(** C4, amended. Given an arguments object, each of the three tools
    rejects the request with the invalid-parameters error if and only if
    the text field is absent, not a string or the empty string; every
    string that is not empty is accepted and handed to the text function
    of the tool. *)
Theorem callTool_rejects_iff :
  forall (t : tool) (args : JsObject),
    callTool {| name := toolName t; arguments := Some args |}
    = if isNonEmptyString (getProperty args (js "text"))
      then Content (dispatch t args)
      else McpError InvalidParams requiredMessage.
Proof.
  intros t args. unfold callTool. cbn [name arguments].
  destruct (toolName_dispatch t) as (H1 & H2 & H3).
  rewrite H1, H2, H3. unfold invalidText.
  destruct t; cbn [dispatch];
    destruct (getProperty args (js "text")) as [| | b | x | s | l | l] eqn:E;
    cbn [truthy isString isNonEmptyString negb orb];
    try reflexivity;
    try (destruct b; reflexivity);
    try (destruct (negb (PrimFloat.eqb x 0 || PrimFloat.is_nan x)); reflexivity);
    destruct s; reflexivity.
Qed.

(* ================================================================= *)
(** ** Properties of the code *)

(** *** The analyzer: the lists of repeated words *)

Lemma insertByCount_sorted :
  forall x l,
    StronglySorted (fun a b => snd b <= snd a) l ->
    StronglySorted (fun a b => snd b <= snd a) (insertByCount x l).
Proof.
  intros x l H. induction H as [| y l Hs IH Hy]; cbn [insertByCount].
  - constructor; constructor.
  - destruct (snd x <? snd y) eqn:E.
    + constructor; [exact IH |].
      apply Nat.ltb_lt in E.
      eapply Permutation_Forall; [apply Permutation_sym, insertByCount_perm |].
      constructor; [lia | exact Hy].
    + apply Nat.ltb_ge in E. constructor.
      * constructor; assumption.
      * constructor; [exact E |].
        eapply Forall_impl; [| exact Hy]. cbn. intros; lia.
Qed.

Lemma sortByCount_sorted :
  forall l, StronglySorted (fun a b => snd b <= snd a) (sortByCount l).
Proof.
  induction l as [| x l IH]; unfold sortByCount; cbn [fold_right].
  - constructor.
  - apply insertByCount_sorted. exact IH.
Qed.

Lemma StronglySorted_firstn :
  forall (A : Type) (R : A -> A -> Prop) (n : nat) (l : list A),
    StronglySorted R l -> StronglySorted R (firstn n l).
Proof.
  intros A R n l H. revert n.
  induction H as [| x l Hs IH Hx]; intros [| n]; cbn [firstn]; try constructor.
  - apply IH.
  - apply Forall_forall. intros y Hy. apply In_firstn in Hy.
    rewrite Forall_forall in Hx. apply Hx. exact Hy.
Qed.

(** A key of the table of word frequencies that holds a number is no
    key that an object inherits. *)
Lemma above_wordFrequency_own :
  forall text k w n,
    In (w, n) (above k (entries (wordFrequencyOf text))) ->
    eqb w (js "__proto__") = false /\ existsb (eqb w) inheritedKeys = false.
Proof.
  intros text k w n H. destruct (wordFrequencyOf_spec text) as [Hnd Hspec].
  apply above_In in H. destruct H as [H _].
  apply (Permutation_in _ (entries_perm _)) in H.
  apply (In_tallyOf _ _ _ Hnd) in H. rewrite Hspec in H.
  unfold tallyAfter in H.
  destruct (occurrencesIn _ w =? 0); [discriminate |].
  destruct (eqb w (js "__proto__")); [discriminate |].
  destruct (existsb (eqb w) inheritedKeys); [discriminate |].
  split; reflexivity.
Qed.

(** The only key inherited from [Object.prototype] that is in lower case. *)
Lemma inheritedKeys_lower :
  forall w, toLowerCase w = w -> existsb (eqb w) inheritedKeys = true -> w = js "constructor".
Proof.
  intros w Hl H. apply existsb_exists in H. destruct H as (k & Hk & E).
  apply eqb_eq in E. subst k.
  unfold inheritedKeys in Hk. cbn [map In] in Hk.
  repeat (destruct Hk as [Hk | Hk];
          [ first [ exact (eq_sym Hk)
                  | exfalso; subst w; vm_compute in Hl; discriminate Hl ] |]).
  contradiction.
Qed.

(** X1. The repeated words of the report: at most ten entries, the
    most frequent first, no word twice; each is a word of the text in
    lower case, longer than three letters, listed with the number of its
    occurrences, which is more than two.  When fewer than ten are listed,
    every such word is listed, the words constructor and __proto__ left
    out. *)
Theorem findRepeatedWords_sorted_complete :
  forall text : jsstring,
    length (findRepeatedWords text) <= 10
    /\ StronglySorted (fun a b => snd b <= snd a) (findRepeatedWords text)
    /\ NoDup (map fst (findRepeatedWords text))
    /\ (forall w n,
          In (w, n) (findRepeatedWords text) ->
          n = wordOccurrences text w /\ 2 < n /\ 3 < length w /\ toLowerCase w = w)
    /\ (length (findRepeatedWords text) < 10 ->
        forall w,
          3 < length w -> 2 < wordOccurrences text w ->
          w <> js "constructor" -> w <> js "__proto__" ->
          In (w, wordOccurrences text w) (findRepeatedWords text)).
Proof.
  intro text. destruct (findRepeatedWords_spec text) as [Hnd Hin].
  split; [apply firstn_le_length |].
  split; [apply StronglySorted_firstn, sortByCount_sorted |].
  split; [exact Hnd |]. split; [exact Hin |].
  intros Hshort w Hl Hn Hc Hp.
  destruct (above_wordFrequency text 2) as (_ & _ & Hex).
  unfold findRepeatedWords in *.
  set (sorted := sortByCount (above 2 (entries (wordFrequencyOf text)))) in *.
  assert (Hall : firstn 10 sorted = sorted).
  { apply firstn_all2. rewrite length_firstn in Hshort. lia. }
  rewrite Hall. unfold sorted.
  apply (Permutation_in _ (Permutation_sym (sortByCount_perm _))).
  apply Hex; try assumption.
  - apply eqb_neq. exact Hp.
  - destruct (existsb (eqb w) inheritedKeys) eqn:E; [| reflexivity].
    exfalso. apply Hc. apply inheritedKeys_lower; [| exact E].
    apply (lowered_word text). apply occurrencesIn_pos.
    unfold wordOccurrences in Hn. lia.
Qed.

(** X2. A word that is the name of a property every object inherits is
    never reported as repeated, however often the text holds it: its
    entry of the frequency table is no number.  So it is with the word
    constructor, and with __proto__, of which no entry is created. *)
Theorem findRepeatedWords_never_inherited :
  forall (text : jsstring) (n : nat),
    ~ In (js "constructor", n) (findRepeatedWords text)
    /\ ~ In (js "__proto__", n) (findRepeatedWords text)
    /\ ~ In (js "constructor", n) (topRepeatedWords (evaluateRepetitionSeverity text))
    /\ ~ In (js "__proto__", n) (topRepeatedWords (evaluateRepetitionSeverity text)).
Proof.
  intros text n.
  assert (H : forall k m w,
             In (w, n) (firstn m (sortByCount (above k (entries (wordFrequencyOf text))))) ->
             eqb w (js "__proto__") = false /\ existsb (eqb w) inheritedKeys = false).
  { intros k m w Hw. apply In_firstn in Hw.
    apply (Permutation_in _ (sortByCount_perm _)) in Hw.
    eapply above_wordFrequency_own. exact Hw. }
  unfold findRepeatedWords, evaluateRepetitionSeverity. cbn [topRepeatedWords].
  repeat split; intro Hw; apply H in Hw; destruct Hw as [H1 H2];
    vm_compute in H1; vm_compute in H2; discriminate.
Qed.

(** Filtering by a threshold commutes with the insertion sort. *)
Lemma filter_insertByCount :
  forall k x l,
    StronglySorted (fun a b => snd b <= snd a) l ->
    filter (fun e => k <? snd e) (insertByCount x l)
    = if k <? snd x then insertByCount x (filter (fun e => k <? snd e) l)
      else filter (fun e => k <? snd e) l.
Proof.
  intros k x l H. induction H as [| y l Hs IH Hy]; cbn [insertByCount filter].
  - destruct (k <? snd x); reflexivity.
  - destruct (snd x <? snd y) eqn:E.
    + cbn [filter]. rewrite IH. apply Nat.ltb_lt in E.
      destruct (k <? snd x) eqn:Ex.
      * apply Nat.ltb_lt in Ex.
        replace (k <? snd y) with true by (symmetry; apply Nat.ltb_lt; lia).
        cbn [insertByCount].
        replace (snd x <? snd y) with true by (symmetry; apply Nat.ltb_lt; lia).
        reflexivity.
      * reflexivity.
    + cbn [filter]. apply Nat.ltb_ge in E.
      destruct (k <? snd x) eqn:Ex.
      * destruct (k <? snd y) eqn:Ey.
        -- cbn [insertByCount].
           replace (snd x <? snd y) with false by (symmetry; apply Nat.ltb_ge; lia).
           reflexivity.
        -- apply Nat.ltb_ge in Ey.
           assert (Hnone : filter (fun e => k <? snd e) l = []).
           { clear IH. induction l as [| z l IHl]; [reflexivity |].
             inversion Hy; subst. inversion Hs; subst. cbn [filter].
             replace (k <? snd z) with false by (symmetry; apply Nat.ltb_ge; lia).
             apply IHl; assumption. }
           rewrite Hnone. reflexivity.
      * apply Nat.ltb_ge in Ex.
        replace (k <? snd y) with false by (symmetry; apply Nat.ltb_ge; lia).
        reflexivity.
Qed.

Lemma filter_sortByCount :
  forall k l,
    filter (fun e => k <? snd e) (sortByCount l)
    = sortByCount (filter (fun e => k <? snd e) l).
Proof.
  intros k l. induction l as [| x l IH]; [reflexivity |].
  unfold sortByCount in *. cbn [fold_right filter].
  rewrite filter_insertByCount by apply sortByCount_sorted.
  rewrite IH. destruct (k <? snd x); reflexivity.
Qed.

Lemma above_above :
  forall k o, above (S k) o = filter (fun e => S k <? snd e) (above k o).
Proof.
  intros k o. induction o as [| [w [n |]] o IH]; cbn [above]; [reflexivity | | exact IH].
  destruct (k <? n) eqn:E; destruct (S k <? n) eqn:E'; cbn [filter snd]; rewrite ?E'.
  - rewrite IH. reflexivity.
  - exact IH.
  - apply Nat.ltb_ge in E. apply Nat.ltb_lt in E'. lia.
  - exact IH.
Qed.

(** In a list in descending order the entries above a threshold come
    first. *)
Lemma filter_sorted_prefix :
  forall k (l : list (jsstring * nat)),
    StronglySorted (fun a b => snd b <= snd a) l ->
    exists rest, l = filter (fun e => k <? snd e) l ++ rest.
Proof.
  intros k l H. induction H as [| y l Hs IH Hy].
  - exists []. reflexivity.
  - cbn [filter]. destruct (k <? snd y) eqn:Ey.
    + destruct IH as [rest IH]. exists rest. cbn [app]. rewrite <- IH. reflexivity.
    + apply Nat.ltb_ge in Ey.
      assert (Hnone : filter (fun e => k <? snd e) l = []).
      { clear IH. induction l as [| z l IHl]; [reflexivity |].
        inversion Hy; subst. inversion Hs; subst. cbn [filter].
        replace (k <? snd z) with false by (symmetry; apply Nat.ltb_ge; lia).
        apply IHl; assumption. }
      rewrite Hnone. exists (y :: l). reflexivity.
Qed.

Lemma firstn_prefix :
  forall (A : Type) (n m : nat) (l rest : list A),
    n <= m -> exists rest', firstn m (l ++ rest) = firstn n l ++ rest'.
Proof.
  intros A n m l rest Hnm. revert n m Hnm.
  induction l as [| x l IH]; intros n m Hnm.
  - rewrite firstn_nil. cbn [app]. eexists. reflexivity.
  - destruct n as [| n]; [cbn [firstn app]; eexists; reflexivity |].
    destruct m as [| m]; [lia |].
    destruct (IH n m ltac:(lia)) as [rest' Hr].
    exists rest'. cbn [firstn app]. rewrite Hr. reflexivity.
Qed.

(** X3. The two lists of repeated words of a report agree: the top
    repeated words of the recommendations, which occur more than three
    times, are the first entries of the repeated words of the patterns,
    and in the same order.  The count of the recommendations is the
    number of the words of more than three letters that occur more than
    three times, constructor and __proto__ left out; the top repeated
    words are five of them, or all of them when they are fewer, and the
    severity is low for two such words or fewer and high for more than
    five. *)
Theorem topRepeatedWords_prefix :
  forall text : jsstring,
    let severity := evaluateRepetitionSeverity text in
    (exists rest, findRepeatedWords text = topRepeatedWords severity ++ rest)
    /\ length (topRepeatedWords severity) <= 5
    /\ length (topRepeatedWords severity) <= repeatedWordCount severity
    /\ (forall w n, In (w, n) (topRepeatedWords severity) ->
          n = wordOccurrences text w /\ 3 < n)
    /\ (severityOf severity = SevereLow <-> repeatedWordCount severity <= 2)
    /\ (severityOf severity = SevereHigh <-> 5 < repeatedWordCount severity)
    /\ (exists frequent : list jsstring,
          NoDup frequent
          /\ length frequent = repeatedWordCount severity
          /\ forall w,
               In w frequent
               <-> 3 < length w /\ 3 < wordOccurrences text w
                   /\ w <> js "constructor" /\ w <> js "__proto__")
    /\ length (topRepeatedWords severity) = Nat.min 5 (repeatedWordCount severity).
Proof.
  intro text. cbn zeta.
  unfold evaluateRepetitionSeverity, findRepeatedWords.
  cbn [topRepeatedWords repeatedWordCount severityOf].
  set (E := entries (wordFrequencyOf text)).
  split; [| split; [| split; [| split; [| split; [| split; [| split]]]]]].
  - rewrite (above_above 2 E), <- filter_sortByCount.
    set (sorted := sortByCount (above 2 E)).
    destruct (filter_sorted_prefix 3 _ (sortByCount_sorted (above 2 E))) as [rest Hrest].
    fold sorted in Hrest.
    destruct (firstn_prefix _ 5 10 (filter (fun e => 3 <? snd e) sorted) rest ltac:(lia))
      as [rest' Hrest'].
    rewrite <- Hrest in Hrest'. exists rest'. exact Hrest'.
  - apply firstn_le_length.
  - rewrite length_firstn.
    rewrite (Permutation_length (sortByCount_perm (above 3 E))). lia.
  - intros w n H. apply In_firstn in H.
    apply (Permutation_in _ (sortByCount_perm _)) in H.
    destruct (above_wordFrequency text 3) as (_ & Hin & _).
    apply Hin in H. tauto.
  - destruct (5 <? length (above 3 E)) eqn:E5.
    + apply Nat.ltb_lt in E5. split; [intro; discriminate | lia].
    + apply Nat.ltb_ge in E5. destruct (2 <? length (above 3 E)) eqn:E2.
      * apply Nat.ltb_lt in E2. split; [intro; discriminate | lia].
      * apply Nat.ltb_ge in E2. split; [intros _; exact E2 | reflexivity].
  - destruct (5 <? length (above 3 E)) eqn:E5.
    + apply Nat.ltb_lt in E5. split; [intros _; exact E5 | reflexivity].
    + apply Nat.ltb_ge in E5.
      destruct (2 <? length (above 3 E)); (split; [intro; discriminate | lia]).
  - destruct (above_wordFrequency text 3) as (Hnd & Hin & Hex). fold E in Hnd, Hin, Hex.
    exists (map fst (above 3 E)).
    split; [exact Hnd |]. split; [apply length_map |].
    intro w. split.
    + intro H. apply in_map_iff in H. destruct H as ([w' n] & Hw & H).
      cbn [fst] in Hw. subst w'.
      destruct (above_wordFrequency_own text 3 w n H) as [Hp Hi].
      apply Hin in H. destruct H as (Hn & Hk & Hl).
      split; [exact Hl |]. split; [lia |]. split.
      * intro Hc. subst w. vm_compute in Hi. discriminate Hi.
      * apply eqb_neq. exact Hp.
    + intros (Hl & Hn & Hc & Hp).
      apply in_map_iff. exists (w, wordOccurrences text w). split; [reflexivity |].
      apply Hex; try assumption.
      * apply eqb_neq. exact Hp.
      * destruct (existsb (eqb w) inheritedKeys) eqn:Ei; [| reflexivity].
        exfalso. apply Hc. apply inheritedKeys_lower; [| exact Ei].
        apply (lowered_word text). apply occurrencesIn_pos.
        unfold wordOccurrences in Hn. lia.
  - rewrite length_firstn.
    rewrite (Permutation_length (sortByCount_perm (above 3 E))). reflexivity.
Qed.

(** *** The analyzer: words and names *)

Lemma setAdd_In :
  forall x y l, In y (setAdd x l) <-> y = x \/ In y l.
Proof.
  intros x y l. induction l as [| z l IH]; cbn [setAdd In].
  - intuition.
  - destruct (eqb x z) eqn:E.
    + apply eqb_eq in E. subst z. cbn [In]. intuition.
    + cbn [In]. rewrite IH. intuition.
Qed.

Lemma setAdd_NoDup :
  forall x l, NoDup l -> NoDup (setAdd x l).
Proof.
  intros x l H. induction H as [| z l Hz Hl IH]; cbn [setAdd].
  - constructor; [intros [] | constructor].
  - destruct (eqb x z) eqn:E.
    + constructor; assumption.
    + constructor; [| exact IH].
      rewrite setAdd_In. intros [Hx | Hx]; [| contradiction].
      subst z. rewrite eqb_refl in E. discriminate.
Qed.

Lemma names_fold :
  forall (words : list jsstring) (acc : list jsstring),
    let names :=
      fold_left
        (fun potentialNames w =>
           let word := dropFirstNonWord w in
           if (0 <? length word) && startsUpperCase word
           then setAdd word potentialNames else potentialNames)
        words acc in
    (NoDup acc -> NoDup names)
    /\ (forall name,
          In name names
          <-> In name acc
              \/ exists w, In w words /\ name = dropFirstNonWord w
                           /\ startsUpperCase name = true).
Proof.
  induction words as [| w words IH]; intro acc; cbn zeta; cbn [fold_left].
  - split; [tauto |]. intro name. split; [tauto |].
    intros [H | (w & [] & _)]. exact H.
  - set (word := dropFirstNonWord w).
    set (acc' := if (0 <? length word) && startsUpperCase word
                 then setAdd word acc else acc).
    destruct (IH acc') as [IHnd IHin]. cbn zeta in IHnd, IHin. split.
    + intro Hnd. apply IHnd. unfold acc'.
      destruct ((0 <? length word) && startsUpperCase word);
        [apply setAdd_NoDup |]; exact Hnd.
    + intro name. rewrite IHin. unfold acc'. split.
      * intros [H | (w' & Hw' & Hn & Hu)].
        -- destruct ((0 <? length word) && startsUpperCase word) eqn:E.
           ++ apply setAdd_In in H. destruct H as [H | H]; [| left; exact H].
              right. exists w. apply andb_true_iff in E.
              subst name. repeat split; [left; reflexivity | apply E].
           ++ left. exact H.
        -- right. exists w'. repeat split; [right; exact Hw' | exact Hn | exact Hu].
      * intros [H | (w' & [Hw' | Hw'] & Hn & Hu)].
        -- left. destruct ((0 <? length word) && startsUpperCase word);
             [apply setAdd_In; right |]; exact H.
        -- subst w'. left. fold word in Hn. subst name.
           assert (E : (0 <? length word) && startsUpperCase word = true).
           { rewrite Hu, andb_true_r. apply Nat.ltb_lt.
             destruct word; [discriminate Hu | cbn; lia]. }
           rewrite E. apply setAdd_In. left. reflexivity.
        -- right. exists w'. repeat split; assumption.
Qed.

(** X4. The potential characters of a text: no name twice; a name is
    one of the pieces that the white space of the text separates, the
    first piece left out, its first character that is no letter, digit
    or underscore taken out, that begins with a capital of A to Z; and
    every such piece is a name.  The first piece is the first word of
    the text, or the empty string when the text begins with white space:
    then no word of the text is left out. *)
Theorem extractPotentialCharacterNames_spec :
  forall text : jsstring,
    NoDup (extractPotentialCharacterNames text)
    /\ (forall name,
          In name (extractPotentialCharacterNames text)
          <-> exists w,
                In w (tl (splitRuns isSpace text))
                /\ name = dropFirstNonWord w
                /\ exists c rest, name = c :: rest /\ (65 <= c <= 90)%N)
    /\ (forall c rest,
          text = c :: rest -> isSpace c = true ->
          hd_error (splitRuns isSpace text) = Some [])
    /\ (forall c rest,
          text = c :: rest -> isSpace c = false ->
          exists word, hd_error (splitRuns isSpace text) = Some (c :: word)).
Proof.
  intro text.
  assert (Hfirst : forall s cur,
             exists piece,
               hd_error (splitRunsAux isSpace s cur false) = Some (rev cur ++ piece)).
  { induction s as [| d s IH]; intro cur; cbn [splitRunsAux].
    - exists []. rewrite app_nil_r. reflexivity.
    - destruct (isSpace d).
      + exists []. rewrite app_nil_r. reflexivity.
      + destruct (IH (d :: cur)) as [piece Hp]. exists (d :: piece).
        rewrite Hp. cbn [rev]. rewrite <- app_assoc. reflexivity. }
  split; [| split; [| split]];
    [| | intros c rest Ht Hc; subst text; unfold splitRuns; cbn [splitRunsAux];
         rewrite Hc; reflexivity
       | intros c rest Ht Hc; subst text; unfold splitRuns; cbn [splitRunsAux];
         rewrite Hc; destruct (Hfirst rest [c]) as [piece Hp]; exists piece;
         exact Hp ];
    unfold extractPotentialCharacterNames;
    destruct (names_fold (tl (splitRuns isSpace text)) []) as [Hnd Hin];
    cbn zeta in Hnd, Hin; [apply Hnd; constructor |].
  intro name. rewrite Hin. split.
  - intros [[] | (w & Hw & Hn & Hu)]. exists w. repeat split; try assumption.
    unfold startsUpperCase in Hu. destruct name as [| c rest]; [discriminate |].
    exists c, rest. split; [reflexivity |].
    apply andb_true_iff in Hu. destruct Hu as [_ Hu].
    unfold isUpperAZ, inRange in Hu. apply andb_true_iff in Hu.
    destruct Hu as [H1 H2]. apply N.leb_le in H1, H2. lia.
  - intros (w & Hw & Hn & c & rest & Hc & Hr). right. exists w.
    repeat split; try assumption. rewrite Hc. unfold startsUpperCase.
    assert (Hu : isUpperAZ c = true).
    { unfold isUpperAZ, inRange. apply andb_true_iff. split; apply N.leb_le; lia. }
    rewrite Hu, andb_true_r. unfold toUpperCase. cbn [flat_map]. unfold upperUnit.
    assert (Hl : isLowerAZ c = false).
    { unfold isLowerAZ, inRange. apply andb_false_iff. left. apply N.leb_gt. lia. }
    assert (Hl1 : isLowerLatin1 c = false).
    { unfold isLowerLatin1, inRange. apply andb_false_iff. left.
      apply andb_false_iff. left. apply N.leb_gt. lia. }
    rewrite Hl, Hl1. cbn [orb].
    repeat match goal with
           | |- context [N.eqb c ?k] =>
               replace (N.eqb c k) with false by (symmetry; apply N.eqb_neq; lia)
           end.
    cbn [app]. apply eqb_refl.
Qed.

(** The pieces of a text that are not empty, whether or not a separator
    was just read. *)
Lemma splitRunsAux_insep :
  forall sep s,
    length (filter (fun word => 0 <? length word) (splitRunsAux sep s [] true))
    = length (filter (fun word => 0 <? length word) (splitRunsAux sep s [] false)).
Proof.
  intros sep s. destruct s as [| c s]; cbn [splitRunsAux]; [reflexivity |].
  destruct (sep c); [| reflexivity].
  cbn [rev filter length Nat.ltb Nat.leb]. reflexivity.
Qed.

Lemma countWords_app_aux :
  forall sep a c b cur insep,
    sep c = true ->
    (insep = true -> cur = []) ->
    length (filter (fun word => 0 <? length word)
              (splitRunsAux sep (a ++ c :: b) cur insep))
    = length (filter (fun word => 0 <? length word) (splitRunsAux sep a cur insep))
      + length (filter (fun word => 0 <? length word) (splitRuns sep b)).
Proof.
  intros sep a c b. induction a as [| x a IH]; intros cur insep Hc Hcur.
  - cbn [app splitRunsAux]. rewrite Hc. unfold splitRuns.
    rewrite <- (splitRunsAux_insep sep b).
    destruct insep.
    + rewrite (Hcur eq_refl). cbn [rev filter length Nat.ltb Nat.leb]. reflexivity.
    + cbn [filter]. destruct (0 <? length (rev cur)); cbn [length]; lia.
  - cbn [app splitRunsAux]. destruct (sep x).
    + destruct insep.
      * apply IH; [exact Hc | reflexivity].
      * cbn [filter]. destruct (0 <? length (rev cur)); cbn [length];
          rewrite IH by (try exact Hc; reflexivity); reflexivity.
    + apply IH; [exact Hc | discriminate].
Qed.

Lemma countWords_zero_aux :
  forall s cur insep,
    (insep = true -> cur = []) ->
    length (filter (fun word => 0 <? length word) (splitRunsAux isSpace s cur insep)) = 0
    <-> cur = [] /\ hasNonSpace s = false.
Proof.
  induction s as [| c s IH]; intros cur insep Hcur;
    cbn [splitRunsAux hasNonSpace existsb].
  - cbn [filter]. destruct cur as [| x cur].
    + cbn. tauto.
    + replace (0 <? length (rev (x :: cur))) with true
        by (symmetry; apply Nat.ltb_lt; rewrite length_rev; cbn; lia).
      cbn [length]. split; [discriminate | intros [H _]; discriminate].
  - fold (hasNonSpace s). destruct (isSpace c) eqn:E; cbn [negb orb].
    + destruct insep.
      * rewrite (Hcur eq_refl). apply IH. reflexivity.
      * cbn [filter]. destruct cur as [| x cur].
        -- cbn [rev length Nat.ltb Nat.leb]. apply IH. reflexivity.
        -- replace (0 <? length (rev (x :: cur))) with true
             by (symmetry; apply Nat.ltb_lt; rewrite length_rev; cbn; lia).
           cbn [length]. split; [discriminate | intros [H _]; discriminate].
    + rewrite IH by discriminate.
      split; [intros [H _]; discriminate | intros [_ H]; discriminate].
Qed.

(** X5. Counting words is additive over white space: the words of two
    texts put together with a white-space character between them are the
    words of the one and the words of the other.  A text has no word
    exactly when it holds white space only. *)
Theorem countWords_additive :
  forall (a b : jsstring) (c : N),
    isSpace c = true ->
    countWords (a ++ c :: b) = countWords a + countWords b
    /\ (countWords a = 0 <-> hasNonSpace a = false).
Proof.
  intros a b c Hc. unfold countWords, splitRuns. split.
  - apply countWords_app_aux; [exact Hc | discriminate].
  - rewrite countWords_zero_aux by discriminate. tauto.
Qed.

Lemma countWords_additive_witness :
  countWords (js "once upon" ++ 32%N :: js "a time") = 2 + 2.
Proof.
  destruct (countWords_additive (js "once upon") (js "a time") 32%N eq_refl) as [H _].
  rewrite H. vm_compute. reflexivity.
Defined.

(** *** The analyzer: markers *)

Lemma startsWith_app_r :
  forall p s post, startsWith p s = true -> startsWith p (s ++ post) = true.
Proof.
  induction p as [| a p IH]; intros s post H; [reflexivity |].
  destruct s as [| b s]; [discriminate |]. cbn [app startsWith] in *.
  apply andb_true_iff in H. destruct H as [H1 H2].
  rewrite H1. cbn [andb]. apply IH. exact H2.
Qed.

Lemma includes_app_r :
  forall s post p, includes s p = true -> includes (s ++ post) p = true.
Proof.
  induction s as [| c s IH]; intros post p H.
  - cbn [includes] in H. rewrite orb_false_r in H.
    destruct p; [| discriminate]. destruct post; reflexivity.
  - cbn [app includes] in *. apply orb_true_iff in H. destruct H as [H | H].
    + pose proof (startsWith_app_r _ (c :: s) post H) as H'. cbn [app] in H'.
      rewrite H'. reflexivity.
    + rewrite (IH post p H). apply orb_true_r.
Qed.

Lemma includes_app_l :
  forall pre s p, includes s p = true -> includes (pre ++ s) p = true.
Proof.
  induction pre as [| c pre IH]; intros s p H; [exact H |].
  cbn [app includes]. rewrite (IH s p H). apply orb_true_r.
Qed.

Lemma toLowerCase_app :
  forall a b, toLowerCase (a ++ b) = toLowerCase a ++ toLowerCase b.
Proof. intros a b. unfold toLowerCase. apply flat_map_app. Qed.

(** A marker found in a text is found in every text that holds it. *)
Lemma containsPatterns_app :
  forall pre text post patterns,
    containsPatterns text patterns = true ->
    containsPatterns (pre ++ text ++ post) patterns = true.
Proof.
  intros pre text post patterns H. unfold containsPatterns in *.
  apply existsb_exists in H. destruct H as (p & Hp & H).
  apply existsb_exists. exists p. split; [exact Hp |].
  rewrite !toLowerCase_app. apply includes_app_l, includes_app_r. exact H.
Qed.

(** X6. The markers of the narrative position are looked for anywhere
    in the text, inside longer words too, so that a marker found in a
    text is found in every text that holds it; and the last marker
    tested wins: a text that holds a resolution marker is an ending,
    whatever else it holds, and one that holds a climax marker and no
    resolution marker is a turning point. *)
Theorem determineNarrativePosition_precedence :
  forall pre text post : jsstring,
    let inner := determineNarrativePosition text in
    let whole := determineNarrativePosition (pre ++ text ++ post) in
    (isIntroduction inner = true -> isIntroduction whole = true)
    /\ (isClimax inner = true -> isClimax whole = true)
    /\ (isResolution inner = true -> position whole = ResolutionEnding)
    /\ (isClimax inner = true -> isResolution whole = false ->
        position whole = ClimaxTurningPoint)
    /\ (position whole = MiddleDeveloping
        <-> isIntroduction whole = false /\ isClimax whole = false
            /\ isResolution whole = false).
Proof.
  intros pre text post. cbn zeta. unfold determineNarrativePosition.
  cbn [isIntroduction isClimax isResolution position].
  repeat split.
  - apply containsPatterns_app.
  - apply containsPatterns_app.
  - intro H. rewrite (containsPatterns_app pre text post _ H). reflexivity.
  - intros H H'. rewrite (containsPatterns_app pre text post _ H), H'. reflexivity.
  - repeat match goal with
           | H : context [if ?b then _ else _] |- _ => destruct b eqn:?; try discriminate H
           end; reflexivity.
  - repeat match goal with
           | H : context [if ?b then _ else _] |- _ => destruct b eqn:?; try discriminate H
           end; reflexivity.
  - repeat match goal with
           | H : context [if ?b then _ else _] |- _ => destruct b eqn:?; try discriminate H
           end; reflexivity.
  - intros (H1 & H2 & H3). rewrite H1, H2, H3. reflexivity.
Qed.

(** *** The enhancer: the stages that add text *)

Lemma Embeds_refl : forall (A : Type) (s : list A), Embeds s s.
Proof. induction s; constructor; assumption. Qed.

Lemma Embeds_trans :
  forall (A : Type) (s t u : list A), Embeds s t -> Embeds t u -> Embeds s u.
Proof.
  intros A s t u H1 H2. revert s H1.
  induction H2 as [u | c t u H IH | c t u H IH]; intros s H1.
  - inversion H1; subst. constructor.
  - inversion H1; subst.
    + constructor.
    + constructor. apply IH. assumption.
    + apply Embeds_skip. apply IH. assumption.
  - apply Embeds_skip. apply IH. exact H1.
Qed.

Lemma Embeds_app_l :
  forall (A : Type) (x s t : list A), Embeds s t -> Embeds s (x ++ t).
Proof. induction x; intros; cbn [app]; [| apply Embeds_skip; apply IHx]; assumption. Qed.

Lemma Embeds_app :
  forall (A : Type) (s t s' t' : list A),
    Embeds s t -> Embeds s' t' -> Embeds (s ++ s') (t ++ t').
Proof.
  intros A s t s' t' H H'. induction H as [t | c s t H IH | c s t H IH]; cbn [app].
  - apply Embeds_app_l. exact H'.
  - constructor. exact IH.
  - apply Embeds_skip. exact IH.
Qed.

Lemma Embeds_app_r : forall (A : Type) (s x : list A), Embeds s (s ++ x).
Proof.
  intros A s x. rewrite <- (app_nil_r s) at 1.
  apply Embeds_app; [apply Embeds_refl | constructor].
Qed.

Lemma Embeds_insert :
  forall (A : Type) (a x b : list A), Embeds (a ++ b) (a ++ x ++ b).
Proof.
  intros A a x b. apply Embeds_app; [apply Embeds_refl |].
  apply Embeds_app_l, Embeds_refl.
Qed.

Lemma Embeds_length :
  forall (A : Type) (s t : list A), Embeds s t -> length s <= length t.
Proof. intros A s t H. induction H; cbn [length]; lia. Qed.

Lemma spliceIn_not_nil :
  forall (A : Type) (l : list A) i x, spliceIn l i x <> [].
Proof.
  intros A l i x H. unfold spliceIn in H.
  apply (f_equal (@length A)) in H. rewrite length_app in H. cbn in H. lia.
Qed.

Lemma Embeds_join_spliceIn :
  forall sep l i x, Embeds (join sep l) (join sep (spliceIn l i x)).
Proof.
  intros sep l. induction l as [| y l IH]; intros i x.
  - constructor.
  - destruct i as [| i].
    + unfold spliceIn. cbn [firstn skipn app].
      rewrite (join_cons sep x (y :: l)) by discriminate.
      apply Embeds_app_l, Embeds_app_l, Embeds_refl.
    + change (spliceIn (y :: l) (S i) x) with (y :: spliceIn l i x).
      rewrite (join_cons sep y (spliceIn l i x)) by apply spliceIn_not_nil.
      destruct l as [| z l].
      * cbn [join]. apply Embeds_app_r.
      * rewrite (join_cons sep y (z :: l)) by discriminate.
        apply Embeds_app; [apply Embeds_refl |].
        apply Embeds_app; [apply Embeds_refl | apply IH].
Qed.

Lemma Embeds_join :
  forall (sep : jsstring) (l l' : list jsstring),
    Forall2 (fun p q : jsstring => Embeds p q) l l' -> Embeds (join sep l) (join sep l').
Proof.
  intros sep l l' H. induction H as [| x x' l l' Hx H IH].
  - constructor.
  - destruct H as [| y y' l l' Hy H].
    + cbn [join]. exact Hx.
    + rewrite (join_cons sep x (y :: l)), (join_cons sep x' (y' :: l')) by discriminate.
      apply Embeds_app; [exact Hx |].
      apply Embeds_app; [apply Embeds_refl | exact IH].
Qed.

Lemma Forall2_Embeds_refl : forall l : list jsstring, Forall2 (fun p q : jsstring => Embeds p q) l l.
Proof. induction l; constructor; [apply Embeds_refl | assumption]. Qed.

Lemma updateAt_Embeds :
  forall (l : list jsstring) i f,
    (forall p, Embeds p (f p)) -> Forall2 (fun p q : jsstring => Embeds p q) l (updateAt l i f).
Proof.
  induction l as [| x l IH]; intros i f Hf; cbn [updateAt]; [constructor |].
  destruct i as [| i]; constructor.
  - apply Hf.
  - apply Forall2_Embeds_refl.
  - apply Embeds_refl.
  - apply IH. exact Hf.
Qed.

(** The evaluation that the stages ask for again is the one of the
    analyzer, function by function. *)
Lemma performEnhancementEvaluation_fields :
  forall text evaluation,
    performEnhancementEvaluation text = Return evaluation ->
    evaluateGoldenShadowNeed text = Return (needsGoldenShadow evaluation)
    /\ needsEnvironmentalExpansion evaluation = evaluateEnvironmentalExpansionNeed text
    /\ needsActionSceneEnhancement evaluation = evaluateActionSceneNeed text
    /\ needsProseSmoothening evaluation = evaluateProseSmoothingNeed text
    /\ repetitionSeverity evaluation = evaluateRepetitionSeverity text.
Proof.
  intros text evaluation H. unfold performEnhancementEvaluation in H.
  apply bind_Return in H. destruct H as (need & H1 & H).
  apply Return_inj in H. subst evaluation.
  cbn [needsGoldenShadow needsEnvironmentalExpansion needsActionSceneEnhancement
       needsProseSmoothening repetitionSeverity].
  repeat split. exact H1.
Qed.

Lemma developCharacter_Embeds :
  forall enhancedText character enhancedText',
    developCharacter enhancedText character = Return enhancedText' ->
    Embeds enhancedText enhancedText'.
Proof.
  intros enhancedText character enhancedText' H.
  apply developCharacter_inserts in H. destruct H as [H | [p H]]; subst enhancedText';
    [apply Embeds_refl |].
  unfold slice, sliceFrom. cbn [skipn]. rewrite Nat.sub_0_r.
  rewrite <- (firstn_skipn p enhancedText) at 1.
  apply Embeds_insert.
Qed.

Lemma developCharacters_Embeds :
  forall characters enhancedText enhancedText',
    developCharacters enhancedText characters = Return enhancedText' ->
    Embeds enhancedText enhancedText'.
Proof.
  induction characters as [| character characters IH];
    intros enhancedText enhancedText' H; cbn [developCharacters] in H.
  - apply Return_inj in H. subst. apply Embeds_refl.
  - apply bind_Return in H. destruct H as (text1 & H1 & H2).
    eapply Embeds_trans; [eapply developCharacter_Embeds; exact H1 | apply IH; exact H2].
Qed.

Lemma applyGoldenShadowEnhancement_Embeds :
  forall text expansionTarget currentWordCount targetWordCount text',
    applyGoldenShadowEnhancement text expansionTarget currentWordCount targetWordCount
    = Return text' ->
    Embeds text text'.
Proof.
  intros text expansionTarget currentWordCount targetWordCount text' H.
  unfold applyGoldenShadowEnhancement in H.
  apply bind_Return in H. destruct H as (enhancementEval & _ & H).
  apply bind_Return in H. destruct H as (enhancedText & H1 & H).
  apply developCharacters_Embeds in H1.
  destruct (hasUnderdevelopedPlotElements (needsGoldenShadow enhancementEval));
    apply Return_inj in H; subst text'; [| exact H1].
  eapply Embeds_trans; [exact H1 |].
  rewrite <- (join_splitOn paragraphBreak enhancedText) at 1
    by apply paragraphBreak_not_nil.
  apply Embeds_join_spliceIn.
Qed.

Lemma applyEnvironmentalExpansion_Embeds :
  forall text expansionTarget currentWordCount targetWordCount text',
    applyEnvironmentalExpansion text expansionTarget currentWordCount targetWordCount
    = Return text' ->
    Embeds text text'.
Proof.
  intros text expansionTarget currentWordCount targetWordCount text' H.
  unfold applyEnvironmentalExpansion in H.
  apply bind_Return in H. destruct H as (enhancementEval & _ & H).
  destruct (negb (hasSettingDescription (needsEnvironmentalExpansion enhancementEval))
            || (sensoryRichness (needsEnvironmentalExpansion enhancementEval) <? 3));
    apply Return_inj in H; subst text'; [| apply Embeds_refl].
  eapply Embeds_trans; [| apply Embeds_join_spliceIn].
  rewrite <- (join_splitOn paragraphBreak text) at 1 by apply paragraphBreak_not_nil.
  apply Embeds_join. apply updateAt_Embeds. intro p. apply Embeds_app_r.
Qed.

(** What the loop over the action paragraphs does to each paragraph. *)
Lemma intensifyAll_shape :
  forall needs paragraphs draws paragraphs' rest,
    intensifyAll needs paragraphs draws = Return (paragraphs', rest) ->
    Forall2 (fun p p' => if isActionParagraph p
                         then exists suffix, p' = p ++ suffix
                         else p' = p)
            paragraphs paragraphs'
    /\ length draws = length rest + length (filter isActionParagraph paragraphs).
Proof.
  intros needs. induction paragraphs as [| paragraph paragraphs IH];
    intros draws paragraphs' rest H; cbn [intensifyAll] in H.
  - returned H. split; [constructor | cbn; lia].
  - apply bindR_Return in H. destruct H as (paragraph' & draws1 & H1 & H).
    apply bindR_Return in H. destruct H as (rest' & draws2 & H2 & H).
    apply ret_Return_pair in H. destruct H as [Hp Hrest]. subst paragraphs' draws2.
    destruct (IH _ _ _ H2) as [IH1 IH2]. cbn [filter].
    destruct (isActionParagraph paragraph) eqn:Ea.
    + unfold intensify in H1.
      apply bindR_Return in H1. destruct H1 as (r & draws3 & Hr & H1).
      apply ret_Return_pair in H1. destruct H1 as [Hp Hd3]. subst paragraph' draws3.
      assert (Hd : length draws = S (length draws1)).
      { destruct draws as [| r0 draws]; [discriminate |].
        cbn [Math_random] in Hr. apply Return_inj in Hr.
        apply pair_equal_spec in Hr. destruct Hr; subst. reflexivity. }
      split; [| cbn [length]; lia].
      constructor; [| exact IH1]. rewrite Ea.
      destruct (negb (hasTimeManipulation needs)), (negb (hasSensoryDetails needs)),
        (negb (hasEnvironmentalInteraction needs)), (aboveHalf r);
        rewrite <- ?app_assoc; eexists; try reflexivity;
        rewrite app_nil_r; reflexivity.
    + apply ret_Return_pair in H1. destruct H1 as [Hp Hd1]. subst paragraph' draws1.
      split; [| lia].
      constructor; [rewrite Ea; reflexivity | exact IH1].
Qed.

Lemma Forall2_shape_Embeds :
  forall (P : jsstring -> jsstring -> Prop) (l l' : list jsstring),
    (forall p p', P p p' -> Embeds p p') -> Forall2 P l l' -> Forall2 (fun p q : jsstring => Embeds p q) l l'.
Proof. intros P l l' HP H. induction H; constructor; auto. Qed.

(** X10. The action stage leaves a text alone that holds at most five
    of the action verbs; on another text, it leaves every paragraph
    without an action verb as it is and writes only at the end of the
    paragraphs that hold one, drawing one random number for each of
    them. *)
Theorem applyActionSceneEnhancement_shape :
  forall text expansionTarget currentWordCount targetWordCount draws text' rest,
    applyActionSceneEnhancement text expansionTarget currentWordCount targetWordCount draws
    = Return (text', rest) ->
    (isAction (determineSceneType text) = false -> text' = text /\ rest = draws)
    /\ (isAction (determineSceneType text) = true ->
        length draws
        = length rest + length (filter isActionParagraph (splitOn paragraphBreak text)))
    /\ exists paragraphs',
         text' = join paragraphBreak paragraphs'
         /\ Forall2 (fun p p' => if isActionParagraph p
                                 then exists suffix, p' = p ++ suffix
                                 else p' = p)
                    (splitOn paragraphBreak text) paragraphs'.
Proof.
  intros text expansionTarget currentWordCount targetWordCount draws text' rest H.
  unfold applyActionSceneEnhancement in H.
  apply bindR_Return in H. destruct H as (enhancementEval & draws1 & He & H).
  apply lift_Return in He. cbn [fst snd] in He. destruct He as [He Hd]. subst draws1.
  apply performEnhancementEvaluation_fields in He.
  destruct He as (_ & _ & He & _). rewrite He in H. clear He.
  unfold evaluateActionSceneNeed in H.
  assert (Hsame : Forall2 (fun p p' => if isActionParagraph p
                                       then exists suffix, p' = p ++ suffix
                                       else p' = p)
                          (splitOn paragraphBreak text) (splitOn paragraphBreak text)).
  { generalize (splitOn paragraphBreak text). induction l; constructor; [| assumption].
    destruct (isActionParagraph a); [exists []; rewrite app_nil_r |]; reflexivity. }
  destruct (isAction (determineSceneType text)) eqn:Ea;
    cbn [negb isActionScene] in H.
  - destruct (existsb isActionParagraph (splitOn paragraphBreak text)) eqn:Ex.
    + apply bindR_Return in H. destruct H as (paragraphs' & draws2 & H1 & H).
      returned H. apply intensifyAll_shape in H1. destruct H1 as [H1 H2].
      split; [discriminate |]. split; [intros _; exact H2 |].
      exists paragraphs'. split; [reflexivity | exact H1].
    + returned H. split; [discriminate |]. split.
      * intros _.
        assert (Hnone : filter isActionParagraph (splitOn paragraphBreak text) = []).
        { clear - Ex. induction (splitOn paragraphBreak text) as [| p l IH];
            [reflexivity |].
          cbn [existsb filter] in *. apply orb_false_iff in Ex.
          destruct Ex as [E1 E2]. rewrite E1. apply IH. exact E2. }
        rewrite Hnone. cbn. lia.
      * exists (splitOn paragraphBreak text).
        split; [symmetry; apply join_splitOn, paragraphBreak_not_nil | exact Hsame].
  - returned H. split; [intros _; split; reflexivity |].
    split; [discriminate |].
    exists (splitOn paragraphBreak text).
    split; [symmetry; apply join_splitOn, paragraphBreak_not_nil | exact Hsame].
Qed.

Lemma applyActionSceneEnhancement_Embeds :
  forall text expansionTarget currentWordCount targetWordCount draws text' rest,
    applyActionSceneEnhancement text expansionTarget currentWordCount targetWordCount draws
    = Return (text', rest) ->
    Embeds text text'.
Proof.
  intros text expansionTarget currentWordCount targetWordCount draws text' rest H.
  unfold applyActionSceneEnhancement in H.
  apply bindR_Return in H. destruct H as (enhancementEval & draws1 & _ & H).
  destruct (negb (isActionScene (needsActionSceneEnhancement enhancementEval))).
  - returned H. apply Embeds_refl.
  - destruct (existsb isActionParagraph (splitOn paragraphBreak text)).
    + apply bindR_Return in H. destruct H as (paragraphs' & draws2 & H1 & H).
      returned H. apply intensifyAll_shape in H1. destruct H1 as [H1 _].
      rewrite <- (join_splitOn paragraphBreak text) at 1 by apply paragraphBreak_not_nil.
      apply Embeds_join. eapply Forall2_shape_Embeds; [| exact H1].
      cbn beta. intros p p' Hp. destruct (isActionParagraph p).
      * destruct Hp as [suffix Hp]. subst. apply Embeds_app_r.
      * subst. apply Embeds_refl.
    + returned H. apply Embeds_refl.
Qed.

(** What the loop of the smoothing stage does to each paragraph after
    the first. *)
Lemma smoothAll_shape :
  forall paragraphs draws paragraphs' rest,
    smoothAll paragraphs draws = Return (paragraphs', rest) ->
    length draws = length rest + 2 * length paragraphs
    /\ Forall2 (fun p p' => p' = p
                            \/ (exists t, In t transitions /\ p' = t ++ p)
                            \/ p' = js "undefined" ++ p)
               paragraphs paragraphs'
    /\ (Forall inUnit draws ->
        Forall2 (fun p p' => p' = p \/ exists t, In t transitions /\ p' = t ++ p)
                paragraphs paragraphs').
Proof.
  induction paragraphs as [| paragraph paragraphs IH];
    intros draws paragraphs' rest H; cbn [smoothAll] in H.
  - returned H. repeat split; [cbn; lia | constructor | constructor].
  - destruct draws as [| r1 [| r2 draws]]; try discriminate.
    unfold bindR at 1 in H. cbn [Math_random] in H.
    unfold bindR at 1 in H. cbn [Math_random] in H.
    apply bindR_Return in H. destruct H as (rest' & draws3 & H2 & H).
    returned H. destruct (IH _ _ _ H2) as (IH1 & IH2 & IH3).
    split; [cbn [length]; lia |]. split.
    + constructor; [| exact IH2].
      destruct (aboveHalf r2); [| left; reflexivity]. right.
      destruct (element transitions (randomIndex r1 (length transitions))) as [t |] eqn:Et;
        cbn [orUndefined].
      * left. exists t. split; [eapply element_In; exact Et | reflexivity].
      * right. reflexivity.
    + intro Hd. inversion Hd as [| ? ? Hr1 Hd1]; subst.
      inversion Hd1 as [| ? ? Hr2 Hd2]; subst.
      constructor; [| apply IH3; exact Hd2].
      destruct (aboveHalf r2); [| left; reflexivity]. right.
      destruct (element_in_range _ transitions (randomIndex r1 (length transitions)))
        as (t & Et).
      { apply randomIndex_range; [exact Hr1 | cbn; lia]. }
      unfold jsstring in *. rewrite Et. cbn [orUndefined].
      exists t. split; [eapply element_In; exact Et | reflexivity].
Qed.

(** X11. The smoothing stage leaves a text alone that holds one of the
    transition words of the analyzer.  In another text it never touches
    the first paragraph, and each later paragraph is left as it is or
    given one of the ten transitions in front; two random numbers are
    drawn for each paragraph after the first.  The draws are those of
    the interval from 0 to 1. *)
Theorem applyProseSmoothening_shape :
  forall text draws text' rest,
    Forall inUnit draws ->
    applyProseSmoothening text draws = Return (text', rest) ->
    (containsPatterns text transitionWords = true -> text' = text /\ rest = draws)
    /\ (containsPatterns text transitionWords = false ->
        length draws = length rest + 2 * (length (splitOn paragraphBreak text) - 1))
    /\ exists paragraphs',
         text' = join paragraphBreak paragraphs'
         /\ hd_error paragraphs' = hd_error (splitOn paragraphBreak text)
         /\ Forall2 (fun p p' => p' = p \/ exists t, In t transitions /\ p' = t ++ p)
                    (splitOn paragraphBreak text) paragraphs'.
Proof.
  intros text draws text' rest Hd H. unfold applyProseSmoothening in H.
  apply bindR_Return in H. destruct H as (enhancementEval & draws1 & He & H).
  apply lift_Return in He. cbn [fst snd] in He. destruct He as [He Hd1]. subst draws1.
  apply performEnhancementEvaluation_fields in He.
  destruct He as (_ & _ & _ & He & _). rewrite He in H. clear He.
  unfold evaluateProseSmoothingNeed in H. cbn [hasTransitionWords] in H.
  assert (Hsame : forall l : list jsstring,
             Forall2 (fun p p' => p' = p \/ exists t, In t transitions /\ p' = t ++ p) l l).
  { induction l; constructor; [left; reflexivity | assumption]. }
  destruct (containsPatterns text transitionWords) eqn:Et; cbn [negb] in H.
  - returned H. split; [intros _; split; reflexivity |]. split; [discriminate |].
    exists (splitOn paragraphBreak text).
    split; [symmetry; apply join_splitOn, paragraphBreak_not_nil |].
    split; [reflexivity | apply Hsame].
  - split; [discriminate |].
    destruct (splitOn paragraphBreak text) as [| first others] eqn:E.
    + exfalso. revert E. apply splitOnAux_not_nil.
    + apply bindR_Return in H. destruct H as (others' & draws2 & H1 & H).
      returned H. apply smoothAll_shape in H1. destruct H1 as (H1 & _ & H2).
      split; [intros _; cbn [length]; lia |].
      exists (first :: others'). split; [reflexivity |]. split; [reflexivity |].
      constructor; [left; reflexivity | apply H2; exact Hd].
Qed.

Lemma applyProseSmoothening_Embeds :
  forall text draws text' rest,
    applyProseSmoothening text draws = Return (text', rest) ->
    Embeds text text'.
Proof.
  intros text draws text' rest H. unfold applyProseSmoothening in H.
  apply bindR_Return in H. destruct H as (enhancementEval & draws1 & _ & H).
  destruct (negb (hasTransitionWords (needsProseSmoothening enhancementEval)));
    [| returned H; apply Embeds_refl].
  rewrite <- (join_splitOn paragraphBreak text) at 1 by apply paragraphBreak_not_nil.
  destruct (splitOn paragraphBreak text) as [| first others] eqn:E.
  - returned H. apply Embeds_refl.
  - apply bindR_Return in H. destruct H as (others' & draws2 & H1 & H).
    returned H. apply smoothAll_shape in H1. destruct H1 as (_ & H1 & _).
    apply Embeds_join. constructor; [apply Embeds_refl |].
    eapply Forall2_shape_Embeds; [| exact H1].
    cbn beta. intros p p' [Hp | [(t & _ & Hp) | Hp]]; subst;
      [apply Embeds_refl | apply Embeds_app_l, Embeds_refl
       | apply Embeds_app_l, Embeds_refl].
Qed.

(** X12. With the repetition stage off, the enhancer only adds to the
    text: what it returns is the text with characters put in, and none
    of the characters of the text is taken out, changed or moved. *)
Theorem customEnhanceText_only_adds :
  forall text expansionTarget options draws result rest,
    enableRepetitionElimination options = false ->
    customEnhanceText text expansionTarget options draws = Return (result, rest) ->
    Embeds text result /\ length text + 2 <= length result.
Proof.
  intros text expansionTarget options draws result rest Hoff H.
  assert (He : Embeds text result
               /\ exists enhanced summary, result = enhanced ++ paragraphBreak ++ summary
                                           /\ Embeds text enhanced).
  { apply customEnhanceText_logged in H. destruct H as [log H].
    unfold customEnhanceTextLogged in H.
    apply bindR_Return in H. destruct H as (report & draws0 & _ & H).
    apply bindR_Return in H. destruct H as (text1 & draws1 & H1 & H).
    apply bindR_Return in H. destruct H as (text2 & draws2 & H2 & H).
    apply bindR_Return in H. destruct H as (text3 & draws3 & H3 & H).
    apply bindR_Return in H. destruct H as (text4 & draws4 & H4 & H).
    apply bindR_Return in H. destruct H as ([text5 log5] & draws5 & H5 & H).
    cbn [fst snd] in H. apply ret_Return_pair in H. destruct H as [H _].
    apply pair_equal_spec in H. destruct H as [Hr Hl]. subst result log.
    assert (L1 : Embeds text text1).
    { destruct (enableGoldenShadow options).
      - apply lift_Return in H1. destruct H1 as [H1 _]. cbn [fst] in H1.
        eapply applyGoldenShadowEnhancement_Embeds. exact H1.
      - returned H1. apply Embeds_refl. }
    assert (L2 : Embeds text1 text2).
    { destruct (enableEnvironmental options).
      - apply lift_Return in H2. destruct H2 as [H2 _]. cbn [fst] in H2.
        eapply applyEnvironmentalExpansion_Embeds. exact H2.
      - returned H2. apply Embeds_refl. }
    assert (L3 : Embeds text2 text3).
    { destruct (enableActionScene options);
        [destruct (isAction (determineSceneType text)) |].
      - eapply applyActionSceneEnhancement_Embeds. exact H3.
      - returned H3. apply Embeds_refl.
      - returned H3. apply Embeds_refl. }
    assert (L4 : Embeds text3 text4).
    { destruct (enableProseSmoother options).
      - eapply applyProseSmoothening_Embeds. exact H4.
      - returned H4. apply Embeds_refl. }
    rewrite Hoff in H5. apply ret_Return_pair in H5. destruct H5 as [H5 _].
    apply pair_equal_spec in H5. destruct H5 as [H5 _]. subst text5.
    assert (L : Embeds text text4).
    { eapply Embeds_trans; [exact L1 |]. eapply Embeds_trans; [exact L2 |].
      eapply Embeds_trans; [exact L3 | exact L4]. }
    split.
    - eapply Embeds_trans; [exact L | apply Embeds_app_r].
    - eexists _, _. split; [reflexivity | exact L]. }
  destruct He as [He (enhanced & summary & Hr & Hen)]. split; [exact He |].
  subst result. apply Embeds_length in Hen.
  rewrite !length_app. cbn [paragraphBreak length]. unfold paragraphBreak. cbn [length]. lia.
Qed.

(** *** The analyzer: when the analysis returns *)

Lemma dropFirstNonWord_units :
  forall (Q : N -> Prop) w, Forall Q w -> Forall Q (dropFirstNonWord w).
Proof.
  intros Q w H. induction H as [| c w Hc Hw IH]; cbn [dropFirstNonWord].
  - constructor.
  - destruct (isWordChar c); [constructor; assumption | exact Hw].
Qed.

Lemma filterM_returns :
  forall (A : Type) (p : A -> outcome bool) (l : list A),
    (forall x, In x l -> exists b, p x = Return b) ->
    exists r, filterM p l = Return r.
Proof.
  intros A p l. induction l as [| x l IH]; intro H; cbn [filterM].
  - eexists. reflexivity.
  - destruct (H x (or_introl eq_refl)) as [b Hb]. rewrite Hb. cbn [bind].
    destruct IH as [r Hr]; [intros y Hy; apply H; right; exact Hy |].
    rewrite Hr. cbn [bind]. eexists. reflexivity.
Qed.

Lemma tl_In : forall (A : Type) (x : A) l, In x (tl l) -> In x l.
Proof. intros A x [| y l] H; [exact H | right; exact H]. Qed.

(** A name taken from a text free of syntax characters is a pattern of
    the fragment. *)
Lemma plain_names :
  forall text name,
    forallb (fun c => negb (isSyntaxChar c) && (c <? 256)%N) text = true ->
    In name (extractPotentialCharacterNames text) ->
    RegExpWord name = WordPattern name.
Proof.
  intros text name Hplain Hname.
  unfold extractPotentialCharacterNames in Hname.
  destruct (names_fold (tl (splitRuns isSpace text)) []) as [_ Hin].
  cbn zeta in Hin. apply Hin in Hname. clear Hin.
  destruct Hname as [[] | (w & Hw & Hn & Hu)].
  assert (Hunits : Forall (fun c => negb (isSyntaxChar c) && (c <? 256)%N = true) name).
  { subst name. apply dropFirstNonWord_units.
    apply tl_In in Hw.
    pose proof (splitRunsAux_units (fun c => negb (isSyntaxChar c) && (c <? 256)%N = true)
                  isSpace text [] false) as H.
    assert (Htext : Forall (fun c => negb (isSyntaxChar c) && (c <? 256)%N = true) text).
    { apply Forall_forall. rewrite forallb_forall in Hplain. exact Hplain. }
    specialize (H Htext (Forall_nil _)).
    rewrite Forall_forall in H. apply H. exact Hw. }
  unfold RegExpWord. destruct name as [| c name]; [discriminate Hu |].
  replace (forallb (fun c0 => negb (isSyntaxChar c0) && (c0 <? 256)%N) (c :: name))
    with true; [reflexivity |].
  symmetry. apply forallb_forall. rewrite Forall_forall in Hunits. exact Hunits.
Qed.

(** X13. On a text that holds none of the syntax characters of regular
    expressions, and characters of Basic Latin and Latin-1 only, the
    analysis returns its report: no name taken from such a text makes a
    pattern that is rejected.  The report gives the number of words and
    of characters of the text. *)
Theorem analyzeText_returns_on_plain_text :
  forall text : jsstring,
    forallb (fun c => negb (isSyntaxChar c) && (c <? 256)%N) text = true ->
    exists report,
      analyzeText text = Return report
      /\ wordCount report = countWords text
      /\ charCount report = length text
      /\ repeatedWords (repetitionPatterns report) = findRepeatedWords text.
Proof.
  intros text Hplain.
  assert (Hg : exists need, evaluateGoldenShadowNeed text = Return need).
  { unfold evaluateGoldenShadowNeed.
    destruct (filterM_returns _
                (fun name => n <- countOccurrences text name ;; Return (n <=? 2))
                (extractPotentialCharacterNames text)) as [r Hr].
    - intros name Hname. unfold countOccurrences.
      rewrite (plain_names text name Hplain Hname). cbn [bind]. eexists. reflexivity.
    - rewrite Hr. cbn [bind]. eexists. reflexivity. }
  destruct Hg as [need Hg].
  unfold analyzeText, performEnhancementEvaluation. rewrite Hg. cbn [bind].
  eexists. split; [reflexivity |].
  cbn [wordCount charCount repetitionPatterns repeatedWords identifyRepetitionPatterns].
  repeat split.
Qed.

(** *** The analyzer: mood *)

(** X14. The words of the mood are looked for anywhere in the text, so
    that a mood word found in a text is found in every text that holds
    it, and the last kind tested wins: a text that holds a suspense word
    is suspenseful whatever else it holds, one that holds a negative
    word and no suspense word is negative, and the mood is neutral
    exactly when no word of the three kinds is found. *)
Theorem analyzeMoodAndTone_precedence :
  forall pre text post : jsstring,
    let inner := analyzeMoodAndTone text in
    let whole := analyzeMoodAndTone (pre ++ text ++ post) in
    (hasPositiveElements inner = true -> hasPositiveElements whole = true)
    /\ (hasNegativeElements inner = true -> hasNegativeElements whole = true)
    /\ (hasSuspenseElements inner = true -> mood whole = Suspenseful)
    /\ (hasNegativeElements inner = true -> hasSuspenseElements whole = false ->
        mood whole = Negative)
    /\ (mood whole = Neutral
        <-> hasPositiveElements whole = false /\ hasNegativeElements whole = false
            /\ hasSuspenseElements whole = false).
Proof.
  intros pre text post. cbn zeta. unfold analyzeMoodAndTone.
  cbn [hasPositiveElements hasNegativeElements hasSuspenseElements mood].
  split; [apply containsPatterns_app |].
  split; [apply containsPatterns_app |].
  split; [intro H; rewrite (containsPatterns_app pre text post _ H); reflexivity |].
  split; [intros H H'; rewrite (containsPatterns_app pre text post _ H), H'; reflexivity |].
  split.
  - intro H.
    repeat match type of H with
           | context [if ?b then _ else _] => destruct b eqn:?; try discriminate H
           end.
    repeat split.
  - intros (H1 & H2 & H3). rewrite H1, H2, H3. reflexivity.
Qed.

(** *** The enhancer: what the environmental stage supplies *)

Lemma startsWith_refl : forall s, startsWith s s = true.
Proof. induction s as [| c s IH]; cbn [startsWith]; [| rewrite N.eqb_refl]; auto. Qed.

Lemma includes_refl : forall s, includes s s = true.
Proof. intro s. destruct s; cbn [includes]; rewrite startsWith_refl; reflexivity. Qed.

(** A prefix of two strings put together lies in the first, or takes in
    the head of the second. *)
Lemma startsWith_app_cases :
  forall p a b,
    startsWith p (a ++ b) = true ->
    startsWith p a = true
    \/ exists c b', b = c :: b' /\ In c p.
Proof.
  induction p as [| x p IH]; intros a b H; [left; reflexivity |].
  destruct a as [| y a].
  - cbn [app] in H. destruct b as [| c b']; [discriminate |].
    cbn [startsWith] in H. apply andb_true_iff in H. destruct H as [H _].
    apply N.eqb_eq in H. subst. right. exists c, b'. split; [reflexivity | left; reflexivity].
  - cbn [app startsWith] in *. apply andb_true_iff in H. destruct H as [H1 H2].
    destruct (IH a b H2) as [H | (c & b' & Hb & Hc)].
    + left. rewrite H1, H. reflexivity.
    + right. exists c, b'. split; [exact Hb | right; exact Hc].
Qed.

(** Text put in where a line ends hides no occurrence of a pattern that
    holds no line feed. *)
Lemma includes_insert_at_break :
  forall p pre ins suf,
    ~ In nl p ->
    suf = [] \/ (exists s, suf = nl :: s) ->
    includes (pre ++ suf) p = true ->
    includes (pre ++ ins ++ suf) p = true.
Proof.
  intros p pre ins suf Hp Hsuf. induction pre as [| c pre IH]; intro H.
  - cbn [app] in *. apply includes_app_l. exact H.
  - cbn [app includes] in *. apply orb_true_iff in H. destruct H as [H | H].
    + change (c :: pre ++ suf) with ((c :: pre) ++ suf) in H.
      apply startsWith_app_cases in H. destruct H as [H | (x & b' & Hb & Hx)].
      * pose proof (startsWith_app_r _ _ (ins ++ suf) H) as H'.
        cbn [app] in H'. rewrite H'. reflexivity.
      * exfalso. destruct Hsuf as [Hs | [s Hs]]; subst suf; [discriminate |].
        inversion Hb; subst. contradiction.
    + rewrite (IH H). apply orb_true_r.
Qed.

Lemma containsPatterns_insert_at_break :
  forall patterns pre ins suf,
    Forall (fun p => ~ In nl p) patterns ->
    suf = [] \/ (exists s, suf = nl :: s) ->
    containsPatterns (pre ++ suf) patterns = true ->
    containsPatterns (pre ++ ins ++ suf) patterns = true.
Proof.
  intros patterns pre ins suf Hp Hsuf H. unfold containsPatterns in *.
  apply existsb_exists in H. destruct H as (p & Hin & H).
  apply existsb_exists. exists p. split; [exact Hin |].
  rewrite !toLowerCase_app. rewrite toLowerCase_app in H.
  apply includes_insert_at_break; [| | exact H].
  - rewrite Forall_forall in Hp. apply Hp. exact Hin.
  - destruct Hsuf as [Hs | [s Hs]]; subst suf; [left; reflexivity |].
    right. exists (toLowerCase s). reflexivity.
Qed.

(** The text of the environmental stage: the additions and the object
    paragraph are put in where the chosen paragraph ends. *)
Lemma join_insert_paragraph :
  forall (l : list jsstring) i addition object,
    i < length l ->
    exists pre suf,
      join paragraphBreak l = pre ++ suf
      /\ (suf = [] \/ exists s, suf = nl :: s)
      /\ join paragraphBreak
           (spliceIn (updateAt l i (fun p => p ++ addition)) (i + 1) object)
         = pre ++ (addition ++ paragraphBreak ++ object) ++ suf.
Proof.
  induction l as [| x l IH]; intros i addition object Hi; [cbn in Hi; lia |].
  destruct i as [| i].
  - cbn [updateAt]. unfold spliceIn. cbn [Nat.add firstn skipn app].
    rewrite (join_cons paragraphBreak (x ++ addition) (object :: l)) by discriminate.
    destruct l as [| y l].
    + exists x, []. cbn [join]. rewrite !app_nil_r.
      split; [reflexivity |]. split; [left; reflexivity |].
      rewrite <- !app_assoc. reflexivity.
    + exists x, (paragraphBreak ++ join paragraphBreak (y :: l)).
      rewrite (join_cons paragraphBreak x (y :: l)) by discriminate.
      rewrite (join_cons paragraphBreak object (y :: l)) by discriminate.
      split; [reflexivity |]. split; [right; eexists; reflexivity |].
      rewrite <- !app_assoc. reflexivity.
  - cbn [length] in Hi. destruct (IH i addition object ltac:(lia))
      as (pre & suf & Hjoin & Hsuf & Hres).
    cbn [updateAt].
    change (spliceIn (x :: updateAt l i (fun p => p ++ addition)) (S i + 1) object)
      with (x :: spliceIn (updateAt l i (fun p => p ++ addition)) (i + 1) object).
    rewrite (join_cons paragraphBreak x (spliceIn _ _ _)) by apply spliceIn_not_nil.
    rewrite (join_cons paragraphBreak x l) by (intro; subst; cbn in Hi; lia).
    exists (x ++ paragraphBreak ++ pre), suf.
    rewrite Hjoin, Hres. rewrite <- !app_assoc.
    split; [reflexivity |]. split; [exact Hsuf | reflexivity].
Qed.

Lemma findIndexFrom_range :
  forall (A : Type) (p : A -> bool) (l : list A) (k i : nat),
    findIndexFrom p l k = Some i -> k <= i < k + length l.
Proof.
  intros A p l. induction l as [| x l IH]; intros k i H; cbn [findIndexFrom] in H.
  - discriminate.
  - destruct (p x).
    + inversion H; subst. cbn [length]. lia.
    + apply IH in H. cbn [length]. lia.
Qed.

(** The sense a sentence of the stage supplies is found in every text
    that holds the sentence. *)
Lemma containsPatterns_sentence :
  forall sentence patterns a b,
    containsPatterns sentence patterns = true ->
    containsPatterns (a ++ sentence ++ b) patterns = true.
Proof. intros. apply containsPatterns_app. assumption. Qed.

Lemma additions_supply_senses :
  containsPatterns visualAddition
    (map js ["looked"; "saw"; "appeared"; "watched"; "color"; "bright"; "dark"; "shape"])
  = true
  /\ containsPatterns auditoryAddition
       (map js ["heard"; "sound"; "noise"; "listen"; "whisper"; "quiet"; "loud"; "silence"])
     = true
  /\ containsPatterns tactileAddition
       (map js ["felt"; "touch"; "rough"; "smooth"; "texture"; "warm"; "cold"; "soft";
                "hard"])
     = true
  /\ containsPatterns olfactoryAddition
       (map js ["smell"; "scent"; "aroma"; "odor"; "fragrance"; "stench"])
     = true.
Proof. vm_compute. repeat split. Qed.

Lemma sense_patterns_one_line :
  Forall (Forall (fun p : jsstring => ~ In nl p))
    [ map js ["looked"; "saw"; "appeared"; "watched"; "color"; "bright"; "dark"; "shape"];
      map js ["heard"; "sound"; "noise"; "listen"; "whisper"; "quiet"; "loud"; "silence"];
      map js ["felt"; "touch"; "rough"; "smooth"; "texture"; "warm"; "cold"; "soft"; "hard"];
      map js ["smell"; "scent"; "aroma"; "odor"; "fragrance"; "stench"] ].
Proof.
  assert (H : forallb (forallb (fun p => negb (existsb (N.eqb nl) p)))
                [ map js ["looked"; "saw"; "appeared"; "watched"; "color"; "bright"; "dark";
                          "shape"];
                  map js ["heard"; "sound"; "noise"; "listen"; "whisper"; "quiet"; "loud";
                          "silence"];
                  map js ["felt"; "touch"; "rough"; "smooth"; "texture"; "warm"; "cold";
                          "soft"; "hard"];
                  map js ["smell"; "scent"; "aroma"; "odor"; "fragrance"; "stench"] ]
              = true) by (vm_compute; reflexivity).
  apply Forall_forall. intros patterns Hps. apply Forall_forall. intros p Hp Hnl.
  rewrite forallb_forall in H. specialize (H _ Hps).
  rewrite forallb_forall in H. specialize (H _ Hp).
  apply negb_true_iff in H.
  assert (existsb (N.eqb nl) p = true)
    by (apply existsb_exists; exists nl; split; [exact Hnl | apply N.eqb_refl]).
  congruence.
Qed.

Lemma infix_here :
  forall (u s : jsstring), exists x y, u ++ s = x ++ s ++ y.
Proof. intros u s. exists u, []. rewrite app_nil_r. reflexivity. Qed.

Lemma infix_step :
  forall (b : bool) (u w s : jsstring),
    (exists x y, u = x ++ s ++ y) ->
    exists x y, (if b then u ++ w else u) = x ++ s ++ y.
Proof.
  intros b u w s (x & y & H). destruct b; [| exists x, y; exact H].
  exists x, (y ++ w). rewrite H, <- !app_assoc. reflexivity.
Qed.

(** X15. The environmental stage leaves a text alone whose need is low.
    When the need is high, the text it returns holds words of the four
    senses, so that the analyzer finds a sensory richness of 4 in it, and
    the paragraph of the object. *)
Theorem applyEnvironmentalExpansion_senses :
  forall text expansionTarget currentWordCount targetWordCount text',
    applyEnvironmentalExpansion text expansionTarget currentWordCount targetWordCount
    = Return text' ->
    let need := evaluateEnvironmentalExpansionNeed text in
    (envNeedLevel need = Low -> text' = text)
    /\ (envNeedLevel need = High ->
        sensoryRichness (evaluateEnvironmentalExpansionNeed text') = 4
        /\ includes text' objectParagraph = true).
Proof.
  intros text expansionTarget currentWordCount targetWordCount text' H. cbn zeta.
  unfold applyEnvironmentalExpansion in H.
  apply bind_Return in H. destruct H as (enhancementEval & He & H).
  apply performEnhancementEvaluation_fields in He.
  destruct He as (_ & He & _). rewrite He in H. clear He enhancementEval.
  cbn zeta in H.
  set (need := evaluateEnvironmentalExpansionNeed text) in *.
  assert (Hlevel : envNeedLevel need
                   = if negb (hasSettingDescription need) || (sensoryRichness need <? 3)
                     then High else Low).
  { unfold need, evaluateEnvironmentalExpansionNeed.
    cbn [envNeedLevel hasSettingDescription sensoryRichness].
    match goal with
    | |- (if ?x || ?y then _ else _) = _ => rewrite (orb_comm x y)
    end. reflexivity. }
  rewrite Hlevel. clear Hlevel.
  destruct (negb (hasSettingDescription need) || (sensoryRichness need <? 3));
    apply Return_inj in H; [| split; [intros _; symmetry; exact H | intro; discriminate]].
  split; [intro; discriminate |]. intros _.
  set (paragraphs := splitOn paragraphBreak text) in *.
  set (index := match findIndexFrom _ paragraphs 0 with
                | Some i => i
                | None => Nat.min 1 (length paragraphs - 1)
                end) in *.
  assert (Hindex : index < length paragraphs).
  { assert (0 < length paragraphs).
    { unfold paragraphs. destruct (splitOn paragraphBreak text) eqn:E; [| cbn; lia].
      exfalso. revert E. apply splitOnAux_not_nil. }
    unfold index. destruct (findIndexFrom _ paragraphs 0) as [i |] eqn:E.
    - apply findIndexFrom_range in E. lia.
    - lia. }
  set (v := if negb (hasSufficientVisualDescriptions need)
            then [] ++ visualAddition else []) in *.
  set (a := if negb (hasSufficientAuditoryDescriptions need)
            then v ++ auditoryAddition else v) in *.
  set (t := if negb (hasSufficientTactileDescriptions need)
            then a ++ tactileAddition else a) in *.
  set (o := if negb (hasSufficientOlfactoryDescriptions need)
            then t ++ olfactoryAddition else t) in *.
  destruct (join_insert_paragraph paragraphs index o objectParagraph Hindex)
    as (pre & suf & Hjoin & Hsuf & Hres).
  unfold paragraphs in Hjoin.
  rewrite join_splitOn in Hjoin by apply paragraphBreak_not_nil.
  fold paragraphs in Hres.
  assert (Htext' : text' = pre ++ (o ++ paragraphBreak ++ objectParagraph) ++ suf).
  { rewrite <- H. exact Hres. }
  clear H Hres. subst text'.
  set (result := pre ++ (o ++ paragraphBreak ++ objectParagraph) ++ suf).
  split.
  - assert (Hkeep : forall patterns,
               Forall (fun p : jsstring => ~ In nl p) patterns ->
               containsPatterns text patterns = true ->
               containsPatterns result patterns = true).
    { intros patterns Hp Hc. apply containsPatterns_insert_at_break; try assumption.
      rewrite <- Hjoin. exact Hc. }
    assert (Hadd : forall sentence patterns,
               (exists x y, o = x ++ sentence ++ y) ->
               containsPatterns sentence patterns = true ->
               containsPatterns result patterns = true).
    { intros sentence patterns (x & y & Ho) Hc. unfold result. rewrite Ho.
      replace (pre ++ ((x ++ sentence ++ y) ++ paragraphBreak ++ objectParagraph) ++ suf)
        with ((pre ++ x) ++ sentence ++ (y ++ paragraphBreak ++ objectParagraph ++ suf))
        by (rewrite <- !app_assoc; reflexivity).
      apply containsPatterns_app. exact Hc. }
    destruct additions_supply_senses as (Sv & Sa & St & So).
    pose proof sense_patterns_one_line as Hlines.
    inversion Hlines as [| ? ? Lv Hl1]; subst. inversion Hl1 as [| ? ? La Hl2]; subst.
    inversion Hl2 as [| ? ? Lt Hl3]; subst. inversion Hl3 as [| ? ? Lo _]; subst.
    clear Hlines Hl1 Hl2 Hl3.
    unfold evaluateEnvironmentalExpansionNeed at 1. cbn [sensoryRichness].
    fold result.
    assert (Hv : containsPatterns result
                   (map js ["looked"; "saw"; "appeared"; "watched"; "color"; "bright";
                            "dark"; "shape"]) = true).
    { destruct (hasSufficientVisualDescriptions need) eqn:E.
      - apply Hkeep; [exact Lv | exact E].
      - apply (Hadd visualAddition); [| exact Sv].
        unfold o, t, a. do 3 apply infix_step. unfold v. apply infix_here. }
    assert (Ha : containsPatterns result
                   (map js ["heard"; "sound"; "noise"; "listen"; "whisper"; "quiet";
                            "loud"; "silence"]) = true).
    { destruct (hasSufficientAuditoryDescriptions need) eqn:E.
      - apply Hkeep; [exact La | exact E].
      - apply (Hadd auditoryAddition); [| exact Sa].
        unfold o, t. do 2 apply infix_step. unfold a. apply infix_here. }
    assert (Ht : containsPatterns result
                   (map js ["felt"; "touch"; "rough"; "smooth"; "texture"; "warm"; "cold";
                            "soft"; "hard"]) = true).
    { destruct (hasSufficientTactileDescriptions need) eqn:E.
      - apply Hkeep; [exact Lt | exact E].
      - apply (Hadd tactileAddition); [| exact St].
        unfold o. apply infix_step. unfold t. apply infix_here. }
    assert (Ho : containsPatterns result
                   (map js ["smell"; "scent"; "aroma"; "odor"; "fragrance"; "stench"])
                 = true).
    { destruct (hasSufficientOlfactoryDescriptions need) eqn:E.
      - apply Hkeep; [exact Lo | exact E].
      - apply (Hadd olfactoryAddition); [| exact So].
        unfold o. apply infix_here. }
    rewrite Hv, Ha, Ht, Ho. reflexivity.
  - unfold result.
    replace (pre ++ (o ++ paragraphBreak ++ objectParagraph) ++ suf)
      with ((pre ++ o ++ paragraphBreak) ++ objectParagraph ++ suf)
      by (rewrite <- !app_assoc; reflexivity).
    apply includes_app_l, includes_app_r, includes_refl.
Qed.

(** *** The analyzer: prose of one paragraph *)

Lemma splitRunsAux_no_separator :
  forall sep s cur insep,
    (forall c, In c s -> sep c = false) ->
    splitRunsAux sep s cur insep = [rev cur ++ s].
Proof.
  intros sep. induction s as [| c s IH]; intros cur insep H; cbn [splitRunsAux].
  - rewrite app_nil_r. reflexivity.
  - rewrite (H c (or_introl eq_refl)).
    rewrite IH by (intros x Hx; apply H; right; exact Hx).
    cbn [rev]. rewrite <- app_assoc. reflexivity.
Qed.

(** X16. The need of prose smoothing is high for every text of one
    paragraph, that is, without a line feed; it is low only for a text
    that holds a transition word and paragraphs of two different
    lengths. *)
Theorem evaluateProseSmoothingNeed_one_paragraph :
  forall text : jsstring,
    let need := evaluateProseSmoothingNeed text in
    (~ In nl text -> proseNeedLevel need = High)
    /\ (proseNeedLevel need = Low ->
        containsPatterns text transitionWords = true
        /\ hasVariedParagraphLength need = true
        /\ 2 <= length (filter hasNonSpace (splitRuns (N.eqb nl) text))).
Proof.
  intro text. cbn zeta. unfold evaluateProseSmoothingNeed.
  cbn [proseNeedLevel hasVariedParagraphLength].
  set (paragraphs := filter hasNonSpace (splitRuns (N.eqb nl) text)).
  set (variety := PrimFloat.ltb _ _).
  split.
  - intro Hnl.
    assert (Hone : length paragraphs <= 1).
    { unfold paragraphs, splitRuns. rewrite splitRunsAux_no_separator.
      - cbn [filter]. destruct (hasNonSpace (rev [] ++ text)); cbn; lia.
      - intros c Hc. apply N.eqb_neq. intro E. subst c. contradiction. }
    assert (Hflat : (1 <? distinctCount (map (fun p => length p) paragraphs)) = false).
    { apply Nat.ltb_ge. unfold distinctCount.
      destruct paragraphs as [| p [| q l]]; cbn in Hone |- *; lia. }
    rewrite Hflat. cbn [negb]. rewrite !orb_true_r. reflexivity.
  - intro H.
    destruct (containsPatterns text transitionWords); cbn [negb] in H;
      [| rewrite orb_true_r in H; discriminate H].
    destruct (1 <? distinctCount (map (fun p => length p) paragraphs)) eqn:Ev;
      cbn [negb] in H; [| rewrite orb_true_r in H; discriminate H].
    repeat split. apply Nat.ltb_lt in Ev. unfold distinctCount in Ev.
    destruct paragraphs as [| p [| q l]]; cbn in Ev |- *; lia.
Qed.

(** *** The analyzer: repeated phrases and sentence structures *)

Lemma occurrencesIn_le : forall l w, occurrencesIn l w <= length l.
Proof. intros l w. unfold occurrencesIn. apply filter_length_le. Qed.

(** What a report of counts holds: the keys counted more than [k] times,
    each with the number of times it was counted. *)
Lemma counted_report :
  forall (keys : list jsstring) (k m : nat) (w : jsstring) (n : nat),
    In (w, n) (firstn m (sortByCount (above k (entries (fold_left increment keys [])))))
    -> n = occurrencesIn keys w /\ k < n /\ n <= length keys.
Proof.
  intros keys k m w n H. apply In_firstn in H.
  apply (Permutation_in _ (sortByCount_perm _)) in H.
  apply above_In in H. destruct H as [H Hk].
  apply (Permutation_in _ (entries_perm _)) in H.
  destruct (increment_all_spec keys [] []) as [Hnd Hspec];
    [constructor | intro; reflexivity |].
  apply (In_tallyOf _ _ _ Hnd) in H. rewrite Hspec in H. cbn [app] in H.
  unfold tallyAfter in H.
  destruct (occurrencesIn keys w =? 0); [discriminate |].
  destruct (eqb w (js "__proto__")); [discriminate |].
  destruct (existsb (eqb w) inheritedKeys); [discriminate |].
  inversion H. subst. split; [reflexivity |]. split; [exact Hk |].
  apply occurrencesIn_le.
Qed.

Lemma fold_left_increment_map :
  forall (A : Type) (f : A -> jsstring) (l : list A) (o : counter),
    fold_left (fun acc x => increment acc (f x)) l o = fold_left increment (map f l) o.
Proof.
  intros A f. induction l as [| x l IH]; intro o; cbn [fold_left map]; [reflexivity |].
  apply IH.
Qed.

Lemma windows3_length :
  forall words : list jsstring, length (windows3 words) = length words - 2.
Proof.
  induction words as [| a words IH]; [reflexivity |].
  cbn [windows3]. destruct words as [| b [| c words]]; try reflexivity.
  cbn [length] in *. rewrite IH. lia.
Qed.

(** X17. A phrase is reported as repeated with the number of windows
    of three words that spell it, which is two or more and at most the
    number of words less two; a sentence structure with the number of
    sentences that show it, which is three or more.  So a text of fewer
    than four words has no repeated phrase, and one of fewer than three
    sentences no repeated structure.  At most five phrases and three
    structures are reported. *)
Theorem repeated_phrases_and_structures :
  forall text : jsstring,
    length (findRepeatedPhrases text) <= 5
    /\ length (findRepeatedSentenceStructures text) <= 3
    /\ (forall phrase n,
          In (phrase, n) (findRepeatedPhrases text) ->
          2 <= n <= length (splitRuns isSpace text) - 2)
    /\ (forall pattern n,
          In (pattern, n) (findRepeatedSentenceStructures text) ->
          3 <= n <= length (sentencesOf text))
    /\ (length (splitRuns isSpace text) < 4 -> findRepeatedPhrases text = [])
    /\ (length (sentencesOf text) < 3 -> findRepeatedSentenceStructures text = []).
Proof.
  intro text.
  assert (Hp : forall phrase n,
             In (phrase, n) (findRepeatedPhrases text) ->
             2 <= n <= length (splitRuns isSpace text) - 2).
  { intros phrase n H. unfold findRepeatedPhrases in H.
    rewrite fold_left_increment_map in H. apply counted_report in H.
    rewrite length_map, windows3_length in H. lia. }
  assert (Hs : forall pattern n,
             In (pattern, n) (findRepeatedSentenceStructures text) ->
             3 <= n <= length (sentencesOf text)).
  { intros pattern n H. unfold findRepeatedSentenceStructures in H.
    rewrite fold_left_increment_map in H. apply counted_report in H.
    rewrite length_map in H. lia. }
  split; [apply firstn_le_length |]. split; [apply firstn_le_length |].
  split; [exact Hp |]. split; [exact Hs |]. split.
  - intro Hfew. destruct (findRepeatedPhrases text) as [| [phrase n] l]; [reflexivity |].
    specialize (Hp phrase n (or_introl eq_refl)). lia.
  - intro Hfew.
    destruct (findRepeatedSentenceStructures text) as [| [pattern n] l]; [reflexivity |].
    specialize (Hs pattern n (or_introl eq_refl)). lia.
Qed.

(** *** The request handler: every reply *)

(** X18. Every reply of the handler of index.js, by its kind.  A
    request for a name that is none of the three tools is answered by a
    method-not-found error that carries the name, whatever its
    arguments.  A request for a tool that comes without an arguments
    object fails with a type error, no invalid-parameter error.  With
    arguments, the request is rejected as invalid exactly when the text
    is not a string that is not empty, and is served otherwise. *)
Theorem callTool_replies :
  forall request : Request,
    match callTool request with
    | McpError MethodNotFound message =>
        (forall t, name request <> toolName t)
        /\ message = js "Unknown tool: " ++ name request
    | McpError InvalidParams message =>
        exists t args,
          name request = toolName t /\ arguments request = Some args
          /\ isNonEmptyString (getProperty args (js "text")) = false
          /\ message = requiredMessage
    | Uncaught e =>
        e = TypeError /\ (exists t, name request = toolName t)
        /\ arguments request = None
    | Content call =>
        exists t args,
          name request = toolName t /\ arguments request = Some args
          /\ isNonEmptyString (getProperty args (js "text")) = true
          /\ call = dispatch t args
    end.
Proof.
  intros [name arguments]. unfold callTool. cbn [UnoServer.name UnoServer.arguments].
  assert (Hguard : forall args,
             invalidText args = negb (isNonEmptyString (getProperty args (js "text")))).
  { intro args. unfold invalidText.
    destruct (getProperty args (js "text")) as [| | b | x | s | items | fields];
      try reflexivity.
    - destruct b; reflexivity.
    - cbn [truthy isString isNonEmptyString negb]. apply orb_true_r.
    - destruct s; reflexivity. }
  destruct (eqb name (js "analyze_text")) eqn:E1;
    [| destruct (eqb name (js "enhance_text")) eqn:E2;
       [| destruct (eqb name (js "custom_enhance_text")) eqn:E3]].
  - apply eqb_eq in E1. destruct arguments as [args |].
    + rewrite Hguard.
      destruct (isNonEmptyString (getProperty args (js "text"))) eqn:Et; cbn [negb];
        exists analyze_text, args; repeat split; assumption.
    + repeat split; [exists analyze_text; exact E1].
  - apply eqb_eq in E2. destruct arguments as [args |].
    + rewrite Hguard.
      destruct (isNonEmptyString (getProperty args (js "text"))) eqn:Et; cbn [negb];
        exists enhance_text, args; repeat split; assumption.
    + repeat split; [exists enhance_text; exact E2].
  - apply eqb_eq in E3. destruct arguments as [args |].
    + rewrite Hguard.
      destruct (isNonEmptyString (getProperty args (js "text"))) eqn:Et; cbn [negb];
        exists custom_enhance_text, args; repeat split; assumption.
    + repeat split; [exists custom_enhance_text; exact E3].
  - split; [| reflexivity].
    intros t Ht. subst name.
    destruct t; cbn [toolName] in *; rewrite eqb_refl in *; discriminate.
Qed.

(** *** The text functions of index.js: the sentence added after a sentence *)

(** A unit that the flag [i] takes for a lower-case letter of a to z is
    this letter, in either case. *)
Lemma canonicalize_letter :
  forall c d,
    isLowerAZ d = true ->
    N.eqb (canonicalize d) (canonicalize c) = true ->
    lowerUnit c = [d] /\ isWordChar c = true.
Proof.
  assert (Hsmall :
            forallb
              (fun d =>
                 (canonicalize d <? 1024)%N
                 && forallb
                      (fun c =>
                         implb (N.eqb (canonicalize d) (canonicalize c))
                               (eqb (lowerUnit c) [d] && isWordChar c))
                      (map N.of_nat (seq 0 1024)))
              (map N.of_nat (seq 97 26)) = true) by (vm_compute; reflexivity).
  intros c d Hd H. rewrite forallb_forall in Hsmall.
  assert (Hin : In d (map N.of_nat (seq 97 26))).
  { unfold isLowerAZ, inRange in Hd. apply andb_true_iff in Hd. destruct Hd as [H1 H2].
    apply N.leb_le in H1, H2. apply in_map_iff. exists (N.to_nat d).
    split; [apply N2Nat.id | apply in_seq; lia]. }
  specialize (Hsmall d Hin). apply andb_true_iff in Hsmall.
  destruct Hsmall as [Hbound Hsmall]. apply N.ltb_lt in Hbound.
  destruct (c <? 1024)%N eqn:Ec.
  - apply N.ltb_lt in Ec. rewrite forallb_forall in Hsmall.
    assert (Hc : In c (map N.of_nat (seq 0 1024))).
    { apply in_map_iff. exists (N.to_nat c).
      split; [apply N2Nat.id | apply in_seq; lia]. }
    specialize (Hsmall c Hc). rewrite H in Hsmall. cbn [implb] in Hsmall.
    apply andb_true_iff in Hsmall. destruct Hsmall as [H1 H2].
    apply eqb_eq in H1. split; assumption.
  - exfalso. apply N.ltb_ge in Ec. apply N.eqb_eq in H.
    assert (Hsame : canonicalize c = c).
    { unfold canonicalize, upperUnit, isLowerAZ, isLowerLatin1, inRange.
      replace (97 <=? c)%N with true by (symmetry; apply N.leb_le; lia).
      replace (c <=? 122)%N with false by (symmetry; apply N.leb_gt; lia).
      replace (224 <=? c)%N with true by (symmetry; apply N.leb_le; lia).
      replace (c <=? 254)%N with false by (symmetry; apply N.leb_gt; lia).
      cbn [andb orb].
      repeat match goal with
             | |- context [N.eqb c ?k] =>
                 replace (N.eqb c k) with false by (symmetry; apply N.eqb_neq; lia)
             end.
      destruct ((128 <=? c)%N && (c <? 128)%N); reflexivity. }
    lia.
Qed.

Lemma startsWithCI_letters :
  forall stem s,
    Forall (fun d => isLowerAZ d = true) stem ->
    startsWithCI stem s = true ->
    exists m rest,
      s = m ++ rest /\ toLowerCase m = stem
      /\ Forall (fun c => isWordChar c = true) m.
Proof.
  induction stem as [| d stem IH]; intros s Hstem H.
  - exists [], s. repeat split. constructor.
  - destruct s as [| c s]; [discriminate |]. cbn [startsWithCI] in H.
    apply andb_true_iff in H. destruct H as [H1 H2].
    inversion Hstem as [| ? ? Hd Hstem']; subst.
    destruct (canonicalize_letter c d Hd H1) as [Hl Hw].
    destruct (IH s Hstem' H2) as (m & rest & Hs & Hm & Hall).
    exists (c :: m), rest. subst s. split; [reflexivity |]. split.
    + unfold toLowerCase in *. cbn [flat_map]. rewrite Hl, Hm. reflexivity.
    + constructor; assumption.
Qed.

Lemma takeWhile_app :
  forall p m rest,
    Forall (fun c => p c = true) m ->
    IndexJs.takeWhile p (m ++ rest) = m ++ IndexJs.takeWhile p rest.
Proof.
  intros p m rest H. induction H as [| c m Hc Hm IH]; [reflexivity |].
  cbn [app IndexJs.takeWhile]. rewrite Hc, IH. reflexivity.
Qed.

Lemma verbStems_letters :
  Forall (Forall (fun d => isLowerAZ d = true)) IndexJs.verbStems.
Proof.
  assert (H : forallb (forallb isLowerAZ) IndexJs.verbStems = true)
    by (vm_compute; reflexivity).
  apply Forall_forall. intros stem Hstem. apply Forall_forall. intros d Hd.
  rewrite forallb_forall in H. specialize (H _ Hstem).
  rewrite forallb_forall in H. exact (H _ Hd).
Qed.

Lemma Some_inj : forall (A : Type) (a b : A), Some a = Some b -> a = b.
Proof. intros A a b H. congruence. Qed.

(** The verb found in a sentence begins with one of the stems. *)
Lemma matchVerb_stem :
  forall s prev matched,
    IndexJs.matchVerb s prev = Some matched ->
    existsb (fun stem => startsWith stem (toLowerCase matched)) IndexJs.verbStems = true.
Proof.
  induction s as [| c s IH]; intros prev matched H; cbn [IndexJs.matchVerb] in H.
  - discriminate.
  - destruct (isBoundary prev (Some c)
              && existsb (fun stem => startsWithCI stem (c :: s)) IndexJs.verbStems)
      eqn:E.
    + apply andb_true_iff in E. destruct E as [_ E].
      apply existsb_exists in E. destruct E as (stem & Hstem & E).
      apply Some_inj in H. subst matched.
      pose proof verbStems_letters as Hl. rewrite Forall_forall in Hl.
      destruct (startsWithCI_letters stem (c :: s) (Hl _ Hstem) E)
        as (m & rest & Hs & Hm & Hall).
      apply existsb_exists. exists stem. split; [exact Hstem |].
      rewrite Hs, takeWhile_app by exact Hall.
      rewrite toLowerCase_app, Hm.
      rewrite <- (app_nil_r stem) at 1.
      clear. induction stem as [| d stem IHs]; [reflexivity |].
      cbn [app startsWith]. rewrite N.eqb_refl. exact IHs.
    + apply (IH _ _ H).
Qed.

Lemma verbOf_stem :
  forall sentence,
    IndexJs.verbOf sentence = js "was"
    \/ existsb (fun stem => startsWith stem (IndexJs.verbOf sentence)) IndexJs.verbStems
       = true.
Proof.
  intro sentence. unfold IndexJs.verbOf.
  destruct (IndexJs.matchVerb sentence None) as [matched |] eqn:E.
  - right. eapply matchVerb_stem. exact E.
  - left. reflexivity.
Qed.

(** A word that is not [was] and begins with no stem is not the verb. *)
Lemma verbOf_never :
  forall sentence word,
    eqb word (js "was") = false ->
    existsb (fun stem => startsWith stem word) IndexJs.verbStems = false ->
    eqb (IndexJs.verbOf sentence) word = false.
Proof.
  intros sentence word Hwas Hstem.
  destruct (eqb (IndexJs.verbOf sentence) word) eqn:E; [| reflexivity].
  apply eqb_eq in E. destruct (verbOf_stem sentence) as [H | H]; rewrite E in H.
  - rewrite H, eqb_refl in Hwas. discriminate.
  - rewrite H in Hstem. discriminate.
Qed.

Lemma app_suffix :
  forall (A : Type) (a b t : list A), a ++ b = t -> skipn (length t - length b) t = b.
Proof.
  intros A a b t H. subst t. rewrite length_app.
  replace (length a + length b - length b) with (length a) by lia.
  rewrite skipn_app, Nat.sub_diag, skipn_all. reflexivity.
Qed.

(** X19. The function enhanceText of index.js never writes its tactile
    sentence nor its auditory sentence after a sentence: the branches for
    the verbs felt, touched, heard and listened cannot be taken, since
    the verb it finds begins with one of the thirteen stems of its
    pattern or is the default was.  For the same reason the visual branch
    is taken for the verb looked only, never for saw, observed or
    noticed. *)
Theorem index_enhanceText_dead_branches :
  forall (sentence : jsstring) (words : list jsstring),
    IndexJs.chooseEnhancement sentence words <> IndexJs.Tactile
    /\ IndexJs.chooseEnhancement sentence words <> IndexJs.Auditory
    /\ (IndexJs.chooseEnhancement sentence words = IndexJs.Visual ->
        IndexJs.verbOf sentence = js "looked")
    /\ (forall added,
          In added (IndexJs.enhanceSentence sentence) ->
          added = sentence
          \/ (added <> IndexJs.tactileSentence /\ added <> IndexJs.auditorySentence)).
Proof.
  intros sentence words.
  assert (Hsaw : eqb (IndexJs.verbOf sentence) (js "saw") = false)
    by (apply verbOf_never; vm_compute; reflexivity).
  assert (Hobserved : eqb (IndexJs.verbOf sentence) (js "observed") = false)
    by (apply verbOf_never; vm_compute; reflexivity).
  assert (Hnoticed : eqb (IndexJs.verbOf sentence) (js "noticed") = false)
    by (apply verbOf_never; vm_compute; reflexivity).
  assert (Hfelt : eqb (IndexJs.verbOf sentence) (js "felt") = false)
    by (apply verbOf_never; vm_compute; reflexivity).
  assert (Htouched : eqb (IndexJs.verbOf sentence) (js "touched") = false)
    by (apply verbOf_never; vm_compute; reflexivity).
  assert (Hheard : eqb (IndexJs.verbOf sentence) (js "heard") = false)
    by (apply verbOf_never; vm_compute; reflexivity).
  assert (Hlistened : eqb (IndexJs.verbOf sentence) (js "listened") = false)
    by (apply verbOf_never; vm_compute; reflexivity).
  assert (Hchoice : forall ws,
             IndexJs.chooseEnhancement sentence ws <> IndexJs.Tactile
             /\ IndexJs.chooseEnhancement sentence ws <> IndexJs.Auditory
             /\ (IndexJs.chooseEnhancement sentence ws = IndexJs.Visual ->
                 IndexJs.verbOf sentence = js "looked")).
  { intro ws. unfold IndexJs.chooseEnhancement. cbn zeta.
    rewrite Hsaw, Hobserved, Hnoticed, Hfelt, Htouched, Hheard, Hlistened.
    cbn [orb]. rewrite orb_false_r.
    destruct (includes sentence (js "?")); [repeat split; discriminate |].
    destruct (includes sentence (js "!")); [repeat split; discriminate |].
    destruct (eqb (IndexJs.verbOf sentence) (js "looked")) eqn:E.
    - apply eqb_eq in E. repeat split; try discriminate. intros _. exact E.
    - destruct (10 <? length ws); repeat split; discriminate. }
  destruct (Hchoice words) as (H1 & H2 & H3).
  split; [exact H1 |]. split; [exact H2 |]. split; [exact H3 |].
  intros added Hin. unfold IndexJs.enhanceSentence in Hin. cbn zeta in Hin.
  destruct (3 <? length (splitOn (js " ") sentence)).
  2:{ destruct Hin as [Hin | []]. left. symmetry. exact Hin. }
  destruct Hin as [Hin | [Hin | []]]; [left; symmetry; exact Hin |]. right.
  destruct (Hchoice (splitOn (js " ") sentence)) as (Ht & Ha & _).
  set (subject := match IndexJs.matchNames (hd [] (splitOn (js " ") sentence)) 0 with
                  | [] => js "It"
                  | _ => hd [] (splitOn (js " ") sentence)
                  end) in *.
  assert (Hends : forall ending target : jsstring,
             eqb (skipn (length target - length ending) target) ending = false ->
             subject ++ ending <> target).
  { intros ending target Hne Heq. apply app_suffix in Heq.
    rewrite Heq, eqb_refl in Hne. discriminate. }
  subst added.
  destruct (IndexJs.chooseEnhancement sentence (splitOn (js " ") sentence));
    cbn [IndexJs.sentenceOf]; try contradiction;
    split;
    first [ apply Hends; vm_compute; reflexivity
          | intro Heq; vm_compute in Heq; discriminate Heq ].
Qed.

(** *** The text functions of index.js: the flag of the repetition elimination *)

Lemma splitSentencesAux_not_nil :
  forall s cur prev insep, IndexJs.splitSentencesAux s cur prev insep <> [].
Proof.
  induction s as [| c s IH]; intros cur prev insep; cbn [IndexJs.splitSentencesAux].
  - discriminate.
  - destruct (insep && isSpace c); [apply IH |].
    destruct (isSpace c && _); [discriminate | apply IH].
Qed.

(** The two ways of putting the result together agree when a sentence
    was added. *)
Lemma assemble_same :
  forall flag flag' sentences newSentences,
    sentences <> [] -> newSentences <> [] ->
    IndexJs.assemble flag sentences newSentences
    = IndexJs.assemble flag' sentences newSentences.
Proof.
  intros flag flag' sentences newSentences Hs Hn. unfold IndexJs.assemble.
  rewrite (join_app _ _ _ Hs Hn). destruct flag, flag'; reflexivity.
Qed.

(** Every sentence comes back from the loop of the prose smoother, in
    the order of the text. *)
Lemma smoothSentences_Embeds :
  forall sentences i draws smoothed rest,
    IndexJs.smoothSentences sentences i draws = Return (smoothed, rest) ->
    Embeds sentences smoothed /\ (sentences <> [] -> smoothed <> []).
Proof.
  induction sentences as [| sentence sentences IH]; intros i draws smoothed rest H;
    cbn [IndexJs.smoothSentences] in H.
  - apply ret_Return_pair in H. destruct H; subst. split; [constructor | tauto].
  - destruct sentences as [| next sentences].
    + apply ret_Return_pair in H. destruct H; subst.
      split; [apply Embeds_refl | discriminate].
    + apply bindR_Return in H. destruct H as (added & draws1 & _ & H).
      apply bindR_Return in H. destruct H as (more & draws2 & Hmore & H).
      apply ret_Return_pair in H. destruct H; subst.
      apply IH in Hmore. destruct Hmore as [Hmore _].
      split; [| discriminate].
      constructor. apply Embeds_app_l. exact Hmore.
Qed.

(** X20. In the function customEnhanceText of index.js the flag of the
    repetition elimination changes nothing as soon as a sentence is
    added, which is so whenever the environmental expansion or the prose
    smoother is on: for the same random draws the call returns the same
    text with the flag on, off or absent. *)
Theorem index_customEnhanceText_flag_without_effect :
  forall (text : jsstring) (expansionTarget : option float)
         (golden environmental action smoother flag flag' : option bool)
         (draws : list Q),
    environmental <> Some false \/ smoother <> Some false ->
    IndexJs.customEnhanceText
      {| IndexJs.text := text; IndexJs.expansionTarget := expansionTarget;
         IndexJs.enableGoldenShadow := golden;
         IndexJs.enableEnvironmental := environmental;
         IndexJs.enableActionScene := action;
         IndexJs.enableProseSmoother := smoother;
         IndexJs.enableRepetitionElimination := flag |} draws
    = IndexJs.customEnhanceText
        {| IndexJs.text := text; IndexJs.expansionTarget := expansionTarget;
           IndexJs.enableGoldenShadow := golden;
           IndexJs.enableEnvironmental := environmental;
           IndexJs.enableActionScene := action;
           IndexJs.enableProseSmoother := smoother;
           IndexJs.enableRepetitionElimination := flag' |} draws.
Proof.
  intros text expansionTarget golden environmental action smoother flag flag' draws Hon.
  unfold IndexJs.customEnhanceText.
  cbn [IndexJs.text IndexJs.expansionTarget IndexJs.enableProseSmoother
       IndexJs.enableRepetitionElimination].
  set (params := {| IndexJs.text := text; IndexJs.enableRepetitionElimination := flag |}).
  set (params' := {| IndexJs.text := text; IndexJs.enableRepetitionElimination := flag' |}).
  assert (Hfirst : IndexJs.firstSentences params' = IndexJs.firstSentences params)
    by reflexivity.
  rewrite Hfirst. clear Hfirst.
  set (first := IndexJs.firstSentences params).
  assert (Hs : IndexJs.splitSentences text <> [])
    by apply splitSentencesAux_not_nil.
  assert (Hfirst : environmental <> Some false -> first <> []).
  { intro He. unfold first, IndexJs.firstSentences, params.
    cbn [IndexJs.text IndexJs.enableGoldenShadow IndexJs.enableEnvironmental
         IndexJs.enableActionScene].
    assert (Hen : IndexJs.orDefault environmental true = true).
    { destruct environmental as [[|] |]; [reflexivity | contradiction | reflexivity]. }
    rewrite Hen.
    destruct (IndexJs.orDefault action true
              && IndexJs.matchesAnyCI IndexJs.actionWords text);
      intro Hnil; apply (f_equal (@length jsstring)) in Hnil;
      rewrite !length_app in Hnil; cbn [length] in Hnil; lia. }
  unfold bindR.
  destruct (IndexJs.orDefault smoother true) eqn:Esm.
  - destruct (IndexJs.smoothSentences (IndexJs.splitSentences text) 0 draws)
      as [[smoothed rest] | e | l] eqn:E; try reflexivity.
    apply smoothSentences_Embeds in E. destruct E as [_ E]. specialize (E Hs).
    unfold ret.
    rewrite (assemble_same (IndexJs.orDefault flag true) (IndexJs.orDefault flag' true));
      [reflexivity | exact Hs |].
    intro Hnil. apply app_eq_nil in Hnil. destruct Hnil as [_ Hnil]. contradiction.
  - unfold ret.
    assert (first <> []).
    { apply Hfirst. destruct Hon as [H | H]; [exact H |].
      destruct smoother as [[|] |]; try discriminate. contradiction. }
    rewrite (assemble_same (IndexJs.orDefault flag true) (IndexJs.orDefault flag' true));
      [reflexivity | exact Hs | assumption].
Qed.

Lemma index_customEnhanceText_flag_without_effect_witness :
  IndexJs.customEnhanceText
    {| IndexJs.text := js "Tom ran home. He slept.";
       IndexJs.expansionTarget := None;
       IndexJs.enableGoldenShadow := None;
       IndexJs.enableEnvironmental := Some false;
       IndexJs.enableActionScene := None;
       IndexJs.enableProseSmoother := None;
       IndexJs.enableRepetitionElimination := Some true |} [1 # 2]
  = IndexJs.customEnhanceText
      {| IndexJs.text := js "Tom ran home. He slept.";
         IndexJs.expansionTarget := None;
         IndexJs.enableGoldenShadow := None;
         IndexJs.enableEnvironmental := Some false;
         IndexJs.enableActionScene := None;
         IndexJs.enableProseSmoother := None;
         IndexJs.enableRepetitionElimination := Some false |} [1 # 2].
Proof.
  apply index_customEnhanceText_flag_without_effect. right. discriminate.
Defined.

(** X21. With the prose smoother on, the function customEnhanceText of
    index.js returns the sentences of the text twice: first all of them,
    with one space between two of them, then the added sentences, among
    which every sentence of the text comes again, in the order of the
    text; the deeper paragraph may follow. *)
Theorem index_customEnhanceText_repeats_the_text :
  forall (params : IndexJs.CustomParams) (draws : list Q) (result : jsstring)
         (rest : list Q),
    IndexJs.enableProseSmoother params <> Some false ->
    IndexJs.customEnhanceText params draws = Return (result, rest) ->
    exists newSentences ending,
      Embeds (IndexJs.splitSentences (IndexJs.text params)) newSentences
      /\ (ending = [] \/ ending = IndexJs.deeperParagraph)
      /\ result
         = join (js " ") (IndexJs.splitSentences (IndexJs.text params))
           ++ js " " ++ join (js " ") newSentences ++ ending.
Proof.
  intros params draws result rest Hon H. unfold IndexJs.customEnhanceText in H.
  assert (Hsm : IndexJs.orDefault (IndexJs.enableProseSmoother params) true = true).
  { destruct (IndexJs.enableProseSmoother params) as [[|] |];
      [reflexivity | contradiction | reflexivity]. }
  rewrite Hsm in H. cbn zeta in H.
  apply bindR_Return in H. destruct H as (newSentences & draws1 & Hnew & H).
  apply bindR_Return in Hnew. destruct Hnew as (smoothed & draws2 & Hsmooth & Hnew).
  apply ret_Return_pair in Hnew. destruct Hnew as [Hnew Hd]. subst newSentences draws1.
  apply ret_Return_pair in H. destruct H as [H Hd]. subst result rest.
  apply smoothSentences_Embeds in Hsmooth. destruct Hsmooth as [Hemb Hne].
  assert (Hs : IndexJs.splitSentences (IndexJs.text params) <> [])
    by apply splitSentencesAux_not_nil.
  specialize (Hne Hs).
  set (newSentences := IndexJs.firstSentences params ++ smoothed).
  assert (Hnew : newSentences <> []).
  { intro Hnil. apply app_eq_nil in Hnil. destruct Hnil as [_ Hnil]. contradiction. }
  assert (Hassemble :
            IndexJs.assemble
              (IndexJs.orDefault (IndexJs.enableRepetitionElimination params) true)
              (IndexJs.splitSentences (IndexJs.text params)) newSentences
            = join (js " ") (IndexJs.splitSentences (IndexJs.text params))
              ++ js " " ++ join (js " ") newSentences).
  { unfold IndexJs.assemble. rewrite (join_app _ _ _ Hs Hnew).
    destruct (negb _); reflexivity. }
  rewrite Hassemble.
  exists newSentences.
  destruct (IndexJs.belowTarget _ _ _).
  - exists IndexJs.deeperParagraph. split; [apply Embeds_app_l; exact Hemb |].
    split; [right; reflexivity |]. rewrite <- !app_assoc. reflexivity.
  - exists []. split; [apply Embeds_app_l; exact Hemb |].
    split; [left; reflexivity |]. rewrite !app_nil_r. reflexivity.
Qed.

Lemma index_customEnhanceText_repeats_the_text_witness :
  exists result newSentences ending,
    IndexJs.customEnhanceText (textAlone (js "Tom ran. It was late.")) [1 # 4]
    = Return (result, [])
    /\ Embeds [js "Tom ran."; js "It was late."] newSentences
    /\ (ending = [] \/ ending = IndexJs.deeperParagraph)
    /\ result = js "Tom ran. It was late. " ++ join (js " ") newSentences ++ ending.
Proof.
  destruct (IndexJs.customEnhanceText (textAlone (js "Tom ran. It was late.")) [1 # 4])
    as [[result rest] | e | l] eqn:E; try (vm_compute in E; discriminate).
  assert (Hrest : rest = []) by (vm_compute in E; inversion E; reflexivity).
  subst rest.
  assert (Hon : IndexJs.enableProseSmoother (textAlone (js "Tom ran. It was late."))
                <> Some false) by (cbn [textAlone IndexJs.enableProseSmoother]; discriminate).
  destruct (index_customEnhanceText_repeats_the_text _ _ _ _ Hon E)
    as (newSentences & ending & H1 & H2 & H3).
  exists result, newSentences, ending. split; [reflexivity |].
  split; [exact H1 |]. split; [exact H2 |]. exact H3.
Defined.

(** *** The request handler of index.ts *)

Lemma customEnhanceText_raises_with_analysis :
  forall text expansionTarget options draws e,
    analyzeText text = Throw e ->
    customEnhanceText text expansionTarget options draws = Throw e.
Proof.
  intros text expansionTarget options draws e H.
  unfold customEnhanceText, customEnhanceTextLogged, bindR, lift. rewrite H. reflexivity.
Qed.

Lemma IndexTs_invalidText :
  forall args,
    IndexTs.invalidText args = negb (isNonEmptyString (IndexTs.text args)).
Proof.
  intro args. unfold IndexTs.invalidText.
  destruct (IndexTs.text args) as [| | b | x | s | items | fields]; try reflexivity.
  - destruct b; reflexivity.
  - cbn [truthy isString isNonEmptyString negb]. apply orb_true_r.
  - destruct s; reflexivity.
Qed.

(** X22. The handler of index.ts lets no exception out: whatever the
    request and the draws, it answers with a reply or with an MCP error.
    An unknown tool gives a method-not-found error; a tool called
    without arguments gives an internal error that wraps the type error
    caught; a text that is no string or is empty gives an
    invalid-parameter error. *)
Theorem indexTs_callTool_replies :
  forall (request : IndexTs.Request) (draws : list Q),
    (forall e, IndexTs.callTool request draws <> Throw e)
    /\ ((forall t, IndexTs.name request <> toolName t) ->
        IndexTs.callTool request draws
        = Return (IndexTs.McpError IndexTs.MethodNotFound
                    (IndexTs.Message (js "Unknown tool: " ++ IndexTs.name request))))
    /\ (forall t,
          IndexTs.name request = toolName t ->
          match IndexTs.arguments request with
          | None =>
              IndexTs.callTool request draws
              = Return (IndexTs.McpError IndexTs.InternalError
                          (IndexTs.ProcessingError TypeError))
          | Some args =>
              isNonEmptyString (IndexTs.text args) = false ->
              IndexTs.callTool request draws
              = Return (IndexTs.McpError IndexTs.InvalidParams
                          (IndexTs.Message IndexTs.missingText))
          end).
Proof.
  intros [name arguments] draws. cbn [IndexTs.name IndexTs.arguments].
  split; [| split].
  - intros e H. unfold IndexTs.callTool in H. cbn [IndexTs.name IndexTs.arguments] in H.
    apply (f_equal (fun o => match o with Throw _ => true | _ => false end)) in H.
    revert H.
    destruct (eqb name (js "analyze_text"));
      [| destruct (eqb name (js "enhance_text"));
         [| destruct (eqb name (js "custom_enhance_text"))]].
    + unfold IndexTs.handleAnalyzeText. destruct arguments as [args |]; [| discriminate].
      destruct (IndexTs.invalidText args); [discriminate |].
      destruct (analyzeText (IndexTs.textOf args)); discriminate.
    + unfold IndexTs.handleEnhanceText. destruct arguments as [args |]; [| discriminate].
      destruct (IndexTs.invalidText args); [discriminate |]. cbn zeta.
      destruct (enhanceText _ _ _) as [[result rest] | e' | l]; discriminate.
    + unfold IndexTs.handleCustomEnhanceText.
      destruct arguments as [args |]; [| discriminate].
      destruct (IndexTs.invalidText args); [discriminate |]. cbn zeta.
      destruct (customEnhanceText _ _ _ _) as [[result rest] | e' | l]; discriminate.
    + discriminate.
  - intro Hunknown. unfold IndexTs.callTool. cbn [IndexTs.name IndexTs.arguments].
    assert (H1 : eqb name (js "analyze_text") = false).
    { apply eqb_neq. exact (Hunknown analyze_text). }
    assert (H2 : eqb name (js "enhance_text") = false).
    { apply eqb_neq. exact (Hunknown enhance_text). }
    assert (H3 : eqb name (js "custom_enhance_text") = false).
    { apply eqb_neq. exact (Hunknown custom_enhance_text). }
    rewrite H1, H2, H3. reflexivity.
  - intros t Ht. subst name. unfold IndexTs.callTool.
    cbn [IndexTs.name IndexTs.arguments].
    destruct (toolName_dispatch t) as (E1 & E2 & E3). rewrite E1, E2, E3.
    destruct arguments as [args |].
    + intro Htext. pose proof (IndexTs_invalidText args) as Hi.
      rewrite Htext in Hi. cbn [negb] in Hi.
      destruct t; unfold IndexTs.handleAnalyzeText, IndexTs.handleEnhanceText,
        IndexTs.handleCustomEnhanceText; rewrite Hi; reflexivity.
    + destruct t; reflexivity.
Qed.

(** X23. When the analysis of the text raises, each of the three tools
    of index.ts answers with an internal error that wraps what was
    raised: the analyzer is the first thing that the enhancer calls. *)
Theorem indexTs_analysis_failure :
  forall (t : tool) (args : IndexTs.Arguments) (draws : list Q) (e : exception),
    isNonEmptyString (IndexTs.text args) = true ->
    analyzeText (IndexTs.textOf args) = Throw e ->
    IndexTs.callTool {| IndexTs.name := toolName t; IndexTs.arguments := Some args |} draws
    = Return (IndexTs.McpError IndexTs.InternalError (IndexTs.ProcessingError e)).
Proof.
  intros t args draws e Htext Hraise. unfold IndexTs.callTool.
  cbn [IndexTs.name IndexTs.arguments].
  destruct (toolName_dispatch t) as (E1 & E2 & E3). rewrite E1, E2, E3.
  pose proof (IndexTs_invalidText args) as Hi. rewrite Htext in Hi. cbn [negb] in Hi.
  destruct t; unfold IndexTs.handleAnalyzeText, IndexTs.handleEnhanceText,
    IndexTs.handleCustomEnhanceText; rewrite Hi; cbn zeta.
  - rewrite Hraise. reflexivity.
  - unfold enhanceText. rewrite (customEnhanceText_raises_with_analysis _ _ _ _ _ Hraise).
    reflexivity.
  - rewrite (customEnhanceText_raises_with_analysis _ _ _ _ _ Hraise). reflexivity.
Qed.

(** *** The analyzer: point of view *)

Lemma filter_positive :
  forall (A : Type) (f : A -> bool) (l : list A),
    (0 <? length (filter f l)) = existsb f l.
Proof.
  intros A f. induction l as [| x l IH]; [reflexivity |].
  cbn [filter existsb]. destruct (f x); [reflexivity | exact IH].
Qed.

Lemma existsb_over_map :
  forall (A B : Type) (g : A -> B) (f : B -> bool) (l : list A),
    existsb f (map g l) = existsb (fun x => f (g x)) l.
Proof.
  intros A B g f. induction l as [| x l IH]; [reflexivity |].
  cbn [map existsb]. rewrite IH. reflexivity.
Qed.

(** X24. The point of view is read off the words of the text in lower
    case, cut at white space and freed of what is no word character.
    It is the first person exactly when one of them is me, my, mine, we,
    us, our or ours, whatever else the text holds: the pronoun I does not
    count.  Failing that it is the third person exactly when one of them
    is a pronoun of the third person, and unclear otherwise; the pronouns
    of the second person play no part. *)
Theorem identifyCharacterFocus_pointOfView :
  forall text : jsstring,
    let words := map dropNonWord (splitRuns isSpace (toLowerCase text)) in
    let first := existsb (fun w => existsb (eqb w)
                   (map js ["me"; "my"; "mine"; "we"; "us"; "our"; "ours"])) words in
    let third := existsb (fun w => existsb (eqb w) thirdPersonPronouns) words in
    pointOfViewOf (identifyCharacterFocus text)
    = if first then FirstPerson else if third then ThirdPerson else Unclear.
Proof.
  intro text. cbn zeta. unfold identifyCharacterFocus. cbn [pointOfViewOf].
  rewrite countPronouns_never_I. unfold countPronouns. cbn [thirdPerson].
  rewrite !filter_positive, !existsb_over_map. reflexivity.
Qed.

(** *** The request handler of index.ts: the five flags false *)

(** X25. A request of index.ts for custom_enhance_text with the five
    flags false, on a text for which the analyzer returns, is answered
    with the text as it is, a paragraph break and the summary.  The
    lines of the summary give the counts of the words and of the
    characters of the text, each of them twice, the percentages that
    Math.round makes of a count divided by itself and multiplied by 100,
    which is NaN for a text without a word, the target, and an empty
    line under the heading of the techniques.  The target is the one
    asked for, or 200 when what is asked for is no number, is 0 or is
    NaN. *)
Theorem indexTs_custom_disabled :
  forall (s : jsstring) (target : JsValue) (draws : list Q) (report : Report),
    s <> [] ->
    analyzeText s = Return report ->
    exists summary,
      IndexTs.callTool
        {| IndexTs.name := js "custom_enhance_text";
           IndexTs.arguments := Some (disabledArguments s target) |} draws
      = Return (IndexTs.Content (IndexTs.EnhancedText (s ++ paragraphBreak ++ summary)))
      /\ splitOn [nl] summary
         = [ js "---";
             [];
             js "## UNO Enhancement Summary";
             [];
             js "**Expansion Results:**";
             js "- Original Word Count: " ++ natToString (countWords s);
             js "- Final Word Count: " ++ natToString (countWords s);
             js "- Word Expansion: "
               ++ roundedToString (expansionPercent (countWords s) (countWords s))
               ++ js "% of original ("
               ++ numberToString
                    (match target with
                     | JNumber x =>
                         if PrimFloat.eqb x 0%float || PrimFloat.is_nan x
                         then num 200 else x
                     | _ => num 200
                     end)
               ++ js "% target)";
             js "- Original Character Count: " ++ natToString (length s);
             js "- Final Character Count: " ++ natToString (length s);
             js "- Character Expansion: "
               ++ roundedToString (expansionPercent (length s) (length s))
               ++ js "% of original";
             [];
             js "**Enhancement Techniques Applied:**";
             [];
             [];
             js "*Enhanced by UNO (Unified Narrative Operator)*" ]
      /\ (countWords s = 0 ->
          roundedToString (expansionPercent (countWords s) (countWords s)) = js "NaN").
Proof.
  intros s target draws report Hs H.
  eexists. split; [| split].
  - unfold IndexTs.callTool. cbn [IndexTs.name IndexTs.arguments].
    destruct (toolName_dispatch custom_enhance_text) as (E1 & E2 & E3).
    cbn [toolName] in E1, E2, E3. rewrite E1, E2, E3.
    unfold IndexTs.handleCustomEnhanceText.
    assert (Hi : IndexTs.invalidText (disabledArguments s target) = false).
    { rewrite IndexTs_invalidText. unfold disabledArguments. cbn [IndexTs.text].
      destruct s; [contradiction | reflexivity]. }
    rewrite Hi. cbn zeta.
    change (IndexTs.optionsOf (disabledArguments s target)) with noTechniques.
    change (IndexTs.textOf (disabledArguments s target)) with s.
    rewrite (customEnhanceText_disabled_total s _ draws report H).
    reflexivity.
  - rewrite generateEnhancementSummary_lines.
    change (techniquesUsed noTechniques) with (@nil jsstring). cbn [app].
    assert (Ht : IndexTs.targetOf (disabledArguments s target)
                 = match target with
                   | JNumber x =>
                       if PrimFloat.eqb x 0%float || PrimFloat.is_nan x
                       then num 200 else x
                   | _ => num 200
                   end).
    { unfold IndexTs.targetOf, disabledArguments. cbn [IndexTs.expansionTarget].
      destruct target; try reflexivity. cbn [truthy].
      destruct (PrimFloat.eqb x 0 || PrimFloat.is_nan x); reflexivity. }
    rewrite Ht. reflexivity.
  - intro H0. rewrite H0. reflexivity.
Qed.

End Properties.

(* ================================================================= *)
(** ** The properties at work

    The properties that have a condition, each at an input that meets
    it.  The engine of these computations knows the fragment only. *)

#[local] Existing Instance fragmentOnly.

Lemma summary_lists_skipped_action_stage_witness :
  exists result rest enhancedText summary summary',
    customEnhanceText calm 150 allTechniques [1 # 4; 3 # 4] = Return (result, rest)
    /\ result = enhancedText ++ paragraphBreak ++ summary
    /\ customEnhanceText calm 150 (withoutActionScene allTechniques) [1 # 4; 3 # 4]
       = Return (enhancedText ++ paragraphBreak ++ summary', rest)
    /\ In (js "- Action Scene Enhancement") (splitOn [nl] summary)
    /\ ~ In (js "- Action Scene Enhancement") (splitOn [nl] summary').
Proof.
  destruct (customEnhanceText calm 150 allTechniques [1 # 4; 3 # 4])
    as [[result rest] | e | l] eqn:E; try (vm_compute in E; discriminate).
  destruct (summary_lists_skipped_action_stage calm 150 allTechniques [1 # 4; 3 # 4]
              result rest)
    as (enhancedText & summary & summary' & H1 & _ & H3 & _ & H5 & H6 & _);
    [vm_compute; reflexivity | reflexivity | exact E |].
  exists result, rest, enhancedText, summary, summary'.
  split; [reflexivity |]. split; [exact H1 |]. split; [exact H3 |].
  split; assumption.
Defined.

Lemma repetition_elimination_discipline_witness :
  exists result rest log,
    applyRepetitionElimination fiveLooks fiveLooksDraws = Return (result, rest)
    /\ result <> fiveLooks
    /\ records fiveLooks log result
    /\ Forall (fun b => 5 <= length (flagged b)) log
    /\ NoDup (map flagged log).
Proof.
  destruct (applyRepetitionElimination fiveLooks fiveLooksDraws)
    as [[result rest] | e | l] eqn:E; try (vm_compute in E; discriminate).
  destruct (repetition_elimination_discipline _ _ _ _ E) as (log & H1 & H2 & H3 & _).
  exists result, rest, log. split; [reflexivity |].
  split; [vm_compute in E; inversion E; discriminate |].
  split; [exact H1 |]. split; [| exact H3].
  eapply Forall_impl; [| exact H2]. cbn beta. intros b Hb. apply Hb.
Defined.

Lemma enhanceText_length_witness :
  exists result rest log,
    enhanceText fiveLooks 100 fiveLooksDraws = Return (result, rest)
    /\ customEnhanceTextLogged fiveLooks 100 allTechniques fiveLooksDraws
       = Return (result, log, rest)
    /\ length fiveLooks <= length result + 2 * replacedCount log.
Proof.
  destruct (enhanceText fiveLooks 100 fiveLooksDraws) as [[result rest] | e | l] eqn:E;
    try (vm_compute in E; discriminate).
  destruct (enhanceText_length _ _ _ _ _ E) as (log & H1 & _ & H2 & _).
  exists result, rest, log. split; [reflexivity |]. split; assumption.
Defined.



Lemma repetition_elimination_unchanged_witness :
  applyRepetitionElimination statues [] = Return (statues, []).
Proof.
  apply repetition_elimination_unchanged.
  intros w Hw. cbn [map In] in Hw.
  repeat (destruct Hw as [Hw | Hw]; [subst w; vm_compute; lia |]).
  contradiction.
Defined.

Lemma applyActionSceneEnhancement_shape_witness :
  exists text' paragraphs',
    applyActionSceneEnhancement chase 200 8 (Math_round 16) [1 # 4] = Return (text', [])
    /\ text' = join paragraphBreak paragraphs'
    /\ Forall2 (fun p p' => if isActionParagraph p
                            then exists suffix, p' = p ++ suffix
                            else p' = p)
               (splitOn paragraphBreak chase) paragraphs'.
Proof.
  destruct (applyActionSceneEnhancement chase 200 8 (Math_round 16) [1 # 4])
    as [[text' rest] | e | l] eqn:E; try (vm_compute in E; discriminate).
  assert (Hrest : rest = []) by (vm_compute in E; inversion E; reflexivity).
  subst rest.
  destruct (applyActionSceneEnhancement_shape _ _ _ _ _ _ _ E)
    as (_ & _ & paragraphs' & H1 & H2).
  exists text', paragraphs'. split; [reflexivity |]. split; assumption.
Defined.

Lemma applyProseSmoothening_shape_witness :
  exists text' paragraphs',
    applyProseSmoothening twoParagraphs [7 # 8; 1 # 4] = Return (text', [])
    /\ text' = join paragraphBreak paragraphs'
    /\ hd_error paragraphs' = Some calm
    /\ Forall2 (fun p p' => p' = p \/ exists t, In t transitions /\ p' = t ++ p)
               (splitOn paragraphBreak twoParagraphs) paragraphs'.
Proof.
  destruct (applyProseSmoothening twoParagraphs [7 # 8; 1 # 4])
    as [[text' rest] | e | l] eqn:E; try (vm_compute in E; discriminate).
  assert (Hrest : rest = []) by (vm_compute in E; inversion E; reflexivity).
  subst rest.
  destruct (applyProseSmoothening_shape twoParagraphs [7 # 8; 1 # 4] text' [])
    as (_ & _ & paragraphs' & H1 & H2 & H3).
  - unfold inUnit. repeat constructor; unfold Qle, Qlt; cbn; lia.
  - exact E.
  - exists text', paragraphs'. split; [reflexivity |]. split; [exact H1 |].
    split; [| exact H3]. rewrite H2. vm_compute. reflexivity.
Defined.

Lemma customEnhanceText_only_adds_witness :
  exists result rest,
    customEnhanceText calm 200 repetitionOff quarters = Return (result, rest)
    /\ Embeds calm result /\ length calm + 2 <= length result.
Proof.
  destruct (customEnhanceText calm 200 repetitionOff quarters)
    as [[result rest] | e | l] eqn:E; try (vm_compute in E; discriminate).
  exists result, rest. split; [reflexivity |].
  apply (customEnhanceText_only_adds calm 200 repetitionOff quarters result rest);
    [reflexivity | exact E].
Defined.

Lemma analyzeText_returns_on_plain_text_witness :
  exists report,
    analyzeText (js "He met Tom today") = Return report
    /\ wordCount report = 4
    /\ charCount report = 16.
Proof.
  destruct (analyzeText_returns_on_plain_text (js "He met Tom today"))
    as (report & H & Hw & Hc & _).
  - vm_compute. reflexivity.
  - exists report. split; [exact H |]. rewrite Hw, Hc. split; vm_compute; reflexivity.
Defined.

Lemma applyEnvironmentalExpansion_senses_witness :
  exists text',
    applyEnvironmentalExpansion calm 200 3 (Math_round 6) = Return text'
    /\ sensoryRichness (evaluateEnvironmentalExpansionNeed calm) = 1
    /\ sensoryRichness (evaluateEnvironmentalExpansionNeed text') = 4
    /\ includes text' objectParagraph = true.
Proof.
  destruct (applyEnvironmentalExpansion calm 200 3 (Math_round 6))
    as [text' | e | l] eqn:E; try (vm_compute in E; discriminate).
  exists text'. split; [reflexivity |]. split; [vm_compute; reflexivity |].
  destruct (applyEnvironmentalExpansion_senses _ _ _ _ _ E) as [_ H].
  apply H. vm_compute. reflexivity.
Defined.

Lemma indexTs_analysis_failure_witness :
  Forall
    (fun t =>
       IndexTs.callTool {| IndexTs.name := toolName t;
                           IndexTs.arguments := Some (onlyText parenthesised) |} []
       = Return (IndexTs.McpError IndexTs.InternalError
                   (IndexTs.ProcessingError SyntaxError)))
    [analyze_text; enhance_text; custom_enhance_text].
Proof.
  assert (H : forall t,
             IndexTs.callTool {| IndexTs.name := toolName t;
                                 IndexTs.arguments := Some (onlyText parenthesised) |} []
             = Return (IndexTs.McpError IndexTs.InternalError
                         (IndexTs.ProcessingError SyntaxError))).
  { intro t. apply indexTs_analysis_failure;
      [reflexivity | exact analyzeText_parenthesised]. }
  apply Forall_cons; [apply H |]. apply Forall_cons; [apply H |].
  apply Forall_cons; [apply H |]. apply Forall_nil.
Defined.

Lemma indexTs_custom_disabled_witness :
  exists summary,
    IndexTs.callTool
      {| IndexTs.name := js "custom_enhance_text";
         IndexTs.arguments := Some (disabledArguments (js " ") (JNumber 150.5)) |} []
    = Return (IndexTs.Content (IndexTs.EnhancedText (js " " ++ paragraphBreak ++ summary)))
    /\ nth_error (splitOn [nl] summary) 7
       = Some (js "- Word Expansion: NaN% of original (150.5% target)")
    /\ nth_error (splitOn [nl] summary) 13 = Some [].
Proof.
  destruct (analyzeText (js " ")) as [report | e | l] eqn:E;
    try (vm_compute in E; discriminate).
  destruct (indexTs_custom_disabled (js " ") (JNumber 150.5) [] report)
    as (summary & H1 & H2 & H3); [discriminate | exact E |].
  exists summary. split; [exact H1 |].
  rewrite H2. split; [| reflexivity].
  cbn [nth_error]. rewrite H3 by reflexivity. vm_compute. reflexivity.
Defined.
